(** * Robust shortest path (RSP.ipynb): graph generation and the
      single-level mixed-integer model handed to the solver.

    The notebook draws two integer matrices of lower and upper arc costs,
    zeroes their diagonals, overwrites "deleted" arcs with the sentinel [M],
    builds one docplex model over binary variables [Y[i,j]] and continuous
    variables [X[j]], and solves it twice (default algorithm, then with the
    Benders strategy switched on).

    The development follows the notebook cell by cell: arrays and the
    generation loops, the expression language of the modelling layer, the
    model the notebook builds, its meaning over the reals, and then the
    properties of that model. *)

From Stdlib Require Import ZArith List Bool Arith Lia Reals Lra.
From Stdlib Require Import Classical_Prop.
From Stdlib Require QArith.
Import ListNotations.

Set Warnings "-register-all".

(* ================================================================== *)
(** ** Integer arrays *)
(* ================================================================== *)

Module Array.

(** A two-dimensional integer array, row by row. *)
Definition matrix := list (list Z).

(** [m[i][j]]. *)
Definition mget (m : matrix) (i j : nat) : Z := nth j (nth i m []) 0%Z.

(** In-place update of one cell of a list; an index past the end leaves
    the list as it is (the generation loops never index out of range). *)
Fixpoint upd {A : Type} (k : nat) (x : A) (xs : list A) : list A :=
  match xs, k with
  | [], _ => []
  | _ :: tl, O => x :: tl
  | h :: tl, S k' => h :: upd k' x tl
  end.

(** [m[i][j] = v]. *)
Definition mset (m : matrix) (i j : nat) (v : Z) : matrix :=
  upd i (upd j v (nth i m [])) m.

(** An [n] by [n] array. *)
Definition square (n : nat) (m : matrix) : Prop :=
  length m = n /\ forall i, i < n -> length (nth i m []) = n.

Definition squareb (n : nat) (m : matrix) : bool :=
  (length m =? n) && forallb (fun r => length r =? n) m.

(** [range(n)]. *)
Definition range (n : nat) : list nat := seq 0 n.

End Array.

Import Array.

(* ================================================================== *)
(** ** Graph generation (the cell that draws [l], [u] and [dummy]) *)
(* ================================================================== *)

Module Generation.

(** The test [dummy[i][j] != 0] of the deletion loop. *)
Definition deleted (d : Z) : bool := negb (d =? 0)%Z.

Section Loops.

(** [N]: number of nodes; [M]: "a very large number". *)
Variables (N : nat) (M : Z).

(** The matrix [dummy] drawn by [np.random.randint(low=0, high=10)]. *)
Variable dummy : matrix.

(** <<
    for i in range(N):
        l[i][i] = 0
        u[i][i] = 0
    >> *)
Definition zero_diagonal (lu : matrix * matrix) : matrix * matrix :=
  fold_left (fun '(l, u) i => (mset l i i 0%Z, mset u i i 0%Z))
            (range N) lu.

(** The body of the deletion loop for one pair [(i, j)]:
    <<
    if dummy[i][j] != 0:
        l[i][j] = M
        u[i][j] = M
    >> *)
Definition delete_cell (i : nat) (lu : matrix * matrix) (j : nat)
  : matrix * matrix :=
  let '(l, u) := lu in
  if deleted (mget dummy i j)
  then (mset l i j M, mset u i j M)
  else (l, u).

Definition delete_row (lu : matrix * matrix) (i : nat)
  : matrix * matrix :=
  fold_left (delete_cell i) (range N) lu.

Definition delete_arcs (lu : matrix * matrix) : matrix * matrix :=
  fold_left delete_row (range N) lu.

(** The whole cell, from the two drawn cost matrices to the [l] and
    [u] every later cell reads. *)
Definition generate (l0 u0 : matrix) : matrix * matrix :=
  delete_arcs (zero_diagonal (l0, u0)).

(** The same loops as they act on one of the two arrays: both arrays go
    through the same assignments, each with its own cells. *)
Definition zero1 (m : matrix) (ks : list nat) : matrix :=
  fold_left (fun m' i => mset m' i i 0%Z) ks m.

Definition del_cell1 (i : nat) (m : matrix) (j : nat) : matrix :=
  if deleted (mget dummy i j) then mset m i j M else m.

Definition del_row1 (js : list nat) (m : matrix) (i : nat) : matrix :=
  fold_left (del_cell1 i) js m.

Definition del1 (js : list nat) (m : matrix) (ks : list nat) : matrix :=
  fold_left (del_row1 js) ks m.

End Loops.

(** One draw of [np.random.randint(low=0, high=10)]: the ten values it
    can take, each as likely as any other. *)
Definition dummy_values : list Z := map Z.of_nat (range 10).

(** The share of those values for which the deletion loop leaves the arc
    alone. *)
Definition keep_probability : QArith_base.Q :=
  QArith_base.Qmake
    (Z.of_nat (length (filter (fun d => negb (deleted d)) dummy_values)))
    (Pos.of_nat (length dummy_values)).

End Generation.

Import Generation.


(* ================================================================== *)
(** ** The modelling layer: variables, linear expressions, models *)
(* ================================================================== *)

Module Docplex.

(** The notebook's two families of decision variables:
    [Y = m.binary_var_dict(...)], keyed by pairs, and
    [X = m.continuous_var_dict(N)], keyed by nodes. *)
Inductive var : Type :=
| Y (i j : nat)
| X (j : nat).

(** Linear expressions as the notebook writes them: integer constants,
    variables, an integer coefficient times an expression, [+], [-] and
    [m.sum(...)] over a generated sequence. *)
Inductive expr : Type :=
| Const (c : Z)
| Var (v : var)
| Mul (c : Z) (e : expr)
| Add (a b : expr)
| Sub (a b : expr)
| Sum (es : list expr).

(** [a <= b] and [a == b]. *)
Inductive constraint : Type :=
| Le (a b : expr)
| Eq (a b : expr).

(** A binary variable ranges over 0 and 1; a continuous variable created
    without bounds ranges over the non-negative reals. *)
Inductive vartype : Type := Binary | Continuous.

Record Model : Type := mkModel {
  variables : list (var * vartype);
  objective : expr;              (** the argument of [m.minimize] *)
  constraints : list constraint  (** in the order they were added *)
}.

(** [m.parameters.benders.strategy]; [None] while it is left at its
    default. *)
Record parameters : Type := mkParameters { benders_strategy : option Z }.

Definition defaults : parameters := mkParameters None.

(** A value for every variable: binary ones as booleans, continuous ones
    as reals. *)
Record solution : Type := mkSolution {
  Yval : nat -> nat -> bool;
  Xval : nat -> R
}.

Definition b2r (b : bool) : R := if b then 1%R else 0%R.

Definition b2z (b : bool) : Z := if b then 1%Z else 0%Z.

Definition value (sol : solution) (v : var) : R :=
  match v with
  | Y i j => b2r (Yval sol i j)
  | X j => Xval sol j
  end.

Fixpoint eval (sol : solution) (e : expr) : R :=
  match e with
  | Const c => IZR c
  | Var v => value sol v
  | Mul c e' => (IZR c * eval sol e')%R
  | Add a b => (eval sol a + eval sol b)%R
  | Sub a b => (eval sol a - eval sol b)%R
  | Sum es => fold_right (fun e' acc => (eval sol e' + acc)%R) 0%R es
  end.

Definition holds (sol : solution) (c : constraint) : Prop :=
  match c with
  | Le a b => (eval sol a <= eval sol b)%R
  | Eq a b => eval sol a = eval sol b
  end.

Definition in_domain (sol : solution) (d : var * vartype) : Prop :=
  match snd d with
  | Binary => True
  | Continuous => (0 <= value sol (fst d))%R
  end.

Definition feasible (m : Model) (sol : solution) : Prop :=
  Forall (in_domain sol) (variables m) /\
  Forall (holds sol) (constraints m).

Definition objective_value (m : Model) (sol : solution) : R :=
  eval sol (objective m).

(** Every model of the notebook is a minimisation. *)
Definition optimal (m : Model) (sol : solution) : Prop :=
  feasible m sol /\
  forall sol', feasible m sol' ->
    (objective_value m sol <= objective_value m sol')%R.

(** Modelled from the spec: the oracle-level failures of the error
    taxonomy. *)
Inductive failure : Type :=
| SolverTimeout
| SolverError.

(** Modelled from the spec: the four answers of the solver oracle.
    [m.solve()] turns every answer but [OPTIMAL] into [None]. *)
Inductive solve_result : Type :=
| OPTIMAL (objective_value : R) (assignment : solution)
| INFEASIBLE
| UNBOUNDED
| ERROR (reason : failure).

Definition is_binary (d : var * vartype) : bool :=
  match snd d with Binary => true | Continuous => false end.

Definition is_continuous (d : var * vartype) : bool :=
  match snd d with Binary => false | Continuous => true end.

(** [m.parameters.benders.strategy = 3] asks for a full decomposition:
    "CPLEX puts all integer variables in master and continuous variables
    into subproblems.  If there are no integer variables in your model,
    or if there are no continuous variables in your model, CPLEX raises
    an error". *)
Definition full_benders (p : parameters) : bool :=
  match benders_strategy p with
  | Some k => (k =? 3)%Z
  | None => false
  end.

Definition decomposes (m : Model) (p : parameters) : Prop :=
  full_benders p = true ->
  existsb is_binary (variables m) = true /\
  existsb is_continuous (variables m) = true.

(** Modelled from the spec: the solver behind [m.solve()] is CPLEX, which
    is not part of the repository.  Its contract is the oracle of the
    external interfaces section, with its four answers: [OPTIMAL] with
    an optimal assignment and its objective value, [INFEASIBLE] when no
    assignment satisfies the constraints, [UNBOUNDED] when feasible
    assignments exist but none is best, and [ERROR] for a solve that
    fails.  A solve may fail on any model and under any parameters (a
    time limit, the size limit of the edition, a decomposition that does
    not go through), and with the Benders strategy on it can only fail
    on a model that cannot be decomposed.  Values are exact reals: the
    floating-point numbers and the tolerances of the solver are not
    modelled. *)
Definition solve (m : Model) (p : parameters) (r : solve_result) : Prop :=
  match r with
  | OPTIMAL v sol =>
      decomposes m p /\ optimal m sol /\ v = objective_value m sol
  | INFEASIBLE => decomposes m p /\ forall sol, ~ feasible m sol
  | UNBOUNDED =>
      decomposes m p /\
      (exists sol, feasible m sol) /\ forall sol, ~ optimal m sol
  | ERROR _ => True
  end.

End Docplex.

Import Docplex.

(* ================================================================== *)
(** ** The model the notebook builds *)
(* ================================================================== *)

Module Notebook.

Section Cells.

(** The globals of the notebook: node count, the two cost arrays, source
    and destination. *)
Variables (N : nat) (l u : matrix) (s t : nat).

(** [[(i,j) for i in range(N) for j in range(N)]]. *)
Definition pairs : list (nat * nat) :=
  flat_map (fun i => map (fun j => (i, j)) (range N)) (range N).

(** [m.sum(u[i][j]*Y[i,j] for i in range(N) for j in range(N)) - X[t]]. *)
Definition objective_expr : expr :=
  Sub (Sum (map (fun ij => Mul (mget u (fst ij) (snd ij))
                               (Var (Y (fst ij) (snd ij)))) pairs))
      (Var (X t)).

(** [X[s] == 0]. *)
Definition source_constraint : constraint :=
  Eq (Var (X s)) (Const 0).

(** [X[j] <= X[i]+l[i][j]+(u[i][j]-l[i][j])*Y[i,j]]. *)
Definition distance_constraint (ij : nat * nat) : constraint :=
  let i := fst ij in
  let j := snd ij in
  Le (Var (X j))
     (Add (Add (Var (X i)) (Const (mget l i j)))
          (Mul (mget u i j - mget l i j) (Var (Y i j)))).

Definition distance_constraints : list constraint :=
  map distance_constraint pairs.

(** [m.sum(Y[j,k] for k in range(N)) - m.sum(Y[i,j] for i in range(N))]. *)
Definition flux (j : nat) : expr :=
  Sub (Sum (map (fun k => Var (Y j k)) (range N)))
      (Sum (map (fun i => Var (Y i j)) (range N))).

(** The nodes that pass the test [j != s and j != t]. *)
Definition intermediate : list nat :=
  filter (fun j => negb (j =? s) && negb (j =? t)) (range N).

Definition flux_constraints : list constraint :=
  Eq (flux s) (Const 1)
  :: Eq (flux t) (Const (-1))
  :: map (fun j => Eq (flux j) (Const 0)) intermediate.

Definition declared_variables : list (var * vartype) :=
  map (fun ij => (Y (fst ij) (snd ij), Binary)) pairs
  ++ map (fun j => (X j, Continuous)) (range N).

(** The two model cells.  [Y] and [X] are dictionaries: [X[t]], [X[s]],
    [Y[s,k]] and [Y[t,k]] raise [KeyError] unless [s] and [t] are nodes,
    which is the only way the cells can fail. *)
Definition build_model : option Model :=
  if (s <? N) && (t <? N)
  then Some (mkModel declared_variables
                     objective_expr
                     (source_constraint
                        :: distance_constraints ++ flux_constraints))
  else None.

(** *** Running the notebook *)

Inductive exn : Type := KeyError | AssertionError.

Inductive outcome : Type :=
| Completed (obj1 : R) (msol1 : solution) (obj2 : R) (msol2 : solution)
| Raised (e : exn).

Definition no_solution (r : solve_result) : Prop :=
  match r with OPTIMAL _ _ => False | _ => True end.

(** Build the model; solve it; [assert msol is not None]; set
    [m.parameters.benders.strategy = 3]; solve again;
    [assert msol is not None].  Either assertion fails on every answer
    but [OPTIMAL], a failed solve included. *)
Inductive runs : outcome -> Prop :=
| run_key_error :
    build_model = None -> runs (Raised KeyError)
| run_first_assert m r :
    build_model = Some m ->
    solve m defaults r -> no_solution r ->
    runs (Raised AssertionError)
| run_second_assert m v1 a1 r :
    build_model = Some m ->
    solve m defaults (OPTIMAL v1 a1) ->
    solve m (mkParameters (Some 3%Z)) r -> no_solution r ->
    runs (Raised AssertionError)
| run_completed m v1 a1 v2 a2 :
    build_model = Some m ->
    solve m defaults (OPTIMAL v1 a1) ->
    solve m (mkParameters (Some 3%Z)) (OPTIMAL v2 a2) ->
    runs (Completed v1 a1 v2 a2).

End Cells.

End Notebook.

Import Notebook.

(* ================================================================== *)
(** ** What the model says, in the words of the problem *)
(* ================================================================== *)

Module Reading.

Definition sumZ {A : Type} (f : A -> Z) (xs : list A) : Z :=
  fold_right (fun a acc => (f a + acc)%Z) 0%Z xs.

Definition sumR {A : Type} (f : A -> R) (xs : list A) : R :=
  fold_right (fun a acc => (f a + acc)%R) 0%R xs.

Section Graph.

Variables (N : nat) (l u : matrix).

(** A scenario: which arcs are taken at their upper bound. *)
Definition scenario := nat -> nat -> bool.

(** The sum over all ordered pairs [(i, j)] of [upper_ij * Y_ij]. *)
Definition upper_cost (yv : scenario) : Z :=
  sumZ (fun i => sumZ (fun j => (mget u i j * b2z (yv i j))%Z) (range N))
       (range N).

(** Net outflow of [Y] at node [v]: arcs leaving minus arcs entering. *)
Definition net_outflow (yv : scenario) (v : nat) : Z :=
  (sumZ (fun k => b2z (yv v k)) (range N)
   - sumZ (fun i => b2z (yv i v)) (range N))%Z.

(** Effective arc cost under a scenario: the upper bound where
    [Y[i][j] = 1], the lower bound otherwise. *)
Definition effective_cost (yv : scenario) (i j : nat) : Z :=
  if yv i j then mget u i j else mget l i j.

(** [(i, j)] is an arc of the graph when it was not overwritten with the
    sentinel. *)
Definition is_arc (M : Z) (i j : nat) : bool :=
  negb (mget l i j =? M)%Z.

Variables (s t : nat).

(** Flow conservation, as the three groups of flux constraints state it. *)
Definition conserves (yv : scenario) : Prop :=
  net_outflow yv s = 1%Z /\
  net_outflow yv t = (-1)%Z /\
  forall j, j < N -> j <> s -> j <> t -> net_outflow yv j = 0%Z.

(** What it takes for an assignment to be feasible. *)
Definition admissible (sol : solution) : Prop :=
  (forall j, j < N -> (0 <= Xval sol j)%R) /\
  Xval sol s = 0%R /\
  (forall i j, i < N -> j < N ->
     (Xval sol j <= Xval sol i + IZR (effective_cost (Yval sol) i j))%R) /\
  conserves (Yval sol).

End Graph.

End Reading.

Import Reading.

(* ================================================================== *)
(** ** Reference shortest paths *)
(* ================================================================== *)

Module ShortestPath.

(** Distances with [None] for "not reached yet". *)
Definition omin (a b : option Z) : option Z :=
  match a, b with
  | None, x => x
  | x, None => x
  | Some x, Some y => Some (Z.min x y)
  end.

Definition oplus (a : option Z) (c : Z) : option Z :=
  match a with
  | None => None
  | Some x => Some (x + c)%Z
  end.

(** Order on labels, [None] being the greatest. *)
Definition ole (a b : option Z) : Prop :=
  match a, b with
  | _, None => True
  | None, Some _ => False
  | Some x, Some y => (x <= y)%Z
  end.

Section BellmanFord.

(** Node count, arc costs (every ordered pair is an arc) and source. *)
Variables (N : nat) (c : nat -> nat -> Z) (s : nat).

Definition initial_distances : list (option Z) :=
  map (fun j => if j =? s then Some 0%Z else None) (range N).

(** The best of the current label of [j] and every [d[i] + c i j]. *)
Definition relax_node (d : list (option Z)) (j : nat) : option Z :=
  fold_left (fun best i => omin best (oplus (nth i d None) (c i j)))
            (range N) (nth j d None).

Definition relax_pass (d : list (option Z)) : list (option Z) :=
  map (relax_node d) (range N).

Fixpoint passes (k : nat) : list (option Z) :=
  match k with
  | O => initial_distances
  | S k' => relax_pass (passes k')
  end.

(** Bellman-Ford: [N - 1] full passes from the source labelling. *)
Definition bellman_ford : list (option Z) := passes (N - 1).

Definition distance (j : nat) : option Z := nth j bellman_ford None.

(** A walk that starts at [a] and visits [w] in order, and its cost. *)
Fixpoint walk_cost (a : nat) (w : list nat) : Z :=
  match w with
  | [] => 0%Z
  | b :: w' => (c a b + walk_cost b w')%Z
  end.

Definition walk_end (a : nat) (w : list nat) : nat := last w a.

Definition in_range (w : list nat) : Prop := Forall (fun v => v < N) w.

(** The labels as values for the continuous variables; a node that was
    never reached gets 0. *)
Definition potentials (j : nat) : R :=
  match distance j with
  | Some v => IZR v
  | None => 0%R
  end.

End BellmanFord.

(** The arcs a walk uses, in order. *)
Fixpoint arcs_of (a : nat) (w : list nat) : list (nat * nat) :=
  match w with
  | [] => []
  | b :: w' => (a, b) :: arcs_of b w'
  end.

End ShortestPath.

Import ShortestPath.

(* ================================================================== *)
(** ** Scenarios and their regret *)
(* ================================================================== *)

Module Scenario.

(** No arc selected. *)
Definition no_arcs : scenario := fun _ _ => false.

(** [yv] with the entry of [(a, b)] replaced by [v]. *)
Definition set_arc (yv : scenario) (a b : nat) (v : bool) : scenario :=
  fun i j => if (i =? a) && (j =? b) then v else yv i j.

(** The change replacing one entry makes to that entry's value. *)
Definition delta (yv : scenario) (a b : nat) (v : bool) : Z :=
  (b2z v - b2z (yv a b))%Z.

(** Only the arc [(a, b)] selected. *)
Definition single_arc (a b : nat) : scenario := set_arc no_arcs a b true.

(** An assignment with the binary variable of [(a, b)] replaced. *)
Definition with_arc (sol : solution) (a b : nat) (v : bool) : solution :=
  mkSolution (set_arc (Yval sol) a b v) (Xval sol).

(** The arcs of a list selected, and no other. *)
Definition of_arcs (arcs : list (nat * nat)) : scenario :=
  fun i j => existsb (fun ij => (fst ij =? i) && (snd ij =? j)) arcs.

Section Regret.

Variables (N : nat) (l u : matrix) (s t : nat).

(** Some sequence of arcs of the graph (pairs that do not carry the
    sentinel [M]) leads from [s] to [t]. *)
Definition path_exists (M : Z) : Prop :=
  exists w, in_range N w /\ walk_end s w = t /\
            Forall (fun ij => is_arc l M (fst ij) (snd ij) = true)
                   (arcs_of s w).

(** The graph whose only arc is [s -> t], with bounds [(lo, up)]: every
    other off-diagonal pair carries the sentinel [M], and a diagonal pair
    carries 0, or [M] where the deletion loop overwrote it. *)
Definition single_arc_graph (M lo up : Z) : Prop :=
  s < N /\ t < N /\ s <> t /\
  (0 <= lo <= up)%Z /\ (up <= M)%Z /\
  mget l s t = lo /\ mget u s t = up /\
  (forall i, i < N ->
     mget l i i = mget u i i /\ (mget l i i = 0%Z \/ mget l i i = M)) /\
  (forall i j, i < N -> j < N -> i <> j -> (i, j) <> (s, t) ->
     mget l i j = M /\ mget u i j = M).

(** Shortest distance from [s] to [t] when the arcs of the scenario are
    at their upper bounds and all others at their lower bounds. *)
Definition scenario_distance (yv : scenario) : Z :=
  match distance N (effective_cost l u yv) s t with
  | Some v => v
  | None => 0%Z
  end.

(** Cost of the selected arcs at their upper bounds, minus that
    distance. *)
Definition regret (yv : scenario) : Z :=
  (upper_cost N u yv - scenario_distance yv)%Z.

End Regret.

End Scenario.

Import Scenario.

(* ================================================================== *)
(** ** Checking a solution and a lower bound by computation *)
(* ================================================================== *)

Module Certificate.

Definition pair_eqb (a b : nat * nat) : bool :=
  (fst a =? fst b) && (snd a =? snd b).

Fixpoint nodupb (xs : list (nat * nat)) : bool :=
  match xs with
  | [] => true
  | x :: r => negb (existsb (pair_eqb x) r) && nodupb r
  end.

(** Add [d] to the entry [k] of a list of balances. *)
Definition bump (bal : list Z) (k : nat) (d : Z) : list Z :=
  upd k (nth k bal 0 + d)%Z bal.

Section Check.

Variables (N : nat) (l u : matrix) (s t : nat).

(** An assignment whose continuous values are integers. *)
Definition integral (yv : scenario) (xs : list Z) : solution :=
  mkSolution yv (fun j => IZR (nth j xs 0%Z)).

(** Every condition of feasibility, decided on integers. *)
Definition admissibleb (yv : scenario) (xs : list Z) : bool :=
  forallb (fun j => 0 <=? nth j xs 0)%Z (range N)
  && (nth s xs 0 =? 0)%Z
  && forallb (fun i =>
       forallb (fun j => nth j xs 0 <=? nth i xs 0 + effective_cost l u yv i j)%Z
               (range N)) (range N)
  && (net_outflow N yv s =? 1)%Z
  && (net_outflow N yv t =? -1)%Z
  && forallb (fun j => (j =? s) || (j =? t) || (net_outflow N yv j =? 0)%Z)
             (range N).

(** Is [ij] one of the arcs of the walk [w] from [s]? *)
Definition on_walk (w : list nat) (ij : nat * nat) : bool :=
  existsb (pair_eqb ij) (arcs_of s w).

(** What selecting [ij] adds to "cost of the selection at the upper
    bounds, minus the cost of the walk [w] under the selection": the
    lower bound of an arc of the walk, the upper bound of any other. *)
Definition weight (w : list nat) (ij : nat * nat) : Z :=
  if on_walk w ij then mget l (fst ij) (snd ij) else mget u (fst ij) (snd ij).

Definition lower_cost (w : list nat) : Z := walk_cost (mget l) s w.

(** Balances after selecting [ij]: one more arc out of its tail, one more
    into its head. *)
Definition select (bal : list Z) (ij : nat * nat) : list Z :=
  bump (bump bal (fst ij) 1) (snd ij) (-1).

(** Exhaustive search over the selections of the pairs in [todo].  Each
    entry of [accs] is a walk with the bound it gives so far; a branch is
    closed as soon as one bound reaches [th], and at a leaf when the
    balances show that flow is not conserved.  A self-loop changes no
    balance and lowers no bound, so only the branch that leaves it out is
    explored. *)
Fixpoint search (th : Z) (todo : list (nat * nat))
         (accs : list (list nat * Z)) (bal : list Z) : bool :=
  if existsb (fun wa => th <=? snd wa)%Z accs then true
  else
    match todo with
    | [] => negb (forallb (fun b => b =? 0)%Z bal)
    | ij :: todo' =>
        if fst ij =? snd ij then search th todo' accs bal
        else
          search th todo'
                 (map (fun wa => (fst wa, snd wa + weight (fst wa) ij)%Z) accs)
                 (select bal ij)
          && search th todo' accs bal
    end.

(** What the pairs of [todo] selected by [yv] add to the bound of the
    walk [w], and to the balance of the node [v]. *)
Definition gain (yv : scenario) (w : list nat) (todo : list (nat * nat))
  : Z :=
  sumZ (fun ij => weight w ij * b2z (yv (fst ij) (snd ij)))%Z todo.

Definition flow (yv : scenario) (v : nat) (todo : list (nat * nat)) : Z :=
  sumZ (fun ij => b2z (yv (fst ij) (snd ij))
                  * ((if (fst ij =? v)%nat then 1 else 0)
                     - (if (snd ij =? v)%nat then 1 else 0)))%Z todo.

Definition initial_balance : list Z :=
  map (fun v => if v =? s then (-1)%Z else if v =? t then 1%Z else 0%Z)
      (range N).

Definition good_walk (w : list nat) : bool :=
  forallb (fun v => v <? N) w && (walk_end s w =? t) && nodupb (arcs_of s w).

Definition nonneg_costs : bool :=
  forallb (fun ij => (0 <=? mget l (fst ij) (snd ij))%Z
                     && (0 <=? mget u (fst ij) (snd ij))%Z) (pairs N).

(** [lower_bound th ws = true] certifies that no feasible assignment has
    an objective below [th]. *)
Definition lower_bound (th : Z) (ws : list (list nat)) : bool :=
  (s <? N) && (t <? N) && negb (s =? t)
  && nonneg_costs && forallb good_walk ws
  && search th (pairs N) (map (fun w => (w, (- lower_cost w)%Z)) ws)
            initial_balance.

End Check.

End Certificate.

Import Certificate.

(* ================================================================== *)
(** ** The recorded run *)
(* ================================================================== *)

Module Recorded.

(** The notebook's constants. *)
Definition N : nat := 20.

Definition M : Z := 10000.

Definition s : nat := 0.

Definition t : nat := 4.

(** [l] as the generation cell printed it ("Lower bound matrix"). *)
Definition l : matrix :=
  [
   [10000; 10000; 10000; 10000; 10000; 2; 10000; 10000; 10000; 10000;
    10000; 10000; 10000; 10000; 1; 10000; 10000; 7; 10000; 10000];
   [10000; 10000; 10000; 10000; 10000; 10000; 4; 10000; 10000; 8; 10000;
    10000; 10000; 10000; 10000; 10000; 10000; 10000; 10000; 10000];
   [10000; 10000; 10000; 10000; 10000; 2; 10000; 10000; 10000; 10000;
    10000; 10000; 5; 10000; 10000; 7; 10000; 10000; 10000; 10000];
   [10000; 10000; 8; 10000; 10000; 10000; 10000; 10000; 10000; 10000;
    10000; 2; 10000; 10000; 10000; 10000; 10000; 10000; 10000; 10000];
   [10000; 10000; 10000; 10000; 10000; 10000; 4; 10000; 10000; 10000;
    10000; 10000; 10000; 10000; 9; 10000; 10000; 10000; 10000; 10000];
   [3; 10000; 10000; 10000; 10000; 10000; 10000; 10000; 10000; 10000;
    10000; 10000; 10000; 10000; 10000; 10000; 10000; 10000; 5; 10000];
   [10000; 10000; 10000; 10000; 2; 10000; 10000; 4; 10000; 10000; 10000;
    10000; 10000; 10000; 10000; 10000; 10000; 10000; 10000; 10000];
   [10000; 7; 10000; 10000; 10000; 10000; 2; 10000; 10000; 10000; 10000;
    10000; 10000; 10000; 10000; 10000; 10000; 10000; 10000; 10000];
   [10000; 10000; 10000; 2; 5; 10000; 10000; 10000; 10000; 10000; 10000; 4;
    10000; 10000; 10000; 3; 10000; 10000; 10000; 10000];
   [10000; 8; 10000; 10000; 10000; 10000; 10000; 10000; 10000; 0; 2; 10000;
    10000; 10000; 10000; 10000; 10000; 10000; 10000; 10000];
   [10000; 10000; 10000; 10000; 10000; 10000; 10000; 10000; 1; 10000;
    10000; 10000; 10000; 10000; 10000; 10000; 10000; 10000; 10000; 10000];
   [10000; 7; 10000; 10000; 10000; 10000; 10000; 10000; 10000; 1; 10000;
    10000; 5; 10000; 10000; 10000; 10000; 8; 10000; 10000];
   [10000; 10000; 10000; 10000; 10000; 2; 10000; 10000; 10000; 10000;
    10000; 2; 10000; 10000; 10000; 10000; 10000; 4; 6; 5];
   [10000; 10000; 10000; 10000; 10000; 10000; 10000; 10000; 10000; 10000;
    10000; 10000; 10000; 10000; 10000; 4; 10000; 10000; 10000; 10000];
   [2; 10000; 10000; 10000; 10000; 10000; 10000; 10000; 10000; 10000;
    10000; 2; 10000; 10000; 10000; 10000; 3; 10000; 10000; 10000];
   [10000; 10000; 10000; 10000; 10000; 10000; 10000; 10000; 10000; 10000;
    10000; 10000; 10000; 10000; 10000; 0; 10000; 10000; 10000; 10000];
   [10000; 10000; 10000; 10000; 10000; 9; 10000; 10000; 10000; 10000;
    10000; 6; 10000; 10000; 10000; 10000; 10000; 10000; 10000; 2];
   [10000; 10000; 3; 10000; 10000; 10000; 10000; 10000; 8; 10000; 10000;
    10000; 10000; 10000; 10000; 10000; 10000; 0; 10000; 9];
   [10000; 10000; 10000; 10000; 10000; 10000; 10000; 10000; 10000; 10000;
    10000; 10000; 10000; 10000; 10000; 10000; 10000; 10000; 10000; 10000];
   [10000; 10000; 10000; 10000; 4; 10000; 10000; 10000; 4; 10000; 10000;
    10000; 5; 10000; 10000; 10000; 10000; 10000; 10000; 0]
  ]%Z.

(** [u] as the generation cell printed it ("Upper bound matrix"). *)
Definition u : matrix :=
  [
   [10000; 10000; 10000; 10000; 10000; 27; 10000; 10000; 10000; 10000;
    10000; 10000; 10000; 10000; 20; 10000; 10000; 21; 10000; 10000];
   [10000; 10000; 10000; 10000; 10000; 10000; 26; 10000; 10000; 21; 10000;
    10000; 10000; 10000; 10000; 10000; 10000; 10000; 10000; 10000];
   [10000; 10000; 10000; 10000; 10000; 29; 10000; 10000; 10000; 10000;
    10000; 10000; 25; 10000; 10000; 25; 10000; 10000; 10000; 10000];
   [10000; 10000; 27; 10000; 10000; 10000; 10000; 10000; 10000; 10000;
    10000; 21; 10000; 10000; 10000; 10000; 10000; 10000; 10000; 10000];
   [10000; 10000; 10000; 10000; 10000; 10000; 25; 10000; 10000; 10000;
    10000; 10000; 10000; 10000; 29; 10000; 10000; 10000; 10000; 10000];
   [24; 10000; 10000; 10000; 10000; 10000; 10000; 10000; 10000; 10000;
    10000; 10000; 10000; 10000; 10000; 10000; 10000; 10000; 27; 10000];
   [10000; 10000; 10000; 10000; 25; 10000; 10000; 26; 10000; 10000; 10000;
    10000; 10000; 10000; 10000; 10000; 10000; 10000; 10000; 10000];
   [10000; 25; 10000; 10000; 10000; 10000; 22; 10000; 10000; 10000; 10000;
    10000; 10000; 10000; 10000; 10000; 10000; 10000; 10000; 10000];
   [10000; 10000; 10000; 22; 26; 10000; 10000; 10000; 10000; 10000; 10000;
    25; 10000; 10000; 10000; 25; 10000; 10000; 10000; 10000];
   [10000; 23; 10000; 10000; 10000; 10000; 10000; 10000; 10000; 0; 24;
    10000; 10000; 10000; 10000; 10000; 10000; 10000; 10000; 10000];
   [10000; 10000; 10000; 10000; 10000; 10000; 10000; 10000; 25; 10000;
    10000; 10000; 10000; 10000; 10000; 10000; 10000; 10000; 10000; 10000];
   [10000; 26; 10000; 10000; 10000; 10000; 10000; 10000; 10000; 21; 10000;
    10000; 28; 10000; 10000; 10000; 10000; 29; 10000; 10000];
   [10000; 10000; 10000; 10000; 10000; 25; 10000; 10000; 10000; 10000;
    10000; 20; 10000; 10000; 10000; 10000; 10000; 28; 28; 20];
   [10000; 10000; 10000; 10000; 10000; 10000; 10000; 10000; 10000; 10000;
    10000; 10000; 10000; 10000; 10000; 26; 10000; 10000; 10000; 10000];
   [28; 10000; 10000; 10000; 10000; 10000; 10000; 10000; 10000; 10000;
    10000; 22; 10000; 10000; 10000; 10000; 22; 10000; 10000; 10000];
   [10000; 10000; 10000; 10000; 10000; 10000; 10000; 10000; 10000; 10000;
    10000; 10000; 10000; 10000; 10000; 0; 10000; 10000; 10000; 10000];
   [10000; 10000; 10000; 10000; 10000; 24; 10000; 10000; 10000; 10000;
    10000; 23; 10000; 10000; 10000; 10000; 10000; 10000; 10000; 24];
   [10000; 10000; 23; 10000; 10000; 10000; 10000; 10000; 22; 10000; 10000;
    10000; 10000; 10000; 10000; 10000; 10000; 0; 10000; 24];
   [10000; 10000; 10000; 10000; 10000; 10000; 10000; 10000; 10000; 10000;
    10000; 10000; 10000; 10000; 10000; 10000; 10000; 10000; 10000; 10000];
   [10000; 10000; 10000; 10000; 20; 10000; 10000; 10000; 24; 10000; 10000;
    10000; 27; 10000; 10000; 10000; 10000; 10000; 10000; 0]
  ]%Z.

(** Draws from which the generation cell produces the printed arrays:
    a non-zero [dummy] wherever the sentinel was printed, and any value
    of the drawn range in the cells the loops overwrite. *)
Definition drawn_dummy : matrix :=
  map (map (fun x => if (x =? M)%Z then 1%Z else 0%Z)) l.

Definition drawn_l : matrix :=
  map (map (fun x => if ((x =? M) || (x =? 0))%Z then 1%Z else x)) l.

Definition drawn_u : matrix :=
  map (map (fun x => if ((x =? M) || (x =? 0))%Z then 20%Z else x)) u.

(** The solution the first solve printed: [x18], [x360] and [x385] are
    the 18th, 360th and 385th binary variables, that is [Y[0,17]],
    [Y[17,19]] and [Y[19,4]]; [x401] to [x420] are [X[0]] to [X[19]], and
    a variable that is not printed is 0. *)
Definition msol_arcs : list (nat * nat) := [(0, 17); (17, 19); (19, 4)].

Definition msol_X : list Z :=
  [0; 10; 10; 9; 12; 0; 14; 18; 7; 4; 6; 3; 8; 10000; 1; 0; 4; 11; 0; 6]%Z.

Definition msol : solution := integral (of_arcs msol_arcs) msol_X.

(** "objective: 53". *)
Definition reported_objective : Z := 53.

(** Two walks from [s] to [t] used to bound the objective from below. *)
Definition bounding_walks : list (list nat) :=
  [[14; 16; 19; 4]; [14; 11; 9; 10; 8; 4]].

End Recorded.

(* ================================================================== *)
(** ** Small instances *)
(* ================================================================== *)

Module Examples.

Definition M : Z := 10000.

(** Draws for a graph of two nodes: the cell [(0, 0)] of [dummy] is not
    zero, every other cell is. *)
Definition draw_l : matrix := [[3; 4]; [5; 6]]%Z.

Definition draw_u : matrix := [[20; 21]; [22; 23]]%Z.

Definition draw_dummy : matrix := [[7; 0]; [0; 0]]%Z.

Definition small_l : matrix := fst (generate 2 M draw_dummy draw_l draw_u).

Definition small_u : matrix := snd (generate 2 M draw_dummy draw_l draw_u).

(** A solution of the two-node model that selects the arc [0 -> 1] and
    the self-loop of node 1. *)
Definition small_sol : solution :=
  integral (of_arcs [(0, 1); (1, 1)]) [0; 21]%Z.

(** The same two nodes when the draw deletes the arc [0 -> 1]: no arc
    leaves the source. *)
Definition cut_dummy : matrix := [[0; 5]; [0; 0]]%Z.

Definition cut_l : matrix := fst (generate 2 M cut_dummy draw_l draw_u).

Definition cut_u : matrix := snd (generate 2 M cut_dummy draw_l draw_u).

Definition cut_sol : solution := integral (of_arcs [(0, 1)]) [0; 10000]%Z.

(** Two nodes and the single arc [0 -> 1] with bounds (4, 21); the pair
    [(1, 0)] carries the sentinel and the diagonal is 0. *)
Definition solo_l : matrix := [[0; 4]; [10000; 0]]%Z.

Definition solo_u : matrix := [[0; 21]; [10000; 0]]%Z.

(** Three nodes, source 0, destination 1.  The draw deletes the arc
    [2 -> 1], so node 2 is one arc away from the source and leads
    nowhere near the destination. *)
Definition tri_draw_l : matrix := [[5; 1; 1]; [1; 5; 1]; [1; 5; 5]]%Z.

Definition tri_draw_u : matrix :=
  [[20; 20; 20]; [20; 20; 20]; [20; 20; 20]]%Z.

Definition tri_dummy : matrix := [[0; 0; 0]; [0; 0; 0]; [0; 3; 0]]%Z.

Definition tri_l : matrix :=
  fst (generate 3 M tri_dummy tri_draw_l tri_draw_u).

Definition tri_u : matrix :=
  snd (generate 3 M tri_dummy tri_draw_l tri_draw_u).


(** The four-node graph of the first test scenario: arcs [0 -> 1] and
    [1 -> 3] with bounds (1, 5), [0 -> 2] with (2, 2), [2 -> 3] with
    (1, 10); every other pair carries the sentinel, the diagonal 0. *)
Definition toy_l : matrix :=
  [[0; 1; 2; 10000]; [10000; 0; 10000; 1];
   [10000; 10000; 0; 1]; [10000; 10000; 10000; 0]]%Z.

Definition toy_u : matrix :=
  [[0; 5; 2; 10000]; [10000; 0; 10000; 5];
   [10000; 10000; 0; 10]; [10000; 10000; 10000; 0]]%Z.

Definition toy_sol : solution :=
  integral (of_arcs [(0, 1); (1, 3)]) [0; 1; 2; 3]%Z.

End Examples.

(* ================================================================== *)
(** ** Paths and their regret *)
(* ================================================================== *)

Module Paths.

(** A cost that tells the selected pairs from the others: 0 on a selected
    pair, 1 elsewhere. *)
Definition selection_cost (yv : scenario) (i j : nat) : Z :=
  if yv i j then 0%Z else 1%Z.

Definition b2n (b : bool) : nat := if b then 1 else 0.

Section Paths.

Variables (N : nat) (l u : matrix) (s t : nat).

(** A path: a walk from [s] to [t] over the nodes of the graph that
    visits no node twice. *)
Definition simple_path (w : list nat) : Prop :=
  in_range N w /\ walk_end s w = t /\ NoDup (s :: w).

(** The scenario in which exactly the arcs of the walk are selected. *)
Definition path_scenario (w : list nat) : scenario := of_arcs (arcs_of s w).

(** Length of the walk with all its arcs at their upper bounds. *)
Definition path_upper (w : list nat) : Z := walk_cost (mget u) s w.

(** The regret of a path: the length of the path with its arcs at their
    upper bounds, minus the length of the shortest path from [s] to [t]
    when the arcs of the path are at their upper bounds and all other
    arcs at their lower bounds. *)
Definition path_regret (w : list nat) : Z :=
  (path_upper w - scenario_distance N l u s t (path_scenario w))%Z.

(** Every pair of bounds is ordered and not negative, decided cell by
    cell. *)
Definition ordered_costs : bool :=
  forallb (fun ij => (0 <=? mget l (fst ij) (snd ij))%Z
                     && (mget l (fst ij) (snd ij)
                         <=? mget u (fst ij) (snd ij))%Z) (pairs N).

End Paths.

End Paths.

Import Paths.
(* ================================================================== *)
(** ** The iteration loop of the decomposition *)
(* ================================================================== *)

Module Benders.

(** Modelled from the spec: the Benders Orchestrator (its state machine,
    the bounds it tracks and the way one iteration updates them).  The
    notebook has no such loop of its own: it sets
    [m.parameters.benders.strategy] and the solver decomposes the model
    internally.  What follows is the loop of the orchestrator section:
    seed [LB = -oo], [UB = +oo] and an empty cut store; in each pass
    resolve the master, set [LB = max(LB, Z_master)], solve the
    subproblem, set [UB = min(UB, Z_sub)] with
    [Z_sub = sum of upper_ij * Y_ij - x[t]], stop when
    [UB - LB <= tolerance], otherwise store a new cut, and fail once the
    iteration limit is passed. *)
Inductive bound : Type :=
| NegInf
| Finite (r : R)
| PosInf.

Definition bound_le (a b : bound) : Prop :=
  match a, b with
  | NegInf, _ => True
  | _, PosInf => True
  | Finite x, Finite y => (x <= y)%R
  | _, _ => False
  end.

(** [LB = max(LB, Z_master)]; the value of an unbounded master is
    [-oo]. *)
Definition raise_lb (lb z_master : bound) : bound :=
  match lb, z_master with
  | PosInf, _ => PosInf
  | _, PosInf => PosInf
  | NegInf, z => z
  | x, NegInf => x
  | Finite x, Finite z => Finite (Rmax x z)
  end.

(** [UB = min(UB, Z_sub)]. *)
Definition lower_ub (ub : bound) (z : R) : bound :=
  match ub with
  | PosInf => Finite z
  | Finite x => Finite (Rmin x z)
  | NegInf => NegInf
  end.

(** [UB - LB <= tolerance], which needs both bounds finite. *)
Definition gap_closed (tolerance : R) (lb ub : bound) : bool :=
  match lb, ub with
  | Finite x, Finite y => if Rle_dec (y - x) tolerance then true else false
  | _, _ => false
  end.

Inductive phase : Type := INIT | ITERATING | CONVERGED | FAILED.

(** Modelled from the spec: the conditions of the error taxonomy that
    stop a run. *)
Inductive error : Type :=
| InvalidInstance
| NoPathExists
| MasterInfeasible
| SolverFailure (reason : failure)
| IterationLimitExceeded.

Record state : Type := mkState {
  current : phase;
  LB : bound;
  UB : bound;
  cut_store : list (list nat);
  iteration_count : nat;
  reported : option (scenario * R);
  stopped_on : option error
}.

Section Master.

Variables (N : nat) (l u : matrix) (s t : nat).

(** Modelled from the spec: the master program over the cuts collected
    so far, in its classical form.  The variables are the scenario and
    the scalar [eta]; the scenario conserves flow; every cut comes from
    an extreme point of the subproblem's dual region, a walk from [s] to
    [t], and keeps [eta] below the cost of that walk under the scenario;
    the objective is the cost of the scenario at the upper bounds minus
    [eta]. *)
Definition master_feasible (cuts : list (list nat)) (yv : scenario)
           (eta : R) : Prop :=
  conserves N s t yv /\
  Forall (fun w => (eta <= IZR (walk_cost (effective_cost l u yv) s w))%R)
         cuts.

Definition master_objective (yv : scenario) (eta : R) : R :=
  (IZR (upper_cost N u yv) - eta)%R.

Definition master_optimal (cuts : list (list nat)) (yv : scenario)
           (eta : R) : Prop :=
  master_feasible cuts yv eta /\
  forall yv' eta', master_feasible cuts yv' eta' ->
    (master_objective yv eta <= master_objective yv' eta')%R.

(** Modelled from the spec: the master problem resolver hands the
    master program to the solver oracle and gets one of its four answers
    back.  In an [OPTIMAL] answer the assignment carries the scenario
    in its binary part and [eta] in the place of the label of [t]. *)
Definition master_resolve (cuts : list (list nat)) (r : solve_result)
  : Prop :=
  match r with
  | OPTIMAL z sol =>
      master_optimal cuts (Yval sol) (Xval sol t) /\
      z = master_objective (Yval sol) (Xval sol t)
  | INFEASIBLE => forall yv eta, ~ master_feasible cuts yv eta
  | UNBOUNDED =>
      (exists yv eta, master_feasible cuts yv eta) /\
      forall yv eta, ~ master_optimal cuts yv eta
  | ERROR _ => True
  end.

End Master.

Section Orchestrator.

Variables (N : nat) (M : Z) (l u : matrix) (s t : nat).
Variables (tolerance : R) (max_iterations : nat).

(** Modelled from the spec: the checks of [INIT].  [InvalidInstance]:
    out-of-range nodes, [s == t], a negative bound or a lower bound
    above its upper bound. *)
Definition well_formed : bool :=
  (s <? N) && (t <? N) && negb (s =? t) && ordered_costs N l u.

(** An arc leaves [s] and an arc enters [t]. *)
Definition has_outgoing : bool :=
  existsb (fun j => negb (j =? s) && is_arc l M s j) (range N).

Definition has_incoming : bool :=
  existsb (fun i => negb (i =? t) && is_arc l M i t) (range N).

(** The reachability check: the shortest distance from [s] to [t] when an
    arc costs 0 and a pair that carries the sentinel costs 1 is 0 exactly
    when arcs alone lead from [s] to [t]. *)
Definition hop_cost (i j : nat) : Z := if is_arc l M i j then 0%Z else 1%Z.

Definition reachable : bool :=
  match distance N hop_cost s t with
  | Some 0%Z => true
  | _ => false
  end.

Definition stop (st : state) (e : error) : state :=
  mkState FAILED (LB st) (UB st) (cut_store st) (iteration_count st)
          (reported st) (Some e).

Definition seeded : state :=
  mkState ITERATING NegInf PosInf [] 0 None None.

(** Modelled from the spec: [INIT] validates the instance, looks for a
    path and seeds the bounds and the cut store. *)
Definition init : state :=
  if negb well_formed then stop seeded InvalidInstance
  else if negb (has_outgoing && has_incoming && reachable)
  then stop seeded NoPathExists
  else seeded.

(** Modelled from the spec: the subproblem solver returns the exact
    shortest distances under the scenario. *)
Definition subproblem (yv : scenario) : list (option Z) :=
  bellman_ford N (effective_cost l u yv) s.

(** Modelled from the spec: the cut of a pass comes from the potentials
    of the subproblem: an extreme point of its dual region, that is a
    walk from [s] to [t], whose cost under the scenario is the potential
    of [t]. *)
Definition derives (yv : scenario) (x : list (option Z)) (w : list nat)
  : Prop :=
  in_range N w /\ walk_end s w = t /\
  forall xt, nth t x None = Some xt ->
             walk_cost (effective_cost l u yv) s w = xt.

(** Modelled from the spec: steps 1 to 5 of a pass of [ITERATING], once
    the master has answered with the scenario [yv] and the value
    [z_master] and the cut [w] has been derived. *)
Definition pass (st : state) (yv : scenario) (z_master : bound)
           (w : list nat) : state :=
  let lb := raise_lb (LB st) z_master in
  let x := subproblem yv in
  let z_sub :=
    match nth t x None with
    | Some xt => Some (IZR (upper_cost N u yv - xt))
    | None => None
    end in
  let ub :=
    match z_sub with
    | Some z => lower_ub (UB st) z
    | None => UB st
    end in
  let k := S (iteration_count st) in
  if gap_closed tolerance lb ub
  then mkState CONVERGED lb ub (cut_store st) k
               (match z_sub with
                | Some z => Some (yv, z)
                | None => reported st
                end) None
  else if max_iterations <=? k
  then mkState FAILED lb ub (cut_store st) k (reported st)
               (Some IterationLimitExceeded)
  else mkState ITERATING lb ub (cut_store st ++ [w]) k (reported st) None.

(** Modelled from the spec: one pass of [ITERATING], by the answer of
    the oracle to the master program.  The spec does not say what a pass
    does with the unboundedness signal, which is the answer to the first
    master program, whose cut store is empty and leaves [eta] free; the
    loop can only ever converge if it goes on, so the pass goes on with
    a scenario that satisfies the master's constraints and with
    [Z_master = -oo].  A failure of the oracle stops the run (a retry
    is one more answer of the same oracle). *)
Inductive step : state -> state -> Prop :=
| step_optimal st z sol w :
    current st = ITERATING ->
    master_resolve N l u s t (cut_store st) (OPTIMAL z sol) ->
    derives (Yval sol) (subproblem (Yval sol)) w ->
    step st (pass st (Yval sol) (Finite z) w)
| step_unbounded st yv eta w :
    current st = ITERATING ->
    master_resolve N l u s t (cut_store st) UNBOUNDED ->
    master_feasible N l u s t (cut_store st) yv eta ->
    derives yv (subproblem yv) w ->
    step st (pass st yv NegInf w)
| step_infeasible st :
    current st = ITERATING ->
    master_resolve N l u s t (cut_store st) INFEASIBLE ->
    step st (stop st MasterInfeasible)
| step_error st reason :
    current st = ITERATING ->
    master_resolve N l u s t (cut_store st) (ERROR reason) ->
    step st (stop st (SolverFailure reason)).

(** Modelled from the spec: the states a run is in after [k] passes. *)
Inductive reaches : nat -> state -> Prop :=
| reaches_init : reaches 0 init
| reaches_step k st st' :
    reaches k st -> step st st' -> reaches (S k) st'.

End Orchestrator.

(** Modelled from the spec: the reading of the two bounds.  [LB] bounds
    the objective of the original problem from below, [UB] is the
    objective of an assignment the loop has seen. *)
Definition sound (m : Model) (st : state) : Prop :=
  match LB st with
  | NegInf => True
  | Finite x => forall sol, feasible m sol -> (x <= objective_value m sol)%R
  | PosInf => False
  end /\
  match UB st with
  | PosInf => True
  | Finite y => exists sol, feasible m sol /\ objective_value m sol = y
  | NegInf => False
  end.

(** The cuts in the store are walks of the graph from [s] to [t]. *)
Definition cuts_valid (N s t : nat) (st : state) : Prop :=
  Forall (fun w => in_range N w /\ walk_end s w = t) (cut_store st).

End Benders.

Import Benders.

(* ================================================================== *)
(** ** A run of the loop on the four-node graph *)
(* ================================================================== *)

Module ToyRun.

(** The two paths of the graph, as scenarios. *)
Definition upper_path : scenario := of_arcs [(0, 1); (1, 3)].

Definition lower_path : scenario := of_arcs [(0, 2); (2, 3)].

(** After the first pass: the first master program has no cuts and is
    unbounded; the pass goes on with the path [0 -> 1 -> 3], under which
    the shortest walk is [0 -> 2 -> 3]. *)
Definition first : state :=
  pass 4 Examples.toy_l Examples.toy_u 0 3 0%R 10
       (init 4 Examples.M Examples.toy_l Examples.toy_u 0 3)
       upper_path NegInf [2; 3].

(** The second master program has the cut of [0 -> 2 -> 3]; its optimum
    is the path [0 -> 2 -> 3] itself with [eta = 12] and the value 0. *)
Definition second_master : solution :=
  mkSolution lower_path (fun _ => 12%R).

Definition second : state :=
  pass 4 Examples.toy_l Examples.toy_u 0 3 0%R 10 first
       lower_path (Finite 0%R) [1; 3].

(** The third master program has both cuts; its optimum is the path
    [0 -> 1 -> 3] with [eta = 3] and the value 7. *)
Definition third_master : solution :=
  mkSolution upper_path (fun _ => 3%R).

Definition third : state :=
  pass 4 Examples.toy_l Examples.toy_u 0 3 0%R 10 second
       upper_path (Finite 7%R) [2; 3].

End ToyRun.

(* ================================================================== *)
(** * Lemmas *)
(* ================================================================== *)

(** ** Arrays *)

Module ArrayFacts.

Lemma upd_length (A : Type) (k : nat) (x : A) (xs : list A) :
  length (upd k x xs) = length xs.
Proof.
  revert k; induction xs as [|h tl IH]; intros [|k]; simpl; auto.
Qed.

Lemma nth_upd (A : Type) (k i : nat) (x d : A) (xs : list A) :
  nth i (upd k x xs) d =
  if (i =? k) && (k <? length xs) then x else nth i xs d.
Proof.
  revert k i; induction xs as [|h tl IH]; intros k i.
  - simpl. destruct k, i; simpl; rewrite ?andb_false_r; reflexivity.
  - destruct k as [|k], i as [|i]; simpl; try reflexivity.
    rewrite IH. reflexivity.
Qed.

Lemma mget_mset (m : matrix) (a b i j : nat) (v : Z) :
  mget (mset m a b v) i j =
  if (i =? a) && (a <? length m) && ((j =? b) && (b <? length (nth a m [])))
  then v else mget m i j.
Proof.
  unfold mget, mset. rewrite nth_upd.
  destruct ((i =? a) && (a <? length m)) eqn:E; simpl; [|reflexivity].
  rewrite nth_upd.
  apply andb_prop in E as [E _]. apply Nat.eqb_eq in E. subst i.
  reflexivity.
Qed.

Lemma square_mset (n : nat) (m : matrix) (a b : nat) (v : Z) :
  square n m -> square n (mset m a b v).
Proof.
  intros [Hl Hr]. split.
  - unfold mset. now rewrite upd_length.
  - intros i Hi. unfold mset. rewrite nth_upd.
    destruct ((i =? a) && (a <? length m)) eqn:E.
    + rewrite upd_length. apply andb_prop in E as [E _].
      apply Nat.eqb_eq in E. subst. now apply Hr.
    + now apply Hr.
Qed.

Lemma squareb_square (n : nat) (m : matrix) :
  squareb n m = true -> square n m.
Proof.
  unfold squareb, square. intros H. apply andb_prop in H as [H1 H2].
  apply Nat.eqb_eq in H1. split; [exact H1|].
  intros i Hi. rewrite forallb_forall in H2.
  apply Nat.eqb_eq, H2, nth_In. lia.
Qed.

Lemma mget_mset_in (n : nat) (m : matrix) (a b i j : nat) (v : Z) :
  square n m -> a < n -> b < n ->
  mget (mset m a b v) i j =
  if (i =? a) && (j =? b) then v else mget m i j.
Proof.
  intros [Hl Hr] Ha Hb. rewrite mget_mset, Hl, (Hr a Ha).
  replace (a <? n) with true by (symmetry; now apply Nat.ltb_lt).
  replace (b <? n) with true by (symmetry; now apply Nat.ltb_lt).
  now rewrite !andb_true_r.
Qed.

Lemma in_range_lt (n k : nat) : In k (range n) <-> k < n.
Proof. unfold range. rewrite in_seq. lia. Qed.

End ArrayFacts.

Import ArrayFacts.

(** ** The generation loops *)

Module GenerationFacts.

Section OneMatrix.

Variables (N : nat) (M : Z) (dummy : matrix).

Lemma zero_diagonal_split (ks : list nat) (l u : matrix) :
  fold_left (fun '(l', u') i => (mset l' i i 0%Z, mset u' i i 0%Z)) ks (l, u)
  = (zero1 l ks, zero1 u ks).
Proof.
  revert l u; induction ks as [|k ks IH]; intros l u; simpl; [reflexivity|].
  apply IH.
Qed.

Lemma delete_row_split (i : nat) (js : list nat) (l u : matrix) :
  fold_left (delete_cell M dummy i) js (l, u)
  = (del_row1 M dummy js l i, del_row1 M dummy js u i).
Proof.
  revert l u; induction js as [|j js IH]; intros l u; simpl; [reflexivity|].
  unfold del_row1. simpl. unfold del_cell1 at 2 4.
  destruct (deleted (mget dummy i j)); apply IH.
Qed.

Lemma delete_arcs_split (ks : list nat) (l u : matrix) :
  fold_left (delete_row N M dummy) ks (l, u)
  = (del1 M dummy (range N) l ks, del1 M dummy (range N) u ks).
Proof.
  revert l u; induction ks as [|k ks IH]; intros l u; simpl; [reflexivity|].
  unfold delete_row at 2. rewrite delete_row_split. apply IH.
Qed.

Lemma generate_split (l0 u0 : matrix) :
  generate N M dummy l0 u0
  = (del1 M dummy (range N) (zero1 l0 (range N)) (range N),
     del1 M dummy (range N) (zero1 u0 (range N)) (range N)).
Proof.
  unfold generate, zero_diagonal, delete_arcs.
  rewrite zero_diagonal_split. apply delete_arcs_split.
Qed.

Lemma zero1_spec (ks : list nat) (m : matrix) :
  square N m -> Forall (fun k => k < N) ks ->
  square N (zero1 m ks) /\
  forall i j, mget (zero1 m ks) i j =
              if (i =? j) && existsb (Nat.eqb i) ks then 0%Z else mget m i j.
Proof.
  revert m; induction ks as [|k ks IH]; intros m Hm Hks.
  - split; [exact Hm|]. intros. simpl. now rewrite andb_false_r.
  - inversion Hks as [|? ? Hk Hks']; subst. simpl.
    destruct (IH (mset m k k 0%Z)) as [Hsq Hget];
      [now apply square_mset | exact Hks' |].
    split; [exact Hsq|]. intros i j. rewrite Hget.
    rewrite (mget_mset_in N m k k i j 0%Z Hm Hk Hk).
    destruct (Nat.eqb_spec i j), (Nat.eqb_spec i k),
      (existsb (Nat.eqb i) ks); simpl; try reflexivity;
      destruct (Nat.eqb_spec j k); try reflexivity; lia.
Qed.

Lemma del_row1_spec (i : nat) (js : list nat) (m : matrix) :
  square N m -> i < N -> Forall (fun k => k < N) js ->
  square N (del_row1 M dummy js m i) /\
  forall a b, mget (del_row1 M dummy js m i) a b =
              if (a =? i) && existsb (Nat.eqb b) js
                 && deleted (mget dummy i b)
              then M else mget m a b.
Proof.
  intros Hm Hi. revert m Hm; induction js as [|j js IH]; intros m Hm Hjs.
  - split; [exact Hm|]. intros. simpl. now rewrite andb_false_r.
  - inversion Hjs as [|? ? Hj Hjs']; subst. unfold del_row1. simpl.
    fold (del_row1 M dummy js (del_cell1 M dummy i m j) i).
    assert (Hsq : square N (del_cell1 M dummy i m j)).
    { unfold del_cell1. destruct (deleted _); [now apply square_mset|exact Hm]. }
    destruct (IH _ Hsq Hjs') as [Hsq' Hget].
    split; [exact Hsq'|]. intros a b. rewrite Hget.
    unfold del_cell1.
    destruct (Nat.eqb_spec a i) as [->|Hai]; simpl.
    + destruct (Nat.eqb_spec b j) as [->|Hbj]; simpl.
      * destruct (deleted (mget dummy i j)) eqn:D.
        -- rewrite andb_true_r.
           destruct (existsb (Nat.eqb j) js); [reflexivity|].
           rewrite (mget_mset_in N m i j i j M Hm Hi Hj), !Nat.eqb_refl. reflexivity.
        -- now rewrite andb_false_r.
      * destruct (existsb (Nat.eqb b) js && deleted (mget dummy i b));
          [reflexivity|].
        destruct (deleted (mget dummy i j)); [|reflexivity].
        rewrite (mget_mset_in N m i j i b M Hm Hi Hj).
        destruct (Nat.eqb_spec b j); [lia|]. now rewrite andb_false_r.
    + destruct (deleted (mget dummy i j)); [|reflexivity].
      rewrite (mget_mset_in N m i j a b M Hm Hi Hj).
      destruct (Nat.eqb_spec a i); [lia|]. reflexivity.
Qed.

Lemma del1_spec (js ks : list nat) (m : matrix) :
  square N m -> Forall (fun k => k < N) js -> Forall (fun k => k < N) ks ->
  square N (del1 M dummy js m ks) /\
  forall a b, mget (del1 M dummy js m ks) a b =
              if existsb (Nat.eqb a) ks && existsb (Nat.eqb b) js
                 && deleted (mget dummy a b)
              then M else mget m a b.
Proof.
  intros Hm Hjs. revert m Hm; induction ks as [|k ks IH]; intros m Hm Hks.
  - split; [exact Hm|]. intros. reflexivity.
  - inversion Hks as [|? ? Hk Hks']; subst. unfold del1. simpl.
    fold (del1 M dummy js (del_row1 M dummy js m k) ks).
    destruct (del_row1_spec k js m Hm Hk Hjs) as [Hsq Hrow].
    destruct (IH _ Hsq Hks') as [Hsq' Hget].
    split; [exact Hsq'|]. intros a b. rewrite Hget, Hrow.
    destruct (Nat.eqb_spec a k) as [->|Hak]; simpl.
    + destruct (existsb (Nat.eqb k) ks); simpl;
        destruct (existsb (Nat.eqb b) js && deleted (mget dummy k b));
        reflexivity.
    + reflexivity.
Qed.

Lemma existsb_range (n i : nat) : i < n -> existsb (Nat.eqb i) (range n) = true.
Proof.
  intros Hi. apply existsb_exists. exists i. split.
  - now apply in_range_lt.
  - apply Nat.eqb_refl.
Qed.

Lemma range_lt (n : nat) : Forall (fun k => k < n) (range n).
Proof. apply Forall_forall. intros k. apply in_range_lt. Qed.

(** Every cell of the generated arrays, in one formula. *)
Lemma generate1_spec (m : matrix) (i j : nat) :
  square N m -> i < N -> j < N ->
  mget (del1 M dummy (range N) (zero1 m (range N)) (range N)) i j =
  if deleted (mget dummy i j) then M
  else if i =? j then 0%Z else mget m i j.
Proof.
  intros Hm Hi Hj.
  destruct (zero1_spec (range N) m Hm (range_lt N)) as [Hsq Hz].
  destruct (del1_spec (range N) (range N) _ Hsq (range_lt N) (range_lt N)) as [_ Hd].
  rewrite Hd, Hz, !existsb_range by assumption. simpl.
  now rewrite andb_true_r.
Qed.

(** What the two loops leave on the diagonal: 0 where the draw is zero,
    the sentinel where it is not. *)
Lemma generate_diagonal (l0 u0 : matrix) (i : nat) :
  square N l0 -> square N u0 -> i < N ->
  mget (fst (generate N M dummy l0 u0)) i i
  = (if deleted (mget dummy i i) then M else 0%Z) /\
  mget (snd (generate N M dummy l0 u0)) i i
  = (if deleted (mget dummy i i) then M else 0%Z).
Proof.
  intros Hl Hu Hi. rewrite generate_split. cbn [fst snd].
  rewrite !generate1_spec, Nat.eqb_refl by assumption. auto.
Qed.


End OneMatrix.

End GenerationFacts.

Import GenerationFacts.

(** ** Sums *)

Module SumFacts.

Lemma IZR_sumZ (A : Type) (f : A -> Z) (xs : list A) :
  IZR (sumZ f xs) = sumR (fun a => IZR (f a)) xs.
Proof.
  induction xs as [|x xs IH]; simpl; [reflexivity|].
  now rewrite plus_IZR, IH.
Qed.

Lemma sumR_ext (A : Type) (f g : A -> R) (xs : list A) :
  (forall a, In a xs -> f a = g a) -> sumR f xs = sumR g xs.
Proof.
  induction xs as [|x xs IH]; intros H; simpl; [reflexivity|].
  rewrite (H x (or_introl eq_refl)), IH; [reflexivity|].
  intros a Ha. apply H. now right.
Qed.

Lemma sumR_app (A : Type) (f : A -> R) (xs ys : list A) :
  sumR f (xs ++ ys) = (sumR f xs + sumR f ys)%R.
Proof.
  induction xs as [|x xs IH]; simpl; [lra|]. rewrite IH. lra.
Qed.

Lemma sumR_map (A B : Type) (g : A -> B) (f : B -> R) (xs : list A) :
  sumR f (map g xs) = sumR (fun a => f (g a)) xs.
Proof.
  induction xs as [|x xs IH]; simpl; [reflexivity|]. now rewrite IH.
Qed.

Lemma sumR_flat_map (A B : Type) (g : A -> list B) (f : B -> R)
      (xs : list A) :
  sumR f (flat_map g xs) = sumR (fun a => sumR f (g a)) xs.
Proof.
  induction xs as [|x xs IH]; simpl; [reflexivity|].
  now rewrite sumR_app, IH.
Qed.

Lemma sumZ_ext (A : Type) (f g : A -> Z) (xs : list A) :
  (forall a, In a xs -> f a = g a) -> sumZ f xs = sumZ g xs.
Proof.
  induction xs as [|x xs IH]; intros H; simpl; [reflexivity|].
  rewrite (H x (or_introl eq_refl)), IH; [reflexivity|].
  intros a Ha. apply H. now right.
Qed.

Lemma sumZ_app (A : Type) (f : A -> Z) (xs ys : list A) :
  sumZ f (xs ++ ys) = (sumZ f xs + sumZ f ys)%Z.
Proof.
  induction xs as [|x xs IH]; simpl; [reflexivity|]. rewrite IH. lia.
Qed.

Lemma sumZ_map (A B : Type) (g : A -> B) (f : B -> Z) (xs : list A) :
  sumZ f (map g xs) = sumZ (fun a => f (g a)) xs.
Proof.
  induction xs as [|x xs IH]; simpl; [reflexivity|]. now rewrite IH.
Qed.

Lemma sumZ_flat_map (A B : Type) (g : A -> list B) (f : B -> Z)
      (xs : list A) :
  sumZ f (flat_map g xs) = sumZ (fun a => sumZ f (g a)) xs.
Proof.
  induction xs as [|x xs IH]; simpl; [reflexivity|].
  now rewrite sumZ_app, IH.
Qed.

Lemma sumZ_nonneg (A : Type) (f : A -> Z) (xs : list A) :
  (forall a, In a xs -> (0 <= f a)%Z) -> (0 <= sumZ f xs)%Z.
Proof.
  induction xs as [|x xs IH]; intros H; simpl; [lia|].
  assert (0 <= f x)%Z by (apply H; now left).
  assert (0 <= sumZ f xs)%Z by (apply IH; intros; apply H; now right).
  lia.
Qed.

Lemma sumZ_le (A : Type) (f g : A -> Z) (xs : list A) :
  (forall a, In a xs -> (f a <= g a)%Z) -> (sumZ f xs <= sumZ g xs)%Z.
Proof.
  induction xs as [|x xs IH]; intros H; simpl; [lia|].
  assert (f x <= g x)%Z by (apply H; now left).
  assert (sumZ f xs <= sumZ g xs)%Z by (apply IH; intros; apply H; now right).
  lia.
Qed.

(** One term of a sum of non-negative terms is at most the sum. *)
Lemma sumZ_term (A : Type) (f : A -> Z) (xs : list A) (a : A) :
  (forall b, In b xs -> (0 <= f b)%Z) -> In a xs -> (f a <= sumZ f xs)%Z.
Proof.
  induction xs as [|x xs IH]; intros H Ha; simpl; [destruct Ha|].
  assert (0 <= f x)%Z by (apply H; now left).
  assert (0 <= sumZ f xs)%Z by (apply sumZ_nonneg; intros; apply H; now right).
  destruct Ha as [->|Ha]; [lia|].
  assert (f a <= sumZ f xs)%Z by (apply IH; [intros; apply H; now right|exact Ha]).
  lia.
Qed.

Lemma sumZ_plus (A : Type) (f g : A -> Z) (xs : list A) :
  sumZ (fun a => (f a + g a)%Z) xs = (sumZ f xs + sumZ g xs)%Z.
Proof.
  induction xs as [|x xs IH]; simpl; [reflexivity|]. rewrite IH. lia.
Qed.

Lemma sumZ_minus (A : Type) (f g : A -> Z) (xs : list A) :
  sumZ (fun a => (f a - g a)%Z) xs = (sumZ f xs - sumZ g xs)%Z.
Proof.
  induction xs as [|x xs IH]; simpl; [reflexivity|]. rewrite IH. lia.
Qed.

Lemma sumZ_zero (A : Type) (xs : list A) : sumZ (fun _ => 0%Z) xs = 0%Z.
Proof. induction xs as [|x xs IH]; simpl; [reflexivity|]. now rewrite IH. Qed.

Lemma b2r_b2z (b : bool) : b2r b = IZR (b2z b).
Proof. now destruct b. Qed.

Lemma b2z_range (b : bool) : (0 <= b2z b <= 1)%Z.
Proof. destruct b; simpl; lia. Qed.

End SumFacts.

Import SumFacts.

(** ** The model, constraint by constraint *)

Module ModelFacts.

Section Cells.

Variables (N : nat) (l u : matrix) (s t : nat).

Lemma in_pairs (i j : nat) : In (i, j) (pairs N) <-> i < N /\ j < N.
Proof.
  unfold pairs. rewrite in_flat_map. split.
  - intros [a [Ha Hin]]. apply in_map_iff in Hin as [b [Heq Hb]].
    inversion Heq; subst. now rewrite <- !in_range_lt.
  - intros [Hi Hj]. exists i. split; [now apply in_range_lt|].
    apply in_map_iff. exists j. split; [reflexivity|now apply in_range_lt].
Qed.

Lemma length_pairs : length (pairs N) = N * N.
Proof.
  unfold pairs.
  assert (H : forall xs : list nat,
             length (flat_map (fun i => map (fun j => (i, j)) (range N)) xs)
             = length xs * N).
  { induction xs as [|x xs IH]; simpl; [reflexivity|].
    unfold range at 1.
    rewrite length_app, length_map, length_seq, IH. reflexivity. }
  rewrite H. unfold range. now rewrite length_seq.
Qed.

Lemma eval_Sum_map (A : Type) (sol : solution) (f : A -> expr)
      (xs : list A) :
  eval sol (Sum (map f xs)) = sumR (fun a => eval sol (f a)) xs.
Proof.
  simpl. induction xs as [|x xs IH]; simpl; [reflexivity|]. now rewrite IH.
Qed.

Lemma eval_objective (sol : solution) :
  eval sol (objective_expr N u t)
  = (IZR (upper_cost N u (Yval sol)) - Xval sol t)%R.
Proof.
  unfold objective_expr. cbn [eval value]. f_equal.
  change (fold_right _ _ ?es) with (eval sol (Sum es)).
  rewrite eval_Sum_map. unfold upper_cost, pairs.
  rewrite IZR_sumZ, sumR_flat_map.
  apply sumR_ext. intros i _.
  rewrite IZR_sumZ, sumR_map.
  apply sumR_ext. intros j _.
  cbn [eval value fst snd]. now rewrite mult_IZR, b2r_b2z.
Qed.

Lemma eval_flux (sol : solution) (j : nat) :
  eval sol (flux N j) = IZR (net_outflow N (Yval sol) j).
Proof.
  unfold flux, net_outflow. cbn [eval].
  change (fold_right _ _ ?es) with (eval sol (Sum es)) at 1.
  change (fold_right _ _ ?es) with (eval sol (Sum es)).
  rewrite !eval_Sum_map, minus_IZR, !IZR_sumZ. cbn [eval value].
  f_equal; apply sumR_ext; intros; apply b2r_b2z.
Qed.

Lemma holds_distance (sol : solution) (i j : nat) :
  holds sol (distance_constraint l u (i, j)) <->
  (Xval sol j <= Xval sol i + IZR (mget l i j)
                 + IZR (mget u i j - mget l i j) * b2r (Yval sol i j))%R.
Proof. reflexivity. Qed.

(** The right-hand side of a distance constraint is the tail's label plus
    the effective cost of the arc. *)
Lemma distance_rhs (yv : scenario) (i j : nat) :
  (IZR (mget l i j) + IZR (mget u i j - mget l i j) * b2r (yv i j))%R
  = IZR (effective_cost l u yv i j).
Proof.
  unfold effective_cost. rewrite minus_IZR.
  destruct (yv i j); simpl; lra.
Qed.

Lemma holds_flux_eq (sol : solution) (j : nat) (k : Z) :
  holds sol (Eq (flux N j) (Const k)) <-> net_outflow N (Yval sol) j = k.
Proof.
  cbn [holds]. rewrite eval_flux. cbn [eval]. split.
  - apply eq_IZR.
  - now intros ->.
Qed.

Lemma in_intermediate (j : nat) :
  In j (intermediate N s t) <-> j < N /\ j <> s /\ j <> t.
Proof.
  unfold intermediate. rewrite filter_In, in_range_lt, andb_true_iff,
    !negb_true_iff, !Nat.eqb_neq. tauto.
Qed.

Lemma holds_flux_constraints (sol : solution) :
  Forall (holds sol) (flux_constraints N s t) <-> conserves N s t (Yval sol).
Proof.
  unfold flux_constraints, conserves.
  rewrite !Forall_cons_iff, Forall_map, Forall_forall, !holds_flux_eq.
  split.
  - intros (Hs & Ht & Hm). repeat split; try assumption.
    intros j Hj Hjs Hjt. apply holds_flux_eq, Hm, in_intermediate. tauto.
  - intros (Hs & Ht & Hm). repeat split; try assumption.
    intros j Hj. apply in_intermediate in Hj as (Hj & Hjs & Hjt).
    apply holds_flux_eq. now apply Hm.
Qed.

Lemma build_model_some (m : Model) :
  build_model N l u s t = Some m ->
  s < N /\ t < N /\
  m = mkModel (declared_variables N) (objective_expr N u t)
              (source_constraint s
                 :: distance_constraints N l u ++ flux_constraints N s t).
Proof.
  unfold build_model.
  destruct (s <? N) eqn:Hs; destruct (t <? N) eqn:Ht; simpl; try discriminate.
  intros H. inversion H. apply Nat.ltb_lt in Hs, Ht. auto.
Qed.

Lemma build_model_in_range :
  s < N -> t < N ->
  build_model N l u s t
  = Some (mkModel (declared_variables N) (objective_expr N u t)
            (source_constraint s
               :: distance_constraints N l u ++ flux_constraints N s t)).
Proof.
  intros Hs Ht. unfold build_model.
  apply Nat.ltb_lt in Hs, Ht. now rewrite Hs, Ht.
Qed.

Lemma in_domain_declared (sol : solution) :
  Forall (in_domain sol) (declared_variables N) <->
  forall j, j < N -> (0 <= Xval sol j)%R.
Proof.
  unfold declared_variables. rewrite Forall_app, !Forall_map, !Forall_forall.
  split.
  - intros [_ H] j Hj. apply (H j). now apply in_range_lt.
  - intros H. split.
    + intros ij _. exact I.
    + intros j Hj. apply in_range_lt in Hj. now apply H.
Qed.

Lemma feasible_iff (m : Model) (sol : solution) :
  build_model N l u s t = Some m ->
  (feasible m sol <-> admissible N l u s t sol).
Proof.
  intros Hb. apply build_model_some in Hb as (Hs & Ht & ->).
  unfold feasible, admissible. cbn [variables constraints].
  rewrite in_domain_declared, Forall_cons_iff, Forall_app,
    holds_flux_constraints.
  unfold distance_constraints. rewrite Forall_map, Forall_forall.
  cbn [holds source_constraint eval value].
  split.
  - intros (Hd & Hs0 & Hdist & Hflow).
    split; [exact Hd|]. split; [exact Hs0|]. split; [|exact Hflow].
    intros i j Hi Hj. rewrite <- distance_rhs.
    pose proof (proj1 (holds_distance sol i j)
                  (Hdist (i, j) (proj2 (in_pairs i j) (conj Hi Hj)))) as H.
    lra.
  - intros (Hd & Hs0 & Hdist & Hflow).
    split; [exact Hd|]. split; [exact Hs0|]. split; [|exact Hflow].
    intros [i j] Hij. apply in_pairs in Hij as [Hi Hj].
    apply holds_distance. specialize (Hdist i j Hi Hj).
    rewrite <- distance_rhs in Hdist. lra.
Qed.

Lemma objective_value_eq (m : Model) (sol : solution) :
  build_model N l u s t = Some m ->
  objective_value m sol = (IZR (upper_cost N u (Yval sol)) - Xval sol t)%R.
Proof.
  intros Hb. apply build_model_some in Hb as (_ & _ & ->).
  apply eval_objective.
Qed.

End Cells.

End ModelFacts.

Import ModelFacts.

(** ** Bellman-Ford computes shortest walks *)

Module ShortestPathFacts.

Lemma ole_refl (a : option Z) : ole a a.
Proof. destruct a; simpl; [lia|exact I]. Qed.

Lemma ole_trans (a b c : option Z) : ole a b -> ole b c -> ole a c.
Proof. destruct a, b, c; simpl; try tauto; lia. Qed.

Lemma omin_le_l (a b : option Z) : ole (omin a b) a.
Proof. destruct a, b; simpl; try lia; exact I. Qed.

Lemma omin_le_r (a b : option Z) : ole (omin a b) b.
Proof. destruct a, b; simpl; try lia; exact I. Qed.

Lemma omin_cases (a b : option Z) : omin a b = a \/ omin a b = b.
Proof.
  destruct a as [x|], b as [y|]; simpl; auto.
  destruct (Z.min_spec x y) as [[_ ->]|[_ ->]]; auto.
Qed.

(** The result of a fold of [omin] is below the start and every
    candidate, and it is one of them. *)
Lemma fold_omin (A : Type) (g : A -> option Z) (xs : list A)
      (init : option Z) :
  let r := fold_left (fun best i => omin best (g i)) xs init in
  ole r init /\ (forall i, In i xs -> ole r (g i)) /\
  (r = init \/ exists i, In i xs /\ r = g i).
Proof.
  revert init; induction xs as [|x xs IH]; intros init; simpl.
  - split; [apply ole_refl|]. split; [intros i []|now left].
  - destruct (IH (omin init (g x))) as (H1 & H2 & H3). split; [|split].
    + eapply ole_trans; [exact H1|apply omin_le_l].
    + intros i [<-|Hi]; [|now apply H2].
      eapply ole_trans; [exact H1|apply omin_le_r].
    + destruct H3 as [H3|[i [Hi H3]]].
      * rewrite H3.
        destruct (omin_cases init (g x)) as [E|E].
        -- now left.
        -- right. exists x. auto.
      * right. exists i. auto.
Qed.

Lemma nth_map_range (A : Type) (f : nat -> A) (n j : nat) (d : A) :
  j < n -> nth j (map f (range n)) d = f j.
Proof.
  intros Hj. unfold range.
  rewrite (nth_indep _ d (f 0)) by (now rewrite length_map, length_seq).
  rewrite map_nth, seq_nth by assumption. reflexivity.
Qed.

Lemma last_arc_cases (w : list nat) :
  w = [] \/ exists w0 j, w = w0 ++ [j].
Proof.
  induction w as [|j w0 _] using rev_ind; [now left|].
  right. now exists w0, j.
Qed.

Lemma last_cons (p : list nat) (a b : nat) : last (b :: p) a = last p b.
Proof.
  revert a b; induction p as [|x p IH]; intros a b; [reflexivity|].
  change (last (b :: x :: p) a) with (last (x :: p) a).
  now rewrite (IH a x), (IH b x).
Qed.

Section BellmanFord.

Variables (N : nat) (c : nat -> nat -> Z) (s : nat).

Hypothesis c_nonneg : forall i j, i < N -> j < N -> (0 <= c i j)%Z.
Hypothesis s_node : s < N.

Lemma walk_cost_app (a : nat) (p q : list nat) :
  walk_cost c a (p ++ q)
  = (walk_cost c a p + walk_cost c (walk_end a p) q)%Z.
Proof.
  revert a; induction p as [|b p IH]; intros a.
  - simpl. reflexivity.
  - change (walk_end a (b :: p)) with (last (b :: p) a).
    simpl app. cbn [walk_cost]. rewrite IH. unfold walk_end.
    rewrite last_cons. lia.
Qed.

Lemma walk_end_app (a : nat) (p : list nat) (b : nat) :
  walk_end a (p ++ [b]) = b.
Proof. unfold walk_end. apply last_last. Qed.

Lemma walk_end_cons (a b : nat) (w : list nat) :
  walk_end a (b :: w) = walk_end b w.
Proof.
  unfold walk_end. apply last_cons.
Qed.

Lemma walk_end_concat (a : nat) (p q : list nat) :
  walk_end a (p ++ q) = walk_end (walk_end a p) q.
Proof.
  revert a; induction p as [|b p IH]; intros a; [reflexivity|].
  simpl app. now rewrite !walk_end_cons.
Qed.

Lemma walk_end_range (a : nat) (w : list nat) :
  a < N -> in_range N w -> walk_end a w < N.
Proof.
  revert a; induction w as [|b w IH]; intros a Ha Hw.
  - exact Ha.
  - rewrite walk_end_cons. inversion Hw; subst. now apply IH.
Qed.

Lemma walk_cost_nonneg (a : nat) (w : list nat) :
  a < N -> in_range N w -> (0 <= walk_cost c a w)%Z.
Proof.
  revert a; induction w as [|b w IH]; intros a Ha Hw; simpl; [lia|].
  inversion Hw; subst.
  pose proof (c_nonneg a b Ha ltac:(assumption)).
  pose proof (IH b ltac:(assumption) ltac:(assumption)). lia.
Qed.

Lemma passes_length (k : nat) : length (passes N c s k) = N.
Proof.
  destruct k; simpl; unfold initial_distances, relax_pass, range;
    now rewrite length_map, length_seq.
Qed.

Lemma passes_succ (k j : nat) :
  j < N ->
  nth j (passes N c s (S k)) None = relax_node N c (passes N c s k) j.
Proof. intros Hj. simpl. unfold relax_pass. now apply nth_map_range. Qed.

Lemma passes_zero (j : nat) :
  j < N ->
  nth j (passes N c s 0) None = if j =? s then Some 0%Z else None.
Proof.
  intros Hj. simpl. unfold initial_distances. now rewrite nth_map_range.
Qed.

Lemma relax_node_spec (d : list (option Z)) (j : nat) :
  ole (relax_node N c d j) (nth j d None) /\
  (forall i, i < N ->
     ole (relax_node N c d j) (oplus (nth i d None) (c i j))) /\
  (relax_node N c d j = nth j d None \/
   exists i, i < N /\ relax_node N c d j = oplus (nth i d None) (c i j)).
Proof.
  unfold relax_node.
  destruct (fold_omin nat (fun i => oplus (nth i d None) (c i j))
                      (range N) (nth j d None)) as (H1 & H2 & H3).
  split; [exact H1|]. split.
  - intros i Hi. apply H2. now apply in_range_lt.
  - destruct H3 as [H3|[i [Hi H3]]]; [now left|].
    right. exists i. split; [now apply in_range_lt|exact H3].
Qed.

(** Every label is the cost of a walk from the source. *)
Lemma label_attained (k j : nat) (v : Z) :
  j < N -> nth j (passes N c s k) None = Some v ->
  exists w, in_range N w /\ walk_end s w = j /\ walk_cost c s w = v.
Proof.
  revert j v; induction k as [|k IH]; intros j v Hj Hv.
  - rewrite passes_zero in Hv by assumption.
    destruct (Nat.eqb_spec j s) as [->|]; [|discriminate].
    inversion Hv; subst. exists []. repeat split. constructor.
  - rewrite passes_succ in Hv by assumption.
    destruct (relax_node_spec (passes N c s k) j)
      as (_ & _ & [E|[i [Hi E]]]); rewrite Hv in E; symmetry in E.
    + now apply IH.
    + destruct (nth i (passes N c s k) None) as [vi|] eqn:Ei;
        [|discriminate].
      simpl in E. inversion E; subst.
      destruct (IH i vi Hi Ei) as (w & Hw & Hend & Hcost).
      exists (w ++ [j]). split; [|split].
      * apply Forall_app. split; [exact Hw|]. now constructor.
      * apply walk_end_app.
      * rewrite walk_cost_app, Hend, Hcost. simpl. lia.
Qed.

(** After [k] passes a label is at most the cost of every walk of at most
    [k] arcs. *)
Lemma label_below_short_walks (k : nat) (w : list nat) :
  in_range N w -> length w <= k ->
  exists v, nth (walk_end s w) (passes N c s k) None = Some v /\
            (v <= walk_cost c s w)%Z.
Proof.
  revert w; induction k as [|k IH]; intros w Hw Hlen.
  - destruct w; [|simpl in Hlen; lia].
    exists 0%Z. unfold walk_end; simpl last.
    rewrite passes_zero, Nat.eqb_refl by assumption. split; [reflexivity|].
    simpl. lia.
  - destruct (last_arc_cases w) as [->|[w0 [j ->]]].
    + destruct (IH [] Hw ltac:(simpl; lia)) as (v & Hv & Hle).
      unfold walk_end in *; simpl last in *.
      pose proof (relax_node_spec (passes N c s k) s) as (Hold & _ & _).
      rewrite <- (passes_succ k s s_node) in Hold. rewrite Hv in Hold.
      destruct (nth s (passes N c s (S k)) None) as [v'|]; [|destruct Hold].
      exists v'. split; [reflexivity|]. simpl in Hold. lia.
    + apply Forall_app in Hw as [Hw0 Hj]. inversion Hj; subst.
      rewrite length_app in Hlen. simpl in Hlen.
      destruct (IH w0 Hw0 ltac:(lia)) as (vi & Hvi & Hle).
      pose proof (walk_end_range s w0 s_node Hw0) as Hi.
      pose proof (relax_node_spec (passes N c s k) j) as (_ & Hall & _).
      specialize (Hall (walk_end s w0) Hi).
      rewrite Hvi in Hall.
      rewrite walk_end_app, walk_cost_app.
      rewrite <- (passes_succ k) in Hall by assumption.
      destruct (nth j (passes N c s (S k)) None) as [v'|]; [|destruct Hall].
      exists v'. split; [reflexivity|]. simpl in Hall. simpl. lia.
Qed.

(** A walk can be shortened to one that repeats no node, at no extra
    cost. *)
Lemma walk_shorten (a : nat) (w : list nat) :
  a < N -> in_range N w ->
  exists w', in_range N w' /\ walk_end a w' = walk_end a w /\
             (walk_cost c a w' <= walk_cost c a w)%Z /\ NoDup (a :: w').
Proof.
  revert a; induction w as [|b w IH]; intros a Ha Hw.
  - exists []. split; [constructor|]. split; [reflexivity|].
    split; [lia|]. constructor; [intros []|constructor].
  - inversion Hw as [|? ? Hb Hw']; subst.
    destruct (IH b Hb Hw') as (w1 & Hw1 & Hend & Hcost & Hnd).
    destruct (in_dec Nat.eq_dec a (b :: w1)) as [Hin|Hnin].
    + apply in_split in Hin as (p & q & Hsplit).
      assert (Hq : in_range N q).
      { assert (H : in_range N (b :: w1)) by (now constructor).
        rewrite Hsplit in H. apply Forall_app in H as [_ H].
        now inversion H. }
      exists q. split; [exact Hq|]. split; [|split].
      * rewrite walk_end_cons, <- Hend.
        destruct p as [|b' p].
        -- simpl in Hsplit. inversion Hsplit; subst. reflexivity.
        -- simpl in Hsplit. inversion Hsplit; subst.
           now rewrite walk_end_concat, walk_end_cons.
      * cbn [walk_cost]. pose proof (c_nonneg a b Ha Hb).
        destruct p as [|b' p].
        -- simpl in Hsplit. inversion Hsplit; subst. lia.
        -- simpl in Hsplit. inversion Hsplit; subst.
           replace (p ++ a :: q) with ((p ++ [a]) ++ q) in Hcost
             by (now rewrite <- app_assoc).
           rewrite walk_cost_app, walk_end_app in Hcost.
           assert (0 <= walk_cost c b' (p ++ [a]))%Z.
           { apply walk_cost_nonneg; [exact Hb|].
             apply Forall_app in Hw1 as [Hp Haq].
             apply Forall_app. split; [exact Hp|]. constructor; [exact Ha|].
             constructor. }
           lia.
      * rewrite Hsplit in Hnd. now apply NoDup_app_remove_l in Hnd.
    + exists (b :: w1). split; [now constructor|]. split; [|split].
      * now rewrite !walk_end_cons.
      * cbn [walk_cost]. lia.
      * now constructor.
Qed.

Lemma simple_walk_length (a : nat) (w : list nat) :
  a < N -> in_range N w -> NoDup (a :: w) -> length w <= N - 1.
Proof.
  intros Ha Hw Hnd.
  assert (H : length (a :: w) <= length (seq 0 N)).
  { apply NoDup_incl_length; [exact Hnd|].
    intros x [<-|Hx]; apply in_seq; [lia|].
    unfold in_range in Hw. rewrite Forall_forall in Hw.
    specialize (Hw x Hx). lia. }
  rewrite length_seq in H. simpl in H. lia.
Qed.

(** The computed distance is below the cost of every walk. *)
Theorem distance_below_walks (w : list nat) :
  in_range N w ->
  exists v, distance N c s (walk_end s w) = Some v /\
            (v <= walk_cost c s w)%Z.
Proof.
  intros Hw.
  destruct (walk_shorten s w s_node Hw) as (w' & Hw' & Hend & Hcost & Hnd).
  pose proof (simple_walk_length s w' s_node Hw' Hnd) as Hlen.
  destruct (label_below_short_walks (N - 1) w' Hw' Hlen) as (v & Hv & Hle).
  exists v. unfold distance, bellman_ford. rewrite <- Hend.
  split; [exact Hv|lia].
Qed.

(** The computed distance is the cost of some walk. *)
Theorem distance_attained (j : nat) (v : Z) :
  j < N -> distance N c s j = Some v ->
  exists w, in_range N w /\ walk_end s w = j /\ walk_cost c s w = v.
Proof. intros Hj Hv. exact (label_attained (N - 1) j v Hj Hv). Qed.

Lemma distance_defined (j : nat) :
  j < N -> exists v, distance N c s j = Some v /\ (0 <= v)%Z.
Proof.
  intros Hj.
  assert (Hw : in_range N [j]) by (constructor; [exact Hj|constructor]).
  destruct (distance_below_walks _ Hw) as (v & Hv & _).
  change (walk_end s [j]) with j in Hv.
  exists v. split; [exact Hv|].
  destruct (distance_attained j v Hj Hv) as (w & Hw' & _ & <-).
  now apply walk_cost_nonneg.
Qed.

Lemma distance_source : distance N c s s = Some 0%Z.
Proof.
  assert (Hw : in_range N []) by constructor.
  destruct (distance_below_walks _ Hw) as (v & Hv & Hle).
  change (walk_end s []) with s in Hv. simpl in Hle.
  destruct (distance_attained s v s_node Hv) as (w & Hw' & _ & Hc).
  pose proof (walk_cost_nonneg s w s_node Hw').
  rewrite Hv. f_equal. lia.
Qed.

Lemma distance_triangle (i j : nat) (vi : Z) :
  i < N -> j < N -> distance N c s i = Some vi ->
  exists vj, distance N c s j = Some vj /\ (vj <= vi + c i j)%Z.
Proof.
  intros Hi Hj Hvi.
  destruct (distance_attained i vi Hi Hvi) as (w & Hw & Hend & Hcost).
  assert (Hw' : in_range N (w ++ [j])).
  { apply Forall_app. split; [exact Hw|]. constructor; [exact Hj|constructor]. }
  destruct (distance_below_walks _ Hw') as (vj & Hvj & Hle).
  rewrite walk_end_app in Hvj. rewrite walk_cost_app, Hend, Hcost in Hle.
  exists vj. split; [exact Hvj|]. simpl in Hle. lia.
Qed.

End BellmanFord.

End ShortestPathFacts.

Import ShortestPathFacts.

(** ** Feasible labels and shortest distances *)

Module DistanceFacts.

Section Scenario.

Variables (N : nat) (l u : matrix) (s t : nat).

Hypothesis l_nonneg : forall i j, i < N -> j < N -> (0 <= mget l i j)%Z.
Hypothesis u_nonneg : forall i j, i < N -> j < N -> (0 <= mget u i j)%Z.
Hypothesis s_node : s < N.
Hypothesis t_node : t < N.

Lemma effective_cost_nonneg (yv : scenario) (i j : nat) :
  i < N -> j < N -> (0 <= effective_cost l u yv i j)%Z.
Proof.
  intros Hi Hj. unfold effective_cost. destruct (yv i j); auto.
Qed.

(** A feasible label never exceeds the label of an earlier node plus the
    cost of the walk between them. *)
Lemma label_along_walk (sol : solution) (a : nat) (w : list nat) :
  admissible N l u s t sol -> a < N -> in_range N w ->
  (Xval sol (walk_end a w)
   <= Xval sol a + IZR (walk_cost (effective_cost l u (Yval sol)) a w))%R.
Proof.
  intros (_ & _ & Hdist & _). revert a.
  induction w as [|b w IH]; intros a Ha Hw.
  - unfold walk_end. simpl. lra.
  - inversion Hw as [|? ? Hb Hw']; subst.
    rewrite walk_end_cons. cbn [walk_cost]. rewrite plus_IZR.
    specialize (IH b Hb Hw'). specialize (Hdist a b Ha Hb). lra.
Qed.

Lemma label_below_walk (sol : solution) (w : list nat) :
  admissible N l u s t sol -> in_range N w ->
  (Xval sol (walk_end s w)
   <= IZR (walk_cost (effective_cost l u (Yval sol)) s w))%R.
Proof.
  intros Hadm Hw.
  pose proof (label_along_walk sol s w Hadm s_node Hw) as H.
  destruct Hadm as (_ & Hs & _). lra.
Qed.

(** A feasible label is at most the shortest distance. *)
Lemma label_below_distance (sol : solution) (j : nat) :
  admissible N l u s t sol -> j < N ->
  exists v, distance N (effective_cost l u (Yval sol)) s j = Some v /\
            (Xval sol j <= IZR v)%R.
Proof.
  intros Hadm Hj.
  destruct (distance_defined N _ s (effective_cost_nonneg (Yval sol))
                             s_node j Hj) as (v & Hv & _).
  exists v. split; [exact Hv|].
  destruct (distance_attained N _ s s_node j v Hj Hv) as (w & Hw & <- & <-).
  now apply label_below_walk.
Qed.

(** The shortest distances themselves are feasible labels. *)
Lemma potentials_admissible (yv : scenario) :
  conserves N s t yv ->
  admissible N l u s t
    (mkSolution yv (potentials N (effective_cost l u yv) s)).
Proof.
  intros Hflow. unfold admissible. cbn [Xval Yval].
  pose proof (effective_cost_nonneg yv) as Hc.
  split; [|split; [|split; [|exact Hflow]]].
  - intros j Hj. unfold potentials.
    destruct (distance_defined N _ s Hc s_node j Hj) as (v & -> & Hv).
    now apply IZR_le.
  - unfold potentials. now rewrite (distance_source N _ s Hc s_node).
  - intros i j Hi Hj. unfold potentials.
    destruct (distance_defined N _ s Hc s_node i Hi) as (vi & Hvi & _).
    destruct (distance_triangle N _ s Hc s_node i j vi Hi Hj Hvi)
      as (vj & Hvj & Hle).
    rewrite Hvi, Hvj, <- plus_IZR. now apply IZR_le.
Qed.

(** The regret of a scenario: its cost at the upper bounds minus the
    shortest distance to the destination under its own costs. *)
Lemma regret_defined (yv : scenario) :
  exists v, distance N (effective_cost l u yv) s t = Some v /\ (0 <= v)%Z.
Proof.
  exact (distance_defined N _ s (effective_cost_nonneg yv) s_node t t_node).
Qed.

Section Built.

Variable m : Model.
Hypothesis built : build_model N l u s t = Some m.

Lemma potentials_feasible (yv : scenario) :
  conserves N s t yv ->
  feasible m (mkSolution yv (potentials N (effective_cost l u yv) s)).
Proof.
  intros Hflow. apply (feasible_iff N l u s t m _ built).
  now apply potentials_admissible.
Qed.

Lemma feasible_label_below_distance (sol : solution) (j : nat) :
  feasible m sol -> j < N ->
  exists v, distance N (effective_cost l u (Yval sol)) s j = Some v /\
            (Xval sol j <= IZR v)%R.
Proof.
  intros Hf Hj. apply label_below_distance; [|exact Hj].
  now apply (feasible_iff N l u s t m sol built).
Qed.

(** At an optimum the label of the destination is the shortest
    distance. *)
Lemma optimal_label_at_destination (sol : solution) :
  optimal m sol ->
  exists v, distance N (effective_cost l u (Yval sol)) s t = Some v /\
            Xval sol t = IZR v.
Proof.
  intros [Hf Hopt].
  destruct (feasible_label_below_distance sol t Hf t_node) as (v & Hv & Hle).
  exists v. split; [exact Hv|].
  assert (Hflow : conserves N s t (Yval sol)).
  { apply (feasible_iff N l u s t m sol built) in Hf. apply Hf. }
  specialize (Hopt _ (potentials_feasible (Yval sol) Hflow)).
  rewrite !(objective_value_eq N l u s t m _ built) in Hopt.
  cbn [Xval Yval] in Hopt. unfold potentials in Hopt. rewrite Hv in Hopt.
  lra.
Qed.

End Built.

End Scenario.

End DistanceFacts.

Import DistanceFacts.

(** ** Scenarios: changing one arc, and the best scenario *)

Module ScenarioFacts.

Lemma sumZ_point_list (f g : nat -> Z) (xs : list nat) (i : nat) :
  NoDup xs -> In i xs ->
  (forall k, In k xs -> k <> i -> f k = g k) ->
  sumZ f xs = (sumZ g xs + (f i - g i))%Z.
Proof.
  induction xs as [|x xs IH]; intros Hnd Hin Heq; [destruct Hin|].
  inversion Hnd as [|? ? Hx Hnd']; subst. simpl.
  destruct Hin as [->|Hin].
  - rewrite (sumZ_ext nat f g xs); [lia|].
    intros k Hk. apply Heq; [now right|]. intros ->. contradiction.
  - rewrite IH; [|assumption|assumption|intros; apply Heq; [now right|assumption]].
    rewrite (Heq x); [lia|now left|]. intros ->. contradiction.
Qed.

Lemma sumZ_point (f g : nat -> Z) (n i : nat) :
  i < n -> (forall k, k < n -> k <> i -> f k = g k) ->
  sumZ f (range n) = (sumZ g (range n) + (f i - g i))%Z.
Proof.
  intros Hi Heq. apply sumZ_point_list.
  - apply seq_NoDup.
  - now apply in_range_lt.
  - intros k Hk. apply Heq. now apply in_range_lt.
Qed.

Section Arcs.

Variables (N : nat) (u : matrix).

Lemma set_arc_same (yv : scenario) (a b : nat) (v : bool) :
  set_arc yv a b v a b = v.
Proof. unfold set_arc. now rewrite !Nat.eqb_refl. Qed.

Lemma set_arc_other (yv : scenario) (a b i j : nat) (v : bool) :
  (i <> a \/ j <> b) -> set_arc yv a b v i j = yv i j.
Proof.
  intros H. unfold set_arc.
  destruct (Nat.eqb_spec i a), (Nat.eqb_spec j b); simpl; try reflexivity.
  lia.
Qed.

Lemma out_set_arc (yv : scenario) (a b x : nat) (v : bool) :
  a < N -> b < N ->
  sumZ (fun k => b2z (set_arc yv a b v x k)) (range N)
  = (sumZ (fun k => b2z (yv x k)) (range N)
     + if (x =? a)%nat then delta yv a b v else 0)%Z.
Proof.
  intros Ha Hb. destruct (Nat.eqb_spec x a) as [->|Hx].
  - rewrite (sumZ_point (fun k => b2z (set_arc yv a b v a k))
                        (fun k => b2z (yv a k)) N b Hb).
    + now rewrite set_arc_same.
    + intros k _ Hk. rewrite set_arc_other; auto.
  - rewrite Z.add_0_r. apply sumZ_ext. intros k _.
    rewrite set_arc_other; auto.
Qed.

Lemma in_set_arc (yv : scenario) (a b x : nat) (v : bool) :
  a < N -> b < N ->
  sumZ (fun i => b2z (set_arc yv a b v i x)) (range N)
  = (sumZ (fun i => b2z (yv i x)) (range N)
     + if (x =? b)%nat then delta yv a b v else 0)%Z.
Proof.
  intros Ha Hb. destruct (Nat.eqb_spec x b) as [->|Hx].
  - rewrite (sumZ_point (fun i => b2z (set_arc yv a b v i b))
                        (fun i => b2z (yv i b)) N a Ha).
    + now rewrite set_arc_same.
    + intros k _ Hk. rewrite set_arc_other; auto.
  - rewrite Z.add_0_r. apply sumZ_ext. intros k _.
    rewrite set_arc_other; auto.
Qed.

Lemma net_outflow_set_arc (yv : scenario) (a b x : nat) (v : bool) :
  a < N -> b < N ->
  net_outflow N (set_arc yv a b v) x
  = (net_outflow N yv x
     + (if (x =? a)%nat then delta yv a b v else 0)
     - (if (x =? b)%nat then delta yv a b v else 0))%Z.
Proof.
  intros Ha Hb. unfold net_outflow.
  rewrite out_set_arc, in_set_arc by assumption. lia.
Qed.

Lemma upper_cost_set_arc (yv : scenario) (a b : nat) (v : bool) :
  a < N -> b < N ->
  upper_cost N u (set_arc yv a b v)
  = (upper_cost N u yv + mget u a b * delta yv a b v)%Z.
Proof.
  intros Ha Hb. unfold upper_cost.
  rewrite (sumZ_point
    (fun i => sumZ (fun j => (mget u i j * b2z (set_arc yv a b v i j))%Z)
                   (range N))
    (fun i => sumZ (fun j => (mget u i j * b2z (yv i j))%Z) (range N))
    N a Ha).
  - rewrite (sumZ_point
      (fun j => (mget u a j * b2z (set_arc yv a b v a j))%Z)
      (fun j => (mget u a j * b2z (yv a j))%Z) N b Hb).
    + rewrite set_arc_same. unfold delta. lia.
    + intros k _ Hk. rewrite set_arc_other; auto.
  - intros k _ Hk. apply sumZ_ext. intros j _.
    rewrite set_arc_other; auto.
Qed.

Lemma net_outflow_no_arcs (x : nat) : net_outflow N no_arcs x = 0%Z.
Proof.
  unfold net_outflow, no_arcs. simpl. rewrite !sumZ_zero. reflexivity.
Qed.

Lemma upper_cost_no_arcs : upper_cost N u no_arcs = 0%Z.
Proof.
  unfold upper_cost, no_arcs. simpl.
  rewrite (sumZ_ext nat _ (fun _ => 0%Z)); [apply sumZ_zero|].
  intros i _. rewrite (sumZ_ext nat _ (fun _ => 0%Z)); [apply sumZ_zero|].
  intros j _. lia.
Qed.

Lemma upper_cost_nonneg (yv : scenario) :
  (forall i j, i < N -> j < N -> (0 <= mget u i j)%Z) ->
  (0 <= upper_cost N u yv)%Z.
Proof.
  intros Hu. unfold upper_cost. apply sumZ_nonneg. intros i Hi.
  apply sumZ_nonneg. intros j Hj. apply in_range_lt in Hi, Hj.
  pose proof (Hu i j Hi Hj). pose proof (b2z_range (yv i j)). nia.
Qed.

(** A selected arc costs at least its own upper bound. *)
Lemma upper_cost_selected (yv : scenario) (a b : nat) :
  (forall i j, i < N -> j < N -> (0 <= mget u i j)%Z) ->
  a < N -> b < N -> yv a b = true ->
  (mget u a b <= upper_cost N u yv)%Z.
Proof.
  intros Hu Ha Hb Hy.
  pose proof (upper_cost_set_arc yv a b false Ha Hb) as H.
  pose proof (upper_cost_nonneg (set_arc yv a b false) Hu) as H0.
  unfold delta in H. rewrite Hy in H. simpl in H. lia.
Qed.

Lemma single_arc_conserves (s t : nat) :
  s < N -> t < N -> s <> t -> conserves N s t (single_arc s t).
Proof.
  intros Hs Ht Hst. unfold conserves, single_arc.
  rewrite !net_outflow_set_arc, !net_outflow_no_arcs by assumption.
  unfold delta, no_arcs. rewrite !Nat.eqb_refl.
  destruct (Nat.eqb_spec s t); [contradiction|].
  destruct (Nat.eqb_spec t s); [lia|]. simpl.
  split; [reflexivity|]. split; [reflexivity|].
  intros j Hj Hjs Hjt.
  rewrite net_outflow_set_arc, net_outflow_no_arcs by assumption.
  destruct (Nat.eqb_spec j s), (Nat.eqb_spec j t); try contradiction.
  reflexivity.
Qed.

Lemma upper_cost_single_arc (a b : nat) :
  a < N -> b < N -> upper_cost N u (single_arc a b) = mget u a b.
Proof.
  intros Ha Hb. unfold single_arc.
  rewrite upper_cost_set_arc, upper_cost_no_arcs by assumption.
  unfold delta, no_arcs. simpl. lia.
Qed.

End Arcs.

End ScenarioFacts.

Import ScenarioFacts.

(** ** The optimum of the model *)

Module OptimumFacts.

(** Two optimal assignments of one model have the same objective
    value. *)
Lemma optimal_value_unique (m : Model) (a b : solution) :
  optimal m a -> optimal m b -> objective_value m a = objective_value m b.
Proof.
  intros [Hfa Ha] [Hfb Hb].
  pose proof (Ha b Hfb). pose proof (Hb a Hfa). lra.
Qed.

Section Optimum.

Variables (N : nat) (l u : matrix) (s t : nat).

Hypothesis l_nonneg : forall i j, i < N -> j < N -> (0 <= mget l i j)%Z.
Hypothesis u_nonneg : forall i j, i < N -> j < N -> (0 <= mget u i j)%Z.
Hypothesis s_node : s < N.
Hypothesis t_node : t < N.

Variable m : Model.
Hypothesis built : build_model N l u s t = Some m.

Lemma scenario_distance_spec (yv : scenario) :
  distance N (effective_cost l u yv) s t
  = Some (scenario_distance N l u s t yv).
Proof.
  unfold scenario_distance.
  destruct (regret_defined N l u s t l_nonneg u_nonneg s_node t_node yv)
    as (v & -> & _).
  reflexivity.
Qed.

Lemma scenario_distance_nonneg (yv : scenario) :
  (0 <= scenario_distance N l u s t yv)%Z.
Proof.
  unfold scenario_distance.
  destruct (regret_defined N l u s t l_nonneg u_nonneg s_node t_node yv)
    as (v & -> & Hv).
  exact Hv.
Qed.

(** The distance is at most the cost of any walk from [s] to [t]. *)
Lemma scenario_distance_below (yv : scenario) (w : list nat) :
  in_range N w -> walk_end s w = t ->
  (scenario_distance N l u s t yv
   <= walk_cost (effective_cost l u yv) s w)%Z.
Proof.
  intros Hw Hend.
  destruct (distance_below_walks N _ s
              (effective_cost_nonneg N l u l_nonneg u_nonneg yv)
              s_node w Hw) as (v & Hv & Hle).
  rewrite Hend, scenario_distance_spec in Hv.
  injection Hv as Hv. rewrite Hv. exact Hle.
Qed.

Lemma regret_below_objective (sol : solution) :
  feasible m sol ->
  (IZR (regret N l u s t (Yval sol)) <= objective_value m sol)%R.
Proof.
  intros Hf.
  destruct (feasible_label_below_distance N l u s t l_nonneg u_nonneg s_node
              m built sol t Hf t_node) as (v & Hv & Hle).
  rewrite scenario_distance_spec in Hv. inversion Hv; subst.
  rewrite (objective_value_eq N l u s t m sol built).
  unfold regret. rewrite minus_IZR. lra.
Qed.

Lemma objective_potentials (yv : scenario) :
  objective_value m
    (mkSolution yv (potentials N (effective_cost l u yv) s))
  = IZR (regret N l u s t yv).
Proof.
  rewrite (objective_value_eq N l u s t m _ built). cbn [Xval Yval].
  unfold potentials, regret. rewrite scenario_distance_spec, minus_IZR.
  reflexivity.
Qed.

(** A scenario that conserves flow and whose regret no other such
    scenario beats is the binary part of an optimal assignment. *)
Lemma best_scenario_optimal (yv : scenario) :
  conserves N s t yv ->
  (forall yv', conserves N s t yv' ->
     (regret N l u s t yv <= regret N l u s t yv')%Z) ->
  optimal m (mkSolution yv (potentials N (effective_cost l u yv) s)).
Proof.
  intros Hflow Hbest. split.
  - now apply (potentials_feasible N l u s t l_nonneg u_nonneg s_node m built).
  - intros sol' Hf'. rewrite objective_potentials.
    pose proof (regret_below_objective sol' Hf') as H.
    assert (Hflow' : conserves N s t (Yval sol')).
    { apply (feasible_iff N l u s t m sol' built) in Hf'. apply Hf'. }
    pose proof (IZR_le _ _ (Hbest _ Hflow')). lra.
Qed.

(** The objective of an optimal assignment is the regret of its
    scenario, and no flow-conserving scenario has a smaller regret. *)
Lemma optimal_is_best_scenario (sol : solution) :
  optimal m sol ->
  conserves N s t (Yval sol) /\
  objective_value m sol = IZR (regret N l u s t (Yval sol)) /\
  forall yv, conserves N s t yv ->
    (regret N l u s t (Yval sol) <= regret N l u s t yv)%Z.
Proof.
  intros [Hf Hopt].
  assert (Hflow : conserves N s t (Yval sol)).
  { apply (feasible_iff N l u s t m sol built) in Hf. apply Hf. }
  pose proof (regret_below_objective sol Hf) as Hlow.
  assert (Hval : objective_value m sol = IZR (regret N l u s t (Yval sol))).
  { pose proof (Hopt _ (potentials_feasible N l u s t l_nonneg u_nonneg
                          s_node m built (Yval sol) Hflow)) as H.
    rewrite objective_potentials in H. lra. }
  split; [exact Hflow|]. split; [exact Hval|].
  intros yv Hyv. apply le_IZR.
  pose proof (Hopt _ (potentials_feasible N l u s t l_nonneg u_nonneg
                        s_node m built yv Hyv)) as H.
  rewrite objective_potentials in H. lra.
Qed.

Lemma regret_bounded_below (yv : scenario) :
  (0 <= regret N l u s t yv + (mget l s t + mget u s t))%Z.
Proof.
  unfold regret.
  pose proof (upper_cost_nonneg N u yv u_nonneg).
  assert (Hw : in_range N [t]) by (constructor; [exact t_node|constructor]).
  pose proof (scenario_distance_below yv [t] Hw eq_refl) as H1.
  cbn [walk_cost] in H1. unfold effective_cost in H1.
  pose proof (l_nonneg s t s_node t_node).
  pose proof (u_nonneg s t s_node t_node).
  destruct (yv s t); lia.
Qed.

Hypothesis s_not_t : s <> t.

(** Among the scenarios that conserve flow one has least regret. *)
Lemma best_scenario_exists :
  exists yv, conserves N s t yv /\
    forall yv', conserves N s t yv' ->
      (regret N l u s t yv <= regret N l u s t yv')%Z.
Proof.
  set (B := (mget l s t + mget u s t)%Z).
  set (P := fun n : nat =>
              exists yv, conserves N s t yv /\
                         Z.to_nat (regret N l u s t yv + B) = n).
  assert (Hdec : forall n, P n \/ ~ P n) by (intros n; apply classic).
  assert (Hinh : exists n, P n).
  { exists (Z.to_nat (regret N l u s t (single_arc s t) + B)).
    exists (single_arc s t). split; [|reflexivity].
    now apply single_arc_conserves. }
  destruct (dec_inh_nat_subset_has_unique_least_element P Hdec Hinh)
    as (n0 & [[yv [Hflow Hn0]] Hleast] & _).
  exists yv. split; [exact Hflow|].
  intros yv' Hflow'.
  assert (Hle : n0 <= Z.to_nat (regret N l u s t yv' + B)).
  { apply Hleast. exists yv'. auto. }
  pose proof (regret_bounded_below yv). pose proof (regret_bounded_below yv').
  fold B in H, H0. lia.
Qed.

(** The model always has an optimal assignment. *)
Theorem optimum_exists : exists sol, optimal m sol.
Proof.
  destruct best_scenario_exists as (yv & Hflow & Hbest).
  exists (mkSolution yv (potentials N (effective_cost l u yv) s)).
  now apply best_scenario_optimal.
Qed.

End Optimum.

End OptimumFacts.

Import OptimumFacts.

(** ** Soundness of the computed certificates *)

Module CertificateFacts.

Lemma pair_eqb_eq (a b : nat * nat) : pair_eqb a b = true <-> a = b.
Proof.
  destruct a as [a1 a2], b as [b1 b2]. unfold pair_eqb. simpl.
  rewrite andb_true_iff, !Nat.eqb_eq. split.
  - intros [-> ->]. reflexivity.
  - intros H. inversion H. auto.
Qed.

Lemma nth_bump (bal : list Z) (k v : nat) (d : Z) :
  k < length bal ->
  nth v (bump bal k d) 0%Z
  = (nth v bal 0 + if (v =? k)%nat then d else 0)%Z.
Proof.
  intros Hk. unfold bump. rewrite nth_upd.
  replace (k <? length bal) with true by (symmetry; now apply Nat.ltb_lt).
  rewrite andb_true_r.
  destruct (Nat.eqb_spec v k) as [->|]; lia.
Qed.

Lemma bump_length (bal : list Z) (k : nat) (d : Z) :
  length (bump bal k d) = length bal.
Proof. unfold bump. apply upd_length. Qed.

Section Check.

Variables (N : nat) (l u : matrix) (s t : nat).

Lemma forallb_range (n : nat) (p : nat -> bool) :
  forallb p (range n) = true <-> forall k, k < n -> p k = true.
Proof.
  rewrite forallb_forall. split; intros H k Hk; apply H;
    now apply in_range_lt.
Qed.

(** *** Feasibility decided on integers *)

Lemma admissibleb_sound (yv : scenario) (xs : list Z) :
  admissibleb N l u s t yv xs = true ->
  admissible N l u s t (integral yv xs).
Proof.
  unfold admissibleb. rewrite !andb_true_iff, !forallb_range.
  intros (((((Hpos & Hs) & Hdist) & Hfs) & Hft) & Hmid).
  unfold admissible, integral. cbn [Xval Yval].
  split; [|split; [|split]].
  - intros j Hj. apply IZR_le, Z.leb_le. now apply Hpos.
  - apply Z.eqb_eq in Hs. now rewrite Hs.
  - intros i j Hi Hj. specialize (Hdist i Hi).
    rewrite forallb_range in Hdist. specialize (Hdist j Hj).
    apply Z.leb_le in Hdist. rewrite <- plus_IZR. now apply IZR_le.
  - unfold conserves. apply Z.eqb_eq in Hfs, Hft.
    split; [exact Hfs|]. split; [exact Hft|].
    intros j Hj Hjs Hjt. specialize (Hmid j Hj).
    rewrite !orb_true_iff, !Nat.eqb_eq, Z.eqb_eq in Hmid.
    destruct Hmid as [[Hc|Hc]|Hc]; [contradiction|contradiction|exact Hc].
Qed.

(** *** The search *)

Lemma gain_nonneg (yv : scenario) (w : list nat) (todo : list (nat * nat)) :
  (forall ij, In ij todo -> (0 <= weight l u s w ij)%Z) ->
  (0 <= gain l u s yv w todo)%Z.
Proof.
  intros H. unfold gain. apply sumZ_nonneg. intros ij Hij.
  pose proof (H ij Hij). pose proof (b2z_range (yv (fst ij) (snd ij))). nia.
Qed.

Lemma nth_select (bal : list Z) (ij : nat * nat) (v : nat) :
  length bal = N -> fst ij < N -> snd ij < N ->
  nth v (select bal ij) 0%Z
  = (nth v bal 0
     + ((if (fst ij =? v)%nat then 1 else 0)
        - (if (snd ij =? v)%nat then 1 else 0)))%Z.
Proof.
  intros Hlen Hi Hj. unfold select.
  rewrite nth_bump by (rewrite bump_length; lia).
  rewrite nth_bump by lia.
  rewrite (Nat.eqb_sym v (fst ij)), (Nat.eqb_sym v (snd ij)).
  destruct (fst ij =? v), (snd ij =? v); lia.
Qed.

Lemma search_sound (th : Z) (todo : list (nat * nat)) :
  forall (accs : list (list nat * Z)) (bal : list Z),
  search l u s th todo accs bal = true ->
  length bal = N ->
  Forall (fun ij => fst ij < N /\ snd ij < N) todo ->
  (forall wa ij, In wa accs -> In ij todo ->
                 (0 <= weight l u s (fst wa) ij)%Z) ->
  forall yv : scenario,
  (forall v, v < N -> (nth v bal 0 + flow yv v todo = 0)%Z) ->
  Exists (fun wa => (th <= snd wa + gain l u s yv (fst wa) todo)%Z) accs.
Proof.
  induction todo as [|ij todo IH]; intros accs bal Hsearch Hlen Hrange Hw yv Hbal;
    simpl in Hsearch;
    destruct (existsb (fun wa => (th <=? snd wa)%Z) accs) eqn:Hcut.
  - apply existsb_exists in Hcut as (wa & Hin & Hle). apply Z.leb_le in Hle.
    apply Exists_exists. exists wa. split; [exact Hin|].
    unfold gain. simpl. lia.
  - exfalso. apply negb_true_iff in Hsearch.
    assert (Hall : forallb (fun b => (b =? 0)%Z) bal = true).
    { apply forallb_forall. intros b Hb. apply Z.eqb_eq.
      destruct (In_nth bal b 0%Z Hb) as (v & Hv & <-).
      specialize (Hbal v ltac:(lia)). unfold flow in Hbal. simpl in Hbal. lia. }
    congruence.
  - apply existsb_exists in Hcut as (wa & Hin & Hle). apply Z.leb_le in Hle.
    apply Exists_exists. exists wa. split; [exact Hin|].
    assert (0 <= gain l u s yv (fst wa) (ij :: todo))%Z.
    { apply gain_nonneg. intros ij' Hij'. now apply Hw. }
    lia.
  - apply Forall_cons_iff in Hrange as [[Hi Hj] Hrange'].
    assert (Hw' : forall wa ij', In wa accs -> In ij' todo ->
                    (0 <= weight l u s (fst wa) ij')%Z).
    { intros wa ij' Hwa Hij'. apply Hw; [exact Hwa|now right]. }
    assert (Hgain : forall w, gain l u s yv w (ij :: todo)
              = (weight l u s w ij * b2z (yv (fst ij) (snd ij))
                 + gain l u s yv w todo)%Z) by reflexivity.
    assert (Hflow : forall v, flow yv v (ij :: todo)
              = (b2z (yv (fst ij) (snd ij))
                 * ((if (fst ij =? v)%nat then 1 else 0)
                    - (if (snd ij =? v)%nat then 1 else 0))
                 + flow yv v todo)%Z) by reflexivity.
    destruct (Nat.eqb_spec (fst ij) (snd ij)) as [Hloop|Hloop].
    + (* a self-loop *)
      assert (Hex := IH accs bal Hsearch Hlen Hrange' Hw' yv).
      assert (Hbal' : forall v, v < N -> (nth v bal 0 + flow yv v todo = 0)%Z).
      { intros v Hv. specialize (Hbal v Hv). rewrite Hflow, Hloop in Hbal.
        lia. }
      specialize (Hex Hbal'). apply Exists_exists in Hex as (wa & Hin & Hle).
      apply Exists_exists. exists wa. split; [exact Hin|].
      rewrite Hgain. pose proof (Hw wa ij Hin (or_introl eq_refl)).
      pose proof (b2z_range (yv (fst ij) (snd ij))). nia.
    + apply andb_prop in Hsearch as [Hsel Hskip].
      destruct (yv (fst ij) (snd ij)) eqn:Hy.
      * (* the pair is selected *)
        assert (Hlen' : length (select bal ij) = N)
          by (unfold select; now rewrite !bump_length).
        assert (Hex := IH _ _ Hsel Hlen' Hrange').
        assert (Hw'' : forall wa ij',
                   In wa (map (fun wa0 => (fst wa0,
                              (snd wa0 + weight l u s (fst wa0) ij)%Z)) accs) ->
                   In ij' todo -> (0 <= weight l u s (fst wa) ij')%Z).
        { intros wa ij' Hwa Hij'. apply in_map_iff in Hwa as (wa0 & <- & Hwa0).
          simpl. now apply Hw'. }
        specialize (Hex Hw'' yv).
        assert (Hbal' : forall v, v < N ->
                   (nth v (select bal ij) 0 + flow yv v todo = 0)%Z).
        { intros v Hv. specialize (Hbal v Hv).
          rewrite Hflow, ?Hy in Hbal. rewrite nth_select by assumption.
          simpl b2z in Hbal. lia. }
        specialize (Hex Hbal').
        apply Exists_exists in Hex as (wa' & Hin' & Hle).
        apply in_map_iff in Hin' as (wa & <- & Hin).
        apply Exists_exists. exists wa. split; [exact Hin|].
        rewrite Hgain, ?Hy. simpl in Hle. simpl b2z. lia.
      * (* the pair is left out *)
        assert (Hex := IH accs bal Hskip Hlen Hrange' Hw' yv).
        assert (Hbal' : forall v, v < N ->
                   (nth v bal 0 + flow yv v todo = 0)%Z).
        { intros v Hv. specialize (Hbal v Hv).
          rewrite Hflow, ?Hy in Hbal. simpl b2z in Hbal. lia. }
        specialize (Hex Hbal').
        apply Exists_exists in Hex as (wa & Hin & Hle).
        apply Exists_exists. exists wa. split; [exact Hin|].
        rewrite Hgain, ?Hy. simpl b2z. lia.
Qed.

(** *** Sums over all pairs *)

Lemma sumZ_pairs (f : nat * nat -> Z) :
  sumZ f (pairs N)
  = sumZ (fun i => sumZ (fun j => f (i, j)) (range N)) (range N).
Proof.
  unfold pairs. rewrite sumZ_flat_map. apply sumZ_ext. intros i _.
  now rewrite sumZ_map.
Qed.

Lemma sumZ_pick (n k : nat) (f : nat -> Z) :
  k < n ->
  sumZ (fun i => if (i =? k)%nat then f i else 0%Z) (range n) = f k.
Proof.
  intros Hk.
  rewrite (sumZ_point (fun i => if (i =? k)%nat then f i else 0%Z)
                      (fun _ => 0%Z) n k Hk).
  - rewrite sumZ_zero, Nat.eqb_refl. lia.
  - intros i _ Hi. destruct (Nat.eqb_spec i k); [contradiction|reflexivity].
Qed.

Lemma sumZ_pairs_pick (a : nat * nat) (g : nat * nat -> Z) :
  fst a < N -> snd a < N ->
  sumZ (fun ij => if pair_eqb ij a then g ij else 0%Z) (pairs N) = g a.
Proof.
  destruct a as [a1 a2]. simpl. intros H1 H2.
  rewrite sumZ_pairs. unfold pair_eqb. simpl.
  rewrite (sumZ_ext nat _
    (fun i => if (i =? a1)%nat
              then sumZ (fun j => if (j =? a2)%nat then g (i, j) else 0%Z)
                        (range N)
              else 0%Z)).
  - rewrite sumZ_pick by assumption. now rewrite sumZ_pick.
  - intros i _. destruct (i =? a1); simpl; [reflexivity|].
    apply sumZ_zero.
Qed.

Lemma sumZ_pairs_on (arcs : list (nat * nat)) (g : nat * nat -> Z) :
  nodupb arcs = true ->
  Forall (fun ij => fst ij < N /\ snd ij < N) arcs ->
  sumZ (fun ij => if existsb (pair_eqb ij) arcs then g ij else 0%Z) (pairs N)
  = sumZ g arcs.
Proof.
  induction arcs as [|a arcs IH]; intros Hnd Hr.
  - simpl. apply sumZ_zero.
  - simpl in Hnd. apply andb_prop in Hnd as [Hnew Hnd].
    apply negb_true_iff in Hnew.
    apply Forall_cons_iff in Hr as [[Ha1 Ha2] Hr'].
    simpl. rewrite <- (IH Hnd Hr'), <- (sumZ_pairs_pick a g Ha1 Ha2).
    rewrite <- sumZ_plus. apply sumZ_ext. intros ij _.
    destruct (pair_eqb ij a) eqn:E; simpl.
    + apply pair_eqb_eq in E. subst ij. rewrite Hnew. lia.
    + lia.
Qed.

Lemma flow_pairs (yv : scenario) (v : nat) :
  v < N -> flow yv v (pairs N) = net_outflow N yv v.
Proof.
  intros Hv. unfold flow, net_outflow. rewrite sumZ_pairs. cbn [fst snd].
  rewrite (sumZ_ext nat _
    (fun i => ((if (i =? v)%nat
                then sumZ (fun j => b2z (yv i j)) (range N) else 0)
               - b2z (yv i v))%Z)).
  - rewrite sumZ_minus, sumZ_pick by assumption. reflexivity.
  - intros i _.
    rewrite (sumZ_ext nat _
      (fun j => ((if (i =? v)%nat then b2z (yv i j) else 0)
                 - (if (j =? v)%nat then b2z (yv i j) else 0))%Z)).
    + rewrite sumZ_minus, sumZ_pick by assumption.
      destruct (i =? v)%nat; [reflexivity|]. now rewrite sumZ_zero.
    + intros j _. destruct (i =? v)%nat, (j =? v)%nat; lia.
Qed.

(** *** From a walk to a bound on the objective *)

Lemma walk_cost_arcs (c : nat -> nat -> Z) (a : nat) (w : list nat) :
  walk_cost c a w = sumZ (fun ij => c (fst ij) (snd ij)) (arcs_of a w).
Proof.
  revert a; induction w as [|b w IH]; intros a; simpl; [reflexivity|].
  now rewrite IH.
Qed.

Lemma arcs_in_range (a : nat) (w : list nat) :
  a < N -> in_range N w ->
  Forall (fun ij => fst ij < N /\ snd ij < N) (arcs_of a w).
Proof.
  revert a; induction w as [|b w IH]; intros a Ha Hw; simpl; [constructor|].
  inversion Hw; subst. constructor; [simpl; auto|]. now apply IH.
Qed.

Lemma upper_cost_pairs (yv : scenario) :
  upper_cost N u yv
  = sumZ (fun ij => (mget u (fst ij) (snd ij)
                     * b2z (yv (fst ij) (snd ij)))%Z) (pairs N).
Proof. unfold upper_cost. now rewrite sumZ_pairs. Qed.

Lemma gain_pairs (yv : scenario) (w : list nat) :
  s < N -> in_range N w -> nodupb (arcs_of s w) = true ->
  (gain l u s yv w (pairs N) - lower_cost l s w
   = upper_cost N u yv - walk_cost (effective_cost l u yv) s w)%Z.
Proof.
  intros Hs Hw Hnd.
  pose proof (arcs_in_range s w Hs Hw) as Hr.
  set (g := fun ij : nat * nat =>
              ((mget u (fst ij) (snd ij) - mget l (fst ij) (snd ij))
               * b2z (yv (fst ij) (snd ij)))%Z).
  assert (Hgain : gain l u s yv w (pairs N)
                  = (upper_cost N u yv - sumZ g (arcs_of s w))%Z).
  { rewrite <- (sumZ_pairs_on (arcs_of s w) g Hnd Hr), upper_cost_pairs,
      <- sumZ_minus.
    unfold gain. apply sumZ_ext. intros ij _. unfold weight, on_walk, g.
    destruct (existsb (pair_eqb ij) (arcs_of s w)); lia. }
  assert (Hcost : walk_cost (effective_cost l u yv) s w
                  = (lower_cost l s w + sumZ g (arcs_of s w))%Z).
  { unfold lower_cost. rewrite !walk_cost_arcs, <- sumZ_plus.
    apply sumZ_ext. intros ij _. unfold effective_cost, g.
    destruct (yv (fst ij) (snd ij)); simpl; lia. }
  lia.
Qed.

Lemma nonneg_costs_sound :
  nonneg_costs N l u = true ->
  forall i j, i < N -> j < N ->
    (0 <= mget l i j)%Z /\ (0 <= mget u i j)%Z.
Proof.
  unfold nonneg_costs. rewrite forallb_forall. intros H i j Hi Hj.
  specialize (H (i, j) (proj2 (in_pairs N i j) (conj Hi Hj))).
  simpl in H. apply andb_prop in H as [H1 H2].
  now rewrite <- !Z.leb_le.
Qed.

Lemma good_walk_sound (w : list nat) :
  good_walk N s t w = true ->
  in_range N w /\ walk_end s w = t /\ nodupb (arcs_of s w) = true.
Proof.
  unfold good_walk. rewrite !andb_true_iff, Nat.eqb_eq.
  intros [[Hr He] Hn]. split; [|auto].
  unfold in_range. apply Forall_forall. intros v Hv.
  rewrite forallb_forall in Hr. now apply Nat.ltb_lt, Hr.
Qed.

Lemma nth_initial_balance (v : nat) :
  v < N ->
  nth v (initial_balance N s t) 0%Z
  = if v =? s then (-1)%Z else if v =? t then 1%Z else 0%Z.
Proof. intros Hv. unfold initial_balance. now rewrite nth_map_range. Qed.

(** The certificate is sound: when the check succeeds, every feasible
    assignment has an objective of at least [th]. *)
Theorem lower_bound_sound (th : Z) (ws : list (list nat)) (m : Model)
        (sol : solution) :
  lower_bound N l u s t th ws = true ->
  build_model N l u s t = Some m ->
  feasible m sol ->
  (IZR th <= objective_value m sol)%R.
Proof.
  unfold lower_bound. rewrite !andb_true_iff, !Nat.ltb_lt, negb_true_iff,
    Nat.eqb_neq.
  intros (((((Hs & Ht) & Hst) & Hcosts) & Hwalks) & Hsearch) Hb Hf.
  pose proof (nonneg_costs_sound Hcosts) as Hnn.
  pose proof (proj1 (feasible_iff N l u s t m sol Hb) Hf) as Hadm.
  destruct Hadm as (HX & HXs & Hdist & Hfs & Hft & Hmid).
  rewrite forallb_forall in Hwalks.
  set (yv := Yval sol).
  assert (Hex : Exists (fun wa =>
              (th <= snd wa + gain l u s yv (fst wa) (pairs N))%Z)
              (map (fun w => (w, (- lower_cost l s w)%Z)) ws)).
  { apply (search_sound th (pairs N) _ _ Hsearch).
    - unfold initial_balance, range. now rewrite length_map, length_seq.
    - apply Forall_forall. intros [i j] Hij. now apply in_pairs in Hij.
    - intros wa [i j] _ Hij. apply in_pairs in Hij as [Hi Hj].
      destruct (Hnn i j Hi Hj). unfold weight. simpl.
      destruct (on_walk s (fst wa) (i, j)); assumption.
    - intros v Hv. rewrite flow_pairs, nth_initial_balance by assumption.
      destruct (Nat.eqb_spec v s) as [->|Hvs]; [fold yv in Hfs; lia|].
      destruct (Nat.eqb_spec v t) as [->|Hvt]; [fold yv in Hft; lia|].
      specialize (Hmid v Hv Hvs Hvt). fold yv in Hmid. lia. }
  apply Exists_exists in Hex as (wa & Hin & Hle).
  apply in_map_iff in Hin as (w & <- & Hw). simpl in Hle.
  destruct (good_walk_sound w (Hwalks w Hw)) as (Hr & Hend & Hnd).
  pose proof (gain_pairs yv w Hs Hr Hnd) as Hg.
  assert (Hlab : (Xval sol t
                  <= IZR (walk_cost (effective_cost l u yv) s w))%R).
  { rewrite <- Hend.
    apply (label_below_walk N l u s t Hs sol w); [|exact Hr].
    apply (feasible_iff N l u s t m sol Hb). exact Hf. }
  rewrite (objective_value_eq N l u s t m sol Hb). fold yv.
  assert (Hz : (th <= upper_cost N u yv
                      - walk_cost (effective_cost l u yv) s w)%Z) by lia.
  apply IZR_le in Hz. rewrite minus_IZR in Hz. lra.
Qed.

(** A feasible integral assignment whose objective is certified as a
    lower bound is optimal. *)
Theorem certified_optimal (th : Z) (ws : list (list nat)) (m : Model)
        (yv : scenario) (xs : list Z) :
  build_model N l u s t = Some m ->
  admissibleb N l u s t yv xs = true ->
  (upper_cost N u yv - nth t xs 0 = th)%Z ->
  lower_bound N l u s t th ws = true ->
  optimal m (integral yv xs) /\
  objective_value m (integral yv xs) = IZR th.
Proof.
  intros Hb Hadm Hobj Hlow.
  assert (Hval : objective_value m (integral yv xs) = IZR th).
  { rewrite (objective_value_eq N l u s t m _ Hb). unfold integral.
    cbn [Xval Yval]. rewrite <- minus_IZR. now rewrite Hobj. }
  split; [|exact Hval]. split.
  - apply (feasible_iff N l u s t m _ Hb). now apply admissibleb_sound.
  - intros sol' Hf'. rewrite Hval.
    exact (lower_bound_sound th ws m sol' Hlow Hb Hf').
Qed.

End Check.

End CertificateFacts.

Import CertificateFacts.

(* ================================================================== *)
(** * Properties of the notebook *)
(* ================================================================== *)

(** ** Graph generation *)

(** C10. During graph generation an off-diagonal arc [(i, j)] has both
    its lower and its upper bound overwritten with the sentinel [M]
    exactly when the draw [dummy[i][j]] is not zero, and keeps the drawn
    bounds when it is zero.  Of the ten equally likely values of a draw
    one keeps the arc: the arc is kept with probability 1/10, not 1/2. *)
Theorem C10_deletion_rule (N : nat) (M : Z) (dummy l0 u0 : matrix)
        (i j : nat) :
  square N l0 -> square N u0 -> i < N -> j < N -> i <> j ->
  (mget dummy i j <> 0%Z ->
     mget (fst (generate N M dummy l0 u0)) i j = M /\
     mget (snd (generate N M dummy l0 u0)) i j = M) /\
  (mget dummy i j = 0%Z ->
     mget (fst (generate N M dummy l0 u0)) i j = mget l0 i j /\
     mget (snd (generate N M dummy l0 u0)) i j = mget u0 i j) /\
  dummy_values = [0; 1; 2; 3; 4; 5; 6; 7; 8; 9]%Z /\
  filter (fun d => negb (deleted d)) dummy_values = [0%Z] /\
  QArith_base.Qeq keep_probability (QArith_base.Qmake 1 10) /\
  ~ QArith_base.Qeq keep_probability (QArith_base.Qmake 1 2).
Proof.
  intros Hl Hu Hi Hj Hij. rewrite generate_split. cbn [fst snd].
  rewrite !(generate1_spec N M dummy _ i j) by assumption.
  destruct (Nat.eqb_spec i j) as [|_]; [contradiction|].
  unfold deleted.
  split; [|split; [|split; [|split; [|split]]]].
  - intros Hd. apply Z.eqb_neq in Hd. rewrite Hd. simpl. auto.
  - intros Hd. rewrite Hd. simpl. auto.
  - reflexivity.
  - reflexivity.
  - reflexivity.
  - intros H. discriminate H.
Qed.

Lemma C10_deletion_rule_witness :
  (mget Examples.cut_dummy 0 1 <> 0%Z ->
     mget Examples.cut_l 0 1 = Examples.M /\
     mget Examples.cut_u 0 1 = Examples.M) /\
  (mget Examples.cut_dummy 1 0 = 0%Z ->
     mget Examples.cut_l 1 0 = 5%Z /\ mget Examples.cut_u 1 0 = 22%Z).
Proof.
  assert (Hl : square 2 Examples.draw_l)
    by (apply squareb_square; reflexivity).
  assert (Hu : square 2 Examples.draw_u)
    by (apply squareb_square; reflexivity).
  split.
  - apply (C10_deletion_rule 2 Examples.M Examples.cut_dummy
             Examples.draw_l Examples.draw_u 0 1 Hl Hu); lia.
  - apply (C10_deletion_rule 2 Examples.M Examples.cut_dummy
             Examples.draw_l Examples.draw_u 1 0 Hl Hu); lia.
Defined.

(** ** The model *)

(** C3. The objective of the model is the sum over all ordered pairs
    [(i, j)] of [upper_ij * Y[i,j]] minus the distance variable of the
    destination, and it is minimised: an optimal assignment has the least
    such value among the feasible ones. *)
Theorem C3_objective (N : nat) (l u : matrix) (s t : nat) (m : Model) :
  build_model N l u s t = Some m ->
  (forall sol,
     objective_value m sol
     = (IZR (upper_cost N u (Yval sol)) - Xval sol t)%R) /\
  (forall sol sol', optimal m sol -> feasible m sol' ->
     (IZR (upper_cost N u (Yval sol)) - Xval sol t
      <= IZR (upper_cost N u (Yval sol')) - Xval sol' t)%R).
Proof.
  intros Hb. split.
  - intros sol. now apply objective_value_eq with (l := l) (s := s).
  - intros sol sol' [_ Hopt] Hf. specialize (Hopt sol' Hf).
    now rewrite !(objective_value_eq N l u s t m _ Hb) in Hopt.
Qed.

Lemma C3_objective_witness :
  exists m, build_model 2 Examples.small_l Examples.small_u 0 1 = Some m /\
    objective_value m Examples.small_sol = 0%R.
Proof.
  eexists. split; [reflexivity|].
  rewrite (proj1 (C3_objective 2 Examples.small_l Examples.small_u 0 1 _
                               eq_refl)).
  unfold Examples.small_sol, integral. cbn [Xval Yval].
  replace (upper_cost 2 Examples.small_u (of_arcs [(0, 1); (1, 1)]))
    with 21%Z by (vm_compute; reflexivity).
  simpl. lra.
Defined.

(** C4. For every ordered pair [(i, j)] of nodes, hence for every arc of
    the graph, the model contains the distance constraint
    [x_j <= x_i + lower_ij + (upper_ij - lower_ij) * Y_ij]; besides this
    family the model only contains [x_s = 0] and the flow-conservation
    constraints. *)
Theorem C4_distance_constraints (N : nat) (l u : matrix) (s t : nat)
        (m : Model) :
  build_model N l u s t = Some m ->
  (forall i j, i < N -> j < N ->
     In (distance_constraint l u (i, j)) (constraints m) /\
     forall sol,
       holds sol (distance_constraint l u (i, j)) <->
       (Xval sol j <= Xval sol i + IZR (mget l i j)
                      + IZR (mget u i j - mget l i j) * b2r (Yval sol i j))%R)
  /\
  (forall c, In c (constraints m) ->
     c = source_constraint s \/
     (exists i j, i < N /\ j < N /\ c = distance_constraint l u (i, j)) \/
     In c (flux_constraints N s t)) /\
  (forall sol, holds sol (source_constraint s) <-> Xval sol s = 0%R) /\
  length (constraints m) = 1 + N * N + length (flux_constraints N s t).
Proof.
  intros Hb. apply build_model_some in Hb as (Hs & Ht & ->).
  cbn [constraints]. split; [|split; [|split]].
  - intros i j Hi Hj. split; [|intros sol; apply holds_distance].
    right. apply in_or_app. left. unfold distance_constraints.
    apply in_map. now apply in_pairs.
  - intros c [<-|Hc]; [now left|]. right.
    apply in_app_or in Hc as [Hc|Hc]; [left|now right].
    unfold distance_constraints in Hc.
    apply in_map_iff in Hc as ([i j] & <- & Hij).
    apply in_pairs in Hij as [Hi Hj]. now exists i, j.
  - intros sol. reflexivity.
  - cbn [length]. rewrite length_app. unfold distance_constraints.
    rewrite length_map, length_pairs. lia.
Qed.

Lemma C4_distance_constraints_witness :
  exists m, build_model 2 Examples.small_l Examples.small_u 0 1 = Some m /\
    In (distance_constraint Examples.small_l Examples.small_u (0, 1))
       (constraints m) /\
    length (constraints m) = 7.
Proof.
  eexists. split; [reflexivity|].
  pose proof (C4_distance_constraints 2 Examples.small_l Examples.small_u
                0 1 _ eq_refl) as (Hin & _ & _ & Hlen).
  split.
  - apply (Hin 0 1); lia.
  - rewrite Hlen. reflexivity.
Defined.

(** C5. The flow-conservation constraints of the model require the net
    outflow of [Y] to be +1 at the source, -1 at the destination and 0
    at every other node. *)
Theorem C5_flow_conservation (N : nat) (l u : matrix) (s t : nat)
        (m : Model) :
  build_model N l u s t = Some m ->
  (forall c, In c (flux_constraints N s t) -> In c (constraints m)) /\
  (forall sol,
     Forall (holds sol) (flux_constraints N s t) <->
     net_outflow N (Yval sol) s = 1%Z /\
     net_outflow N (Yval sol) t = (-1)%Z /\
     forall j, j < N -> j <> s -> j <> t ->
               net_outflow N (Yval sol) j = 0%Z) /\
  (forall sol, feasible m sol ->
     net_outflow N (Yval sol) s = 1%Z /\
     net_outflow N (Yval sol) t = (-1)%Z /\
     forall j, j < N -> j <> s -> j <> t ->
               net_outflow N (Yval sol) j = 0%Z).
Proof.
  intros Hb. split; [|split].
  - apply build_model_some in Hb as (_ & _ & ->). cbn [constraints].
    intros c Hc. right. apply in_or_app. now right.
  - intros sol. apply holds_flux_constraints.
  - intros sol Hf. apply (feasible_iff N l u s t m sol Hb) in Hf.
    apply Hf.
Qed.

Lemma C5_flow_conservation_witness :
  exists m, build_model 2 Examples.small_l Examples.small_u 0 1 = Some m /\
    (Forall (holds Examples.small_sol) (flux_constraints 2 0 1) <->
     net_outflow 2 (Yval Examples.small_sol) 0 = 1%Z /\
     net_outflow 2 (Yval Examples.small_sol) 1 = (-1)%Z /\
     forall j, j < 2 -> j <> 0 -> j <> 1 ->
               net_outflow 2 (Yval Examples.small_sol) j = 0%Z).
Proof.
  eexists. split; [reflexivity|].
  apply (C5_flow_conservation 2 Examples.small_l Examples.small_u 0 1 _
           eq_refl).
Defined.

(** ** Labels and shortest distances *)






(** ** Self-loops *)

Module LoopFacts.

Section Loops.

Variables (N : nat) (l u : matrix) (s t : nat).

Lemma effective_cost_set_arc_other (yv : scenario) (a b i j : nat)
      (v : bool) :
  (i <> a \/ j <> b) ->
  effective_cost l u (set_arc yv a b v) i j = effective_cost l u yv i j.
Proof.
  intros H. unfold effective_cost. now rewrite set_arc_other.
Qed.

(** Switching a self-loop on or off keeps an assignment feasible as long
    as the loop's own distance constraint stays satisfiable. *)
Lemma admissible_with_loop (sol : solution) (i : nat) (v : bool) :
  i < N ->
  (0 <= effective_cost l u (set_arc (Yval sol) i i v) i i)%Z ->
  admissible N l u s t sol ->
  admissible N l u s t (with_arc sol i i v).
Proof.
  intros Hi Hc (HX & Hs & Hdist & Hfs & Hft & Hmid).
  unfold admissible, with_arc. cbn [Xval Yval].
  split; [exact HX|]. split; [exact Hs|]. split.
  - intros a b Ha Hb.
    destruct (Nat.eq_dec a i) as [->|Hai].
    + destruct (Nat.eq_dec b i) as [->|Hbi].
      * apply IZR_le in Hc. lra.
      * rewrite effective_cost_set_arc_other by auto. now apply Hdist.
    + rewrite effective_cost_set_arc_other by auto. now apply Hdist.
  - unfold conserves.
    assert (Hsame : forall x, net_outflow N (set_arc (Yval sol) i i v) x
                              = net_outflow N (Yval sol) x).
    { intros x. rewrite net_outflow_set_arc by assumption. lia. }
    rewrite !Hsame. split; [exact Hfs|]. split; [exact Hft|].
    intros j Hj Hjs Hjt. rewrite Hsame. now apply Hmid.
Qed.

Variable m : Model.
Hypothesis built : build_model N l u s t = Some m.

Lemma objective_with_arc (sol : solution) (a b : nat) (v : bool) :
  a < N -> b < N ->
  objective_value m (with_arc sol a b v)
  = (objective_value m sol
     + IZR (mget u a b * delta (Yval sol) a b v))%R.
Proof.
  intros Ha Hb. rewrite !(objective_value_eq N l u s t m _ built).
  unfold with_arc. cbn [Xval Yval].
  rewrite upper_cost_set_arc by assumption. rewrite plus_IZR. lra.
Qed.

(** A self-loop whose upper bound is 0 can be switched on in any optimal
    assignment. *)
Lemma free_loop_optimal (sol : solution) (i : nat) :
  i < N -> mget u i i = 0%Z -> optimal m sol ->
  optimal m (with_arc sol i i true).
Proof.
  intros Hi Hu [Hf Hopt]. split.
  - apply (feasible_iff N l u s t m _ built).
    apply admissible_with_loop; [exact Hi| |].
    + unfold effective_cost. rewrite set_arc_same, Hu. lia.
    + now apply (feasible_iff N l u s t m sol built).
  - intros sol' Hf'. rewrite objective_with_arc by assumption.
    rewrite Hu, Z.mul_0_l. specialize (Hopt sol' Hf'). lra.
Qed.

(** A self-loop with a positive upper bound is off in every optimal
    assignment. *)
Lemma costly_loop_off (sol : solution) (i : nat) :
  i < N -> (0 < mget u i i)%Z -> (0 <= mget l i i)%Z -> optimal m sol ->
  Yval sol i i = false.
Proof.
  intros Hi Hu Hl [Hf Hopt].
  destruct (Yval sol i i) eqn:Hy; [exfalso|reflexivity].
  assert (Hf' : feasible m (with_arc sol i i false)).
  { apply (feasible_iff N l u s t m _ built).
    apply admissible_with_loop; [exact Hi| |].
    - unfold effective_cost. now rewrite set_arc_same.
    - now apply (feasible_iff N l u s t m sol built). }
  specialize (Hopt _ Hf'). rewrite objective_with_arc in Hopt by assumption.
  unfold delta in Hopt. rewrite Hy in Hopt. simpl b2z in Hopt.
  replace (mget u i i * (0 - 1))%Z with (- mget u i i)%Z in Hopt by lia.
  rewrite opp_IZR in Hopt. apply IZR_lt in Hu. lra.
Qed.

End Loops.

End LoopFacts.

Import LoopFacts.

Lemma small_optimal :
  exists m, build_model 2 Examples.small_l Examples.small_u 0 1 = Some m /\
            optimal m Examples.small_sol /\
            objective_value m Examples.small_sol = 0%R.
Proof.
  eexists. split; [reflexivity|].
  apply (certified_optimal 2 Examples.small_l Examples.small_u 0 1 0
           [[1]] _ (of_arcs [(0, 1); (1, 1)]) [0; 21]%Z eq_refl);
    vm_compute; reflexivity.
Qed.

(** C7, as stated, fails on the two-node instance generated from a draw
    whose cell [(0, 0)] is not zero: the self-loop of node 0 ends with
    both bounds at the sentinel, not 0, and an optimal assignment selects
    the self-loop of node 1. *)
Lemma C7_counterexample :
  mget Examples.draw_dummy 0 0 <> 0%Z /\
  mget Examples.small_l 0 0 = 10000%Z /\
  mget Examples.small_u 0 0 = 10000%Z /\
  exists m, build_model 2 Examples.small_l Examples.small_u 0 1 = Some m /\
    optimal m Examples.small_sol /\
    Yval Examples.small_sol 1 1 = true.
Proof.
  split; [discriminate|]. split; [reflexivity|]. split; [reflexivity|].
  destruct small_optimal as (m & Hb & Hopt & _).
  exists m. split; [exact Hb|]. split; [exact Hopt|]. reflexivity.
Qed.

(** C7, amended.  The diagonal loop sets both bounds of every self-loop
    to 0.  Nothing in the model excludes a self-loop: when its upper
    bound is 0, switching [Y[i][i]] on in an optimal assignment gives an
    optimal assignment again; a self-loop is off in every optimal
    assignment only when its upper bound is positive. *)
Theorem C7_self_loops (N : nat) (l0 u0 l u : matrix) (s t : nat)
        (m : Model) (sol : solution) (i : nat) :
  square N l0 -> square N u0 ->
  build_model N l u s t = Some m -> optimal m sol -> i < N ->
  (mget (fst (zero_diagonal N (l0, u0))) i i = 0%Z /\
   mget (snd (zero_diagonal N (l0, u0))) i i = 0%Z) /\
  (mget u i i = 0%Z -> optimal m (with_arc sol i i true)) /\
  ((0 < mget u i i)%Z -> (0 <= mget l i i)%Z -> Yval sol i i = false).
Proof.
  intros Hl0 Hu0 Hb Hopt Hi. split; [|split].
  - unfold zero_diagonal. rewrite zero_diagonal_split. cbn [fst snd].
    destruct (zero1_spec N (range N) l0 Hl0 (range_lt N)) as [_ Hzl].
    destruct (zero1_spec N (range N) u0 Hu0 (range_lt N)) as [_ Hzu].
    rewrite Hzl, Hzu, Nat.eqb_refl, existsb_range by assumption. auto.
  - intros Hu. now apply (free_loop_optimal N l u s t m Hb).
  - intros Hu Hl. now apply (costly_loop_off N l u s t m Hb).
Qed.

Lemma C7_self_loops_witness :
  exists m, build_model 2 Examples.small_l Examples.small_u 0 1 = Some m /\
    mget (fst (zero_diagonal 2 (Examples.draw_l, Examples.draw_u))) 1 1
    = 0%Z /\
    optimal m (with_arc Examples.small_sol 1 1 true).
Proof.
  destruct small_optimal as (m & Hb & Hopt & _).
  exists m. split; [exact Hb|].
  assert (Hl : square 2 Examples.draw_l)
    by (apply squareb_square; reflexivity).
  assert (Hu : square 2 Examples.draw_u)
    by (apply squareb_square; reflexivity).
  destruct (C7_self_loops 2 Examples.draw_l Examples.draw_u
              Examples.small_l Examples.small_u 0 1 m Examples.small_sol 1
              Hl Hu Hb Hopt ltac:(lia)) as ((Hz & _) & Hon & _).
  split; [exact Hz|]. apply Hon. reflexivity.
Defined.

(** ** Running the notebook *)

Module RunFacts.

Section Runs.

Variables (N : nat) (l u : matrix) (s t : nat).

(** The model of the notebook has binary and continuous variables, so
    the Benders strategy finds something to put in the master and
    something to put in the subproblem. *)
Lemma built_decomposes (m : Model) (p : parameters) :
  build_model N l u s t = Some m -> decomposes m p.
Proof.
  intros Hb _. apply build_model_some in Hb as (Hs & _ & ->).
  cbn [variables]. unfold declared_variables.
  rewrite !existsb_app. split.
  - apply orb_true_iff. left. apply existsb_exists.
    exists (Y s s, Binary). split; [|reflexivity].
    apply in_map_iff. exists (s, s). split; [reflexivity|].
    now apply in_pairs.
  - apply orb_true_iff. right. apply existsb_exists.
    exists (X s, Continuous). split; [|reflexivity].
    apply in_map_iff. exists s. split; [reflexivity|].
    now apply in_range_lt.
Qed.

(** With an optimal assignment at hand both solves can answer with it,
    and then the run completes. *)
Lemma runs_with_optimum (m : Model) (sol : solution) :
  build_model N l u s t = Some m -> optimal m sol ->
  runs N l u s t
       (Completed (objective_value m sol) sol (objective_value m sol) sol).
Proof.
  intros Hb Hopt.
  apply (run_completed N l u s t m); [exact Hb| |];
    (split; [now apply built_decomposes|split; [exact Hopt|reflexivity]]).
Qed.

(** When the model has an optimal assignment the solver never answers
    [INFEASIBLE] or [UNBOUNDED]: it returns an optimal assignment or it
    fails. *)
Lemma solve_answers (m : Model) (sol : solution) (p : parameters)
      (r : solve_result) :
  optimal m sol -> solve m p r ->
  (exists v a, r = OPTIMAL v a /\ optimal m a /\ v = objective_value m sol)
  \/ exists reason, r = ERROR reason.
Proof.
  intros Hopt Hsolve. destruct r as [v a| | |reason]; simpl in Hsolve.
  - left. exists v, a. destruct Hsolve as (_ & Ha & ->).
    split; [reflexivity|]. split; [exact Ha|].
    now apply optimal_value_unique.
  - destruct Hsolve as [_ Hno]. destruct (Hno sol (proj1 Hopt)).
  - destruct Hsolve as (_ & _ & Hno). destruct (Hno sol Hopt).
  - right. now exists reason.
Qed.

(** Once the model is built the only exception left is the assertion
    that follows a solve. *)
Lemma raised_after_solve (m : Model) (e : exn) :
  build_model N l u s t = Some m ->
  runs N l u s t (Raised e) -> e = AssertionError.
Proof.
  intros Hb Hrun.
  inversion Hrun as [Hnone| | |]; subst; try reflexivity.
  congruence.
Qed.

End Runs.

End RunFacts.

Import RunFacts.

(** On the two-node instance whose only arc out of the source is deleted
    the arc [0 -> 1] at the sentinel cost is still the best choice. *)
Lemma cut_optimal :
  exists m, build_model 2 Examples.cut_l Examples.cut_u 0 1 = Some m /\
            optimal m Examples.cut_sol /\
            objective_value m Examples.cut_sol = 0%R.
Proof.
  eexists. split; [reflexivity|].
  apply (certified_optimal 2 Examples.cut_l Examples.cut_u 0 1 0
           [[1]] _ (of_arcs [(0, 1)]) [0; 10000]%Z eq_refl);
    vm_compute; reflexivity.
Qed.

Lemma cut_disconnected :
  ~ path_exists 2 Examples.cut_l 0 1 Examples.M.
Proof.
  intros (w & Hw & Hend & Harcs).
  assert (H : forall w', in_range 2 w' ->
              Forall (fun ij => is_arc Examples.cut_l Examples.M
                                       (fst ij) (snd ij) = true)
                     (arcs_of 0 w') ->
              walk_end 0 w' = 0).
  { induction w' as [|b w' IH]; intros Hr Ha; [reflexivity|].
    apply Forall_cons_iff in Hr as [Hb Hr].
    simpl in Ha. apply Forall_cons_iff in Ha as [Hab Ha].
    rewrite walk_end_cons.
    destruct b as [|[|b]]; [now apply IH|discriminate Hab|lia]. }
  rewrite (H w Hw Harcs) in Hend. discriminate.
Qed.

Lemma cut_nonneg :
  forall i j, i < 2 -> j < 2 ->
    (0 <= mget Examples.cut_l i j)%Z /\ (0 <= mget Examples.cut_u i j)%Z.
Proof. apply nonneg_costs_sound. reflexivity. Qed.

(** ** The recorded run *)

(** The assignment the first solve printed is optimal for the printed
    arrays, with objective 53. *)
Lemma recorded_optimal :
  exists m,
    build_model Recorded.N Recorded.l Recorded.u Recorded.s Recorded.t
    = Some m /\
    optimal m Recorded.msol /\
    objective_value m Recorded.msol = IZR Recorded.reported_objective.
Proof.
  eexists. split; [reflexivity|].
  apply (certified_optimal Recorded.N Recorded.l Recorded.u Recorded.s
           Recorded.t Recorded.reported_objective Recorded.bounding_walks _
           (of_arcs Recorded.msol_arcs) Recorded.msol_X eq_refl);
    vm_compute; reflexivity.
Qed.

(** On the model of the printed arrays every answer of the solver, under
    any parameters, is an optimal assignment with objective 53 or a
    failure. *)
Lemma recorded_answers (p : parameters) (r : solve_result) :
  exists m,
    build_model Recorded.N Recorded.l Recorded.u Recorded.s Recorded.t
    = Some m /\
    (solve m p r ->
     (exists a, r = OPTIMAL 53 a /\ optimal m a) \/
     exists reason, r = ERROR reason).
Proof.
  destruct recorded_optimal as (m & Hb & Hopt & Hval).
  exists m. split; [exact Hb|]. intros Hsolve.
  destruct (solve_answers m Recorded.msol p r Hopt Hsolve)
    as [(v & a & -> & Ha & ->)|Herr]; [left|right; exact Herr].
  exists a. rewrite Hval. split; [reflexivity|exact Ha].
Qed.

(** The printed arrays are an output of the generation cell: draws in the
    ranges of the three [randint] calls lead to them. *)
Lemma recorded_is_generated :
  generate Recorded.N Recorded.M Recorded.drawn_dummy Recorded.drawn_l
           Recorded.drawn_u = (Recorded.l, Recorded.u) /\
  forallb (forallb (fun x => (1 <=? x) && (x <? 10))%Z) Recorded.drawn_l
  = true /\
  forallb (forallb (fun x => (20 <=? x) && (x <? 30))%Z) Recorded.drawn_u
  = true /\
  forallb (forallb (fun x => (0 <=? x) && (x <? 10))%Z) Recorded.drawn_dummy
  = true.
Proof. repeat split; vm_compute; reflexivity. Qed.

(** "number of variables: 420 - binary=400, continuous=20" and
    "number of constraints: 421". *)
Lemma recorded_model_size :
  exists m,
    build_model Recorded.N Recorded.l Recorded.u Recorded.s Recorded.t
    = Some m /\
    length (variables m) = 420 /\
    length (filter (fun d => match snd d with Binary => true
                                            | Continuous => false end)
                   (variables m)) = 400 /\
    length (constraints m) = 421.
Proof.
  eexists. split; [reflexivity|]. vm_compute. auto.
Qed.

(** In the recorded optimal assignment several labels are below the
    shortest distance of their node: node 5 is one arc away from the
    source, at distance 2, and its label is 0. *)
Lemma recorded_labels_not_distances :
  is_arc Recorded.l Recorded.M 0 5 = true /\
  distance Recorded.N
           (effective_cost Recorded.l Recorded.u (Yval Recorded.msol))
           Recorded.s 5 = Some 2%Z /\
  Xval Recorded.msol 5 = 0%R /\
  distance Recorded.N
           (effective_cost Recorded.l Recorded.u (Yval Recorded.msol))
           Recorded.s Recorded.t = Some 12%Z /\
  Xval Recorded.msol Recorded.t = 12%R.
Proof.
  split; [reflexivity|]. split; [vm_compute; reflexivity|].
  split; [reflexivity|]. split; [vm_compute; reflexivity|]. reflexivity.
Qed.

(** ** The graph with a single arc *)

Module SingleArcFacts.

Lemma sumZ_pos_exists (f : nat -> Z) (xs : list nat) :
  (0 < sumZ f xs)%Z -> exists x, In x xs /\ (0 < f x)%Z.
Proof.
  induction xs as [|x xs IH]; simpl; [lia|]. intros H.
  destruct (Z_lt_le_dec 0 (f x)) as [Hx|Hx].
  - exists x. auto.
  - destruct IH as (y & Hy & Hfy); [lia|]. exists y. auto.
Qed.

(** Flow conservation at the source forces an arc that leaves it. *)
Lemma source_leaves (N : nat) (yv : scenario) (s : nat) :
  s < N -> net_outflow N yv s = 1%Z ->
  exists k, k < N /\ k <> s /\ yv s k = true.
Proof.
  intros Hs Hflow. unfold net_outflow in Hflow.
  set (f := fun k => if (k =? s)%nat then 0%Z else b2z (yv s k)).
  assert (Hout : sumZ (fun k => b2z (yv s k)) (range N)
                 = (sumZ f (range N) + b2z (yv s s))%Z).
  { rewrite (sumZ_point (fun k => b2z (yv s k)) f N s Hs).
    - unfold f. rewrite Nat.eqb_refl. lia.
    - intros k _ Hk. unfold f.
      destruct (Nat.eqb_spec k s); [contradiction|reflexivity]. }
  assert (Hin : (b2z (yv s s) <= sumZ (fun i => b2z (yv i s)) (range N))%Z).
  { apply (sumZ_term nat (fun i => b2z (yv i s)) (range N) s).
    - intros b _. apply b2z_range.
    - now apply in_range_lt. }
  destruct (sumZ_pos_exists f (range N)) as (k & Hk & Hfk); [lia|].
  exists k. apply in_range_lt in Hk. unfold f in Hfk.
  destruct (Nat.eqb_spec k s); [lia|].
  split; [exact Hk|]. split; [assumption|].
  destruct (yv s k); [reflexivity|simpl in Hfk; lia].
Qed.

Section SingleArc.

Variables (N : nat) (l u : matrix) (s t : nat) (M lo up : Z).

Hypothesis graph : single_arc_graph N l u s t M lo up.

Lemma single_arc_costs (i j : nat) :
  i < N -> j < N ->
  (0 <= mget l i j)%Z /\ (0 <= mget u i j)%Z /\
  ((i, j) <> (s, t) -> i <> j -> mget l i j = M /\ mget u i j = M).
Proof.
  destruct graph as (Hs & Ht & Hst & Hlo & Hup & Hl & Hu & Hdiag & Hoff).
  intros Hi Hj.
  destruct (Nat.eq_dec i j) as [->|Hij].
  - destruct (Hdiag j Hj) as [Heq Hcase]. rewrite <- Heq.
    split; [destruct Hcase as [->| ->]; lia|].
    split; [destruct Hcase as [->| ->]; lia|].
    intros _ H. contradiction.
  - destruct (Nat.eq_dec i s) as [->|His].
    + destruct (Nat.eq_dec j t) as [->|Hjt].
      * rewrite Hl, Hu. split; [lia|]. split; [lia|].
        intros H. contradiction.
      * destruct (Hoff s j Hi Hj Hij) as [-> ->];
          [intros H; inversion H; contradiction|].
        split; [lia|]. split; [lia|]. auto.
    + destruct (Hoff i j Hi Hj Hij) as [-> ->];
        [intros H; inversion H; contradiction|].
      split; [lia|]. split; [lia|]. auto.
Qed.

Lemma single_arc_l_nonneg (i j : nat) :
  i < N -> j < N -> (0 <= mget l i j)%Z.
Proof. intros Hi Hj. now destruct (single_arc_costs i j Hi Hj). Qed.

Lemma single_arc_u_nonneg (i j : nat) :
  i < N -> j < N -> (0 <= mget u i j)%Z.
Proof. intros Hi Hj. now destruct (single_arc_costs i j Hi Hj) as (_ & H & _). Qed.

(** No scenario that conserves flow has a negative regret. *)
Lemma single_arc_regret_nonneg (yv : scenario) :
  conserves N s t yv -> (0 <= regret N l u s t yv)%Z.
Proof.
  intros (Hfs & _).
  destruct graph as (Hs & Ht & Hst & Hlo & Hup & Hl & Hu & Hdiag & Hoff).
  destruct (source_leaves N yv s Hs Hfs) as (k & Hk & Hks & Hy).
  assert (Hw : in_range N [t]) by (constructor; [exact Ht|constructor]).
  pose proof (scenario_distance_below N l u s t single_arc_l_nonneg
                single_arc_u_nonneg Hs Ht yv [t] Hw eq_refl) as Hd.
  cbn [walk_cost] in Hd. unfold effective_cost in Hd. rewrite Hl, Hu in Hd.
  pose proof (upper_cost_selected N u yv s k single_arc_u_nonneg Hs Hk Hy)
    as Hsel.
  unfold regret.
  destruct (Nat.eq_dec k t) as [->|Hkt].
  - rewrite Hy, Hu in *. lia.
  - destruct (Hoff s k Hs Hk (fun H => Hks (eq_sym H))) as [_ HuM].
    { intros H. inversion H. contradiction. }
    rewrite HuM in Hsel. destruct (yv s t); lia.
Qed.

(** Under the scenario that selects the arc the destination is at
    distance [up]. *)
Lemma single_arc_distance :
  scenario_distance N l u s t (single_arc s t) = up.
Proof.
  destruct graph as (Hs & Ht & Hst & Hlo & Hup & Hl & Hu & Hdiag & Hoff).
  assert (Hw : in_range N [t]) by (constructor; [exact Ht|constructor]).
  pose proof (scenario_distance_below N l u s t single_arc_l_nonneg
                single_arc_u_nonneg Hs Ht (single_arc s t) [t] Hw eq_refl)
    as Hd.
  assert (Hsel : single_arc s t s t = true) by apply set_arc_same.
  cbn [walk_cost] in Hd. unfold effective_cost in Hd.
  rewrite Hsel, Hu in Hd.
  set (sol := mkSolution (single_arc s t)
                (fun j => if j =? t then IZR up else 0%R)).
  assert (Hadm : admissible N l u s t sol).
  { unfold admissible, sol. cbn [Xval Yval].
    split; [|split; [|split]].
    - intros j _. destruct (j =? t); [apply IZR_le; lia|lra].
    - destruct (Nat.eqb_spec s t); [contradiction|reflexivity].
    - intros i j Hi Hj.
      pose proof (effective_cost_nonneg N l u single_arc_l_nonneg
                    single_arc_u_nonneg (single_arc s t) i j Hi Hj) as Hc.
      apply IZR_le in Hc.
      assert (Hup0 : (0 <= IZR up)%R) by (apply IZR_le; lia).
      destruct (Nat.eqb_spec j t) as [->|Hjt].
      + destruct (Nat.eqb_spec i t) as [->|Hit]; [lra|].
        destruct (Nat.eq_dec i s) as [->|His].
        * unfold effective_cost, single_arc. rewrite set_arc_same, Hu. lra.
        * unfold effective_cost, single_arc.
          rewrite set_arc_other by auto. unfold no_arcs.
          destruct (Hoff i t Hi Hj Hit) as [-> _];
            [intros H; inversion H; contradiction|].
          apply IZR_le in Hup. lra.
      + destruct (i =? t); lra.
    - now apply single_arc_conserves. }
  destruct (label_below_distance N l u s t single_arc_l_nonneg
              single_arc_u_nonneg Hs sol t Hadm Ht) as (v & Hv & Hle).
  unfold sol in Hv, Hle. cbn [Xval Yval] in Hv, Hle.
  rewrite Nat.eqb_refl in Hle. apply le_IZR in Hle.
  rewrite (scenario_distance_spec N l u s t single_arc_l_nonneg
             single_arc_u_nonneg Hs Ht) in Hv.
  injection Hv as Hv. lia.
Qed.

Lemma single_arc_regret : regret N l u s t (single_arc s t) = 0%Z.
Proof.
  destruct graph as (Hs & Ht & _ & _ & _ & _ & Hu & _).
  unfold regret. rewrite single_arc_distance, upper_cost_single_arc, Hu
    by assumption. lia.
Qed.

Variable m : Model.
Hypothesis built : build_model N l u s t = Some m.

(** Selecting the arc, with the shortest distances as labels, is
    optimal: the destination's label is [up] and the objective is
    [up - up = 0]; every optimal assignment has objective 0. *)
Theorem single_arc_optimum :
  let sol := mkSolution (single_arc s t)
               (potentials N (effective_cost l u (single_arc s t)) s) in
  optimal m sol /\
  IZR (upper_cost N u (Yval sol)) = IZR up /\
  Xval sol t = IZR up /\
  objective_value m sol = (IZR up - IZR up)%R /\
  forall sol', optimal m sol' -> objective_value m sol' = 0%R.
Proof.
  destruct graph as (Hs & Ht & Hst & _ & _ & _ & Hu & _).
  cbv zeta.
  assert (Hopt : optimal m
            (mkSolution (single_arc s t)
               (potentials N (effective_cost l u (single_arc s t)) s))).
  { apply (best_scenario_optimal N l u s t single_arc_l_nonneg
             single_arc_u_nonneg Hs Ht m built).
    - now apply single_arc_conserves.
    - intros yv' Hflow. rewrite single_arc_regret.
      now apply single_arc_regret_nonneg. }
  assert (Hval : objective_value m
            (mkSolution (single_arc s t)
               (potentials N (effective_cost l u (single_arc s t)) s))
            = 0%R).
  { rewrite (objective_potentials N l u s t single_arc_l_nonneg
               single_arc_u_nonneg Hs Ht m built), single_arc_regret.
    reflexivity. }
  split; [exact Hopt|]. cbn [Xval Yval].
  split; [now rewrite upper_cost_single_arc, Hu|].
  split.
  - unfold potentials.
    rewrite (scenario_distance_spec N l u s t single_arc_l_nonneg
               single_arc_u_nonneg Hs Ht), single_arc_distance.
    reflexivity.
  - split; [rewrite Hval; lra|].
    intros sol' Hopt'. rewrite <- Hval.
    now apply optimal_value_unique.
Qed.

End SingleArc.

End SingleArcFacts.

Import SingleArcFacts.

Lemma solo_graph :
  single_arc_graph 2 Examples.solo_l Examples.solo_u 0 1 Examples.M 4 21.
Proof.
  unfold single_arc_graph.
  split; [lia|]. split; [lia|]. split; [lia|].
  split; [lia|]. split; [unfold Examples.M; lia|].
  split; [reflexivity|]. split; [reflexivity|]. split.
  - intros [|[|i]] Hi; [split; [reflexivity|now left]
                      |split; [reflexivity|now left]|lia].
  - intros [|[|i]] [|[|j]] Hi Hj Hij Hst; try lia;
      [exfalso; now apply Hst|split; reflexivity].
Qed.

(** On that graph the optimal objective is [21 - 21 = 0]. *)
Lemma solo_optimum :
  exists m, build_model 2 Examples.solo_l Examples.solo_u 0 1 = Some m /\
    forall sol, optimal m sol -> objective_value m sol = 0%R.
Proof.
  eexists. split; [reflexivity|].
  apply (single_arc_optimum 2 Examples.solo_l Examples.solo_u 0 1
           Examples.M 4 21 solo_graph _ eq_refl).
Qed.

(** On the four-node graph of the first test scenario the least regret is
    7, reached by the path [0 -> 1 -> 3]: it costs 10 at the upper
    bounds, while the other path gets the destination to distance 3. *)
Lemma toy_optimum :
  exists m, build_model 4 Examples.toy_l Examples.toy_u 0 3 = Some m /\
            optimal m Examples.toy_sol /\
            objective_value m Examples.toy_sol = 7%R.
Proof.
  eexists. split; [reflexivity|].
  apply (certified_optimal 4 Examples.toy_l Examples.toy_u 0 3 7
           [[1; 3]; [2; 3]] _ (of_arcs [(0, 1); (1, 3)]) [0; 1; 2; 3]%Z
           eq_refl);
    vm_compute; reflexivity.
Qed.

(* ================================================================== *)
(** * Further properties of the generation and of the model *)
(* ================================================================== *)

(** ** What the generation cell leaves in the arrays *)

(** X1. The generated arrays are [N] by [N] and every pair of bounds is
    ordered: when the drawn bounds satisfy [0 <= l0 <= u0] and the
    sentinel is not negative, every cell ends with [0 <= l <= u]; a cell
    holds the sentinel twice, or 0 twice on the diagonal, or its two
    draws. *)
Theorem generate_bounds_ordered (N : nat) (M : Z) (dummy l0 u0 : matrix) :
  square N l0 -> square N u0 -> (0 <= M)%Z ->
  (forall i j, i < N -> j < N ->
     (0 <= mget l0 i j <= mget u0 i j)%Z) ->
  square N (fst (generate N M dummy l0 u0)) /\
  square N (snd (generate N M dummy l0 u0)) /\
  forall i j, i < N -> j < N ->
    (0 <= mget (fst (generate N M dummy l0 u0)) i j
       <= mget (snd (generate N M dummy l0 u0)) i j)%Z /\
    ((mget (fst (generate N M dummy l0 u0)) i j = M /\
      mget (snd (generate N M dummy l0 u0)) i j = M) \/
     (i = j /\
      mget (fst (generate N M dummy l0 u0)) i j = 0%Z /\
      mget (snd (generate N M dummy l0 u0)) i j = 0%Z) \/
     (i <> j /\
      mget (fst (generate N M dummy l0 u0)) i j = mget l0 i j /\
      mget (snd (generate N M dummy l0 u0)) i j = mget u0 i j)).
Proof.
  intros Hl Hu HM Hdraw. rewrite generate_split. cbn [fst snd].
  destruct (zero1_spec N (range N) l0 Hl (range_lt N)) as [Hzl _].
  destruct (zero1_spec N (range N) u0 Hu (range_lt N)) as [Hzu _].
  destruct (del1_spec N M dummy (range N) (range N) _ Hzl (range_lt N)
                      (range_lt N)) as [Hsl _].
  destruct (del1_spec N M dummy (range N) (range N) _ Hzu (range_lt N)
                      (range_lt N)) as [Hsu _].
  split; [exact Hsl|]. split; [exact Hsu|].
  intros i j Hi Hj. rewrite !generate1_spec by assumption.
  specialize (Hdraw i j Hi Hj).
  destruct (deleted (mget dummy i j)).
  - split; [lia|]. left. auto.
  - destruct (Nat.eqb_spec i j) as [Hij|Hij].
    + split; [lia|]. right. left. auto.
    + split; [lia|]. right. right. auto.
Qed.

Lemma generate_bounds_ordered_witness :
  square 2 Examples.small_l /\ square 2 Examples.small_u /\
  (0 <= mget Examples.small_l 0 1 <= mget Examples.small_u 0 1)%Z.
Proof.
  assert (Hl : square 2 Examples.draw_l)
    by (apply squareb_square; reflexivity).
  assert (Hu : square 2 Examples.draw_u)
    by (apply squareb_square; reflexivity).
  assert (Hd : forall i j, i < 2 -> j < 2 ->
             (0 <= mget Examples.draw_l i j <= mget Examples.draw_u i j)%Z).
  { intros [|[|i]] [|[|j]] Hi Hj; try lia; vm_compute; split; discriminate. }
  destruct (generate_bounds_ordered 2 Examples.M Examples.draw_dummy
              Examples.draw_l Examples.draw_u Hl Hu ltac:(unfold Examples.M; lia)
              Hd) as (H1 & H2 & H3).
  split; [exact H1|]. split; [exact H2|].
  apply (H3 0 1); lia.
Defined.

(** X2. After the generation cell a self-loop [(i, i)] has both bounds 0
    when [dummy[i][i]] is zero and both bounds at the sentinel otherwise:
    the deletion loop runs over [i = j] too and overwrites the diagonal
    that the first loop had zeroed. *)
Theorem generate_self_loops (N : nat) (M : Z) (dummy l0 u0 : matrix)
        (i : nat) :
  square N l0 -> square N u0 -> i < N ->
  (mget dummy i i = 0%Z ->
   mget (fst (generate N M dummy l0 u0)) i i = 0%Z /\
   mget (snd (generate N M dummy l0 u0)) i i = 0%Z) /\
  (mget dummy i i <> 0%Z ->
   mget (fst (generate N M dummy l0 u0)) i i = M /\
   mget (snd (generate N M dummy l0 u0)) i i = M).
Proof.
  intros Hl Hu Hi.
  destruct (generate_diagonal N M dummy l0 u0 i Hl Hu Hi) as [-> ->].
  unfold deleted. split; intros Hd.
  - rewrite Hd. simpl. auto.
  - apply Z.eqb_neq in Hd. rewrite Hd. simpl. auto.
Qed.

Lemma generate_self_loops_witness :
  (mget Examples.draw_dummy 1 1 = 0%Z ->
   mget Examples.small_l 1 1 = 0%Z /\ mget Examples.small_u 1 1 = 0%Z) /\
  (mget Examples.draw_dummy 0 0 <> 0%Z ->
   mget Examples.small_l 0 0 = Examples.M /\
   mget Examples.small_u 0 0 = Examples.M).
Proof.
  assert (Hl : square 2 Examples.draw_l)
    by (apply squareb_square; reflexivity).
  assert (Hu : square 2 Examples.draw_u)
    by (apply squareb_square; reflexivity).
  split.
  - apply (generate_self_loops 2 Examples.M Examples.draw_dummy
             Examples.draw_l Examples.draw_u 1 Hl Hu). lia.
  - apply (generate_self_loops 2 Examples.M Examples.draw_dummy
             Examples.draw_l Examples.draw_u 0 Hl Hu). lia.
Defined.

(** ** Size of the model *)

Module SizeFacts.

Lemma filter_map_all (A B : Type) (p : B -> bool) (f : A -> B)
      (xs : list A) :
  (forall x, p (f x) = true) -> filter p (map f xs) = map f xs.
Proof.
  intros H. induction xs as [|x xs IH]; simpl; [reflexivity|].
  now rewrite H, IH.
Qed.

Lemma filter_map_none (A B : Type) (p : B -> bool) (f : A -> B)
      (xs : list A) :
  (forall x, p (f x) = false) -> filter p (map f xs) = [].
Proof.
  intros H. induction xs as [|x xs IH]; simpl; [reflexivity|].
  now rewrite H, IH.
Qed.

Lemma length_intermediate_list (s t : nat) (xs : list nat) :
  s <> t -> NoDup xs ->
  length (filter (fun j => negb (j =? s) && negb (j =? t)) xs)
  + b2n (existsb (Nat.eqb s) xs) + b2n (existsb (Nat.eqb t) xs)
  = length xs.
Proof.
  intros Hst. induction xs as [|x xs IH]; intros Hnd; [reflexivity|].
  inversion Hnd as [|? ? Hx Hnd']; subst. specialize (IH Hnd').
  assert (Hnot : forall a, a = x -> existsb (Nat.eqb a) xs = false).
  { intros a ->. destruct (existsb (Nat.eqb x) xs) eqn:E; [|reflexivity].
    apply existsb_exists in E as (y & Hy & Heq).
    apply Nat.eqb_eq in Heq. subst. contradiction. }
  simpl.
  destruct (Nat.eqb_spec x s) as [Hxs|Hxs].
  - subst x. rewrite Nat.eqb_refl. simpl.
    destruct (Nat.eqb_spec t s) as [Hts|_]; [congruence|]. simpl.
    rewrite (Hnot s eq_refl) in IH. simpl in IH. lia.
  - destruct (Nat.eqb_spec x t) as [Hxt|Hxt].
    + subst x. rewrite Nat.eqb_refl. simpl.
      destruct (Nat.eqb_spec s t) as [|_]; [contradiction|]. simpl.
      rewrite (Hnot t eq_refl) in IH. simpl in IH. lia.
    + simpl.
      destruct (Nat.eqb_spec s x) as [|_]; [congruence|].
      destruct (Nat.eqb_spec t x) as [|_]; [congruence|]. simpl. lia.
Qed.

Lemma length_intermediate (N s t : nat) :
  s < N -> t < N -> s <> t -> length (intermediate N s t) + 2 = N.
Proof.
  intros Hs Ht Hst. unfold intermediate.
  pose proof (length_intermediate_list s t (range N) Hst (seq_NoDup N 0))
    as H.
  rewrite !existsb_range in H by assumption. simpl in H.
  unfold range in H at 2. rewrite length_seq in H. lia.
Qed.

End SizeFacts.

Import SizeFacts.

(** X3. For two distinct nodes [s] and [t] the model has [N * N] binary
    and [N] continuous variables and [N * N + N + 1] constraints: the
    source constraint, one distance constraint per ordered pair and one
    flux constraint per node. *)
Theorem model_size (N : nat) (l u : matrix) (s t : nat) (m : Model) :
  build_model N l u s t = Some m -> s <> t ->
  length (variables m) = N * N + N /\
  length (filter (fun d => match snd d with
                           | Binary => true
                           | Continuous => false
                           end) (variables m)) = N * N /\
  length (filter (fun d => match snd d with
                           | Binary => false
                           | Continuous => true
                           end) (variables m)) = N /\
  length (flux_constraints N s t) = N /\
  length (constraints m) = N * N + N + 1.
Proof.
  intros Hb Hst. apply build_model_some in Hb as (Hs & Ht & ->).
  cbn [variables constraints]. unfold declared_variables.
  pose proof (length_intermediate N s t Hs Ht Hst) as Hmid.
  assert (Hflux : length (flux_constraints N s t) = N).
  { unfold flux_constraints. cbn [length]. rewrite length_map. lia. }
  split; [|split; [|split; [|split]]].
  - rewrite length_app, !length_map, length_pairs.
    unfold range. now rewrite length_seq.
  - rewrite filter_app, length_app.
    rewrite filter_map_all, filter_map_none by reflexivity.
    rewrite length_map, length_pairs. simpl. lia.
  - rewrite filter_app, length_app.
    rewrite filter_map_none, filter_map_all by reflexivity.
    rewrite length_map. unfold range. now rewrite length_seq.
  - exact Hflux.
  - cbn [length]. rewrite length_app, Hflux.
    unfold distance_constraints. rewrite length_map, length_pairs. lia.
Qed.

Lemma model_size_witness :
  exists m, build_model 3 Examples.tri_l Examples.tri_u 0 1 = Some m /\
    length (variables m) = 12 /\ length (constraints m) = 13.
Proof.
  eexists. split; [reflexivity|].
  destruct (model_size 3 Examples.tri_l Examples.tri_u 0 1 _ eq_refl
              ltac:(lia)) as (Hv & _ & _ & _ & Hc).
  split; [exact Hv|exact Hc].
Defined.

(** ** Source and destination, and the flux constraints *)

(** X4. When source and destination are the same node the two flux
    constraints of that node contradict each other: no assignment is
    feasible, the first solve returns nothing and the run stops on the
    assertion "model can't solve", whatever the arrays hold. *)
Theorem same_endpoints_fail (N : nat) (l u : matrix) (s : nat) (m : Model) :
  build_model N l u s s = Some m ->
  (forall sol, ~ feasible m sol) /\
  runs N l u s s (Raised AssertionError) /\
  (forall o, runs N l u s s o -> o = Raised AssertionError).
Proof.
  intros Hb.
  assert (Hinf : forall sol, ~ feasible m sol).
  { intros sol Hf. apply (feasible_iff N l u s s m sol Hb) in Hf.
    destruct Hf as (_ & _ & _ & H1 & H2 & _). lia. }
  split; [exact Hinf|]. split.
  - apply (run_first_assert N l u s s m INFEASIBLE Hb); [|exact I].
    split; [discriminate|exact Hinf].
  - intros o Hrun.
    inversion Hrun as [Hnone|m' r Hb' _ _|m' v1 a1 r Hb' _ _ _
                      |m' v1 a1 v2 a2 Hb' (_ & [Hf _] & _) _]; subst;
      try reflexivity.
    + congruence.
    + rewrite Hb in Hb'. injection Hb' as <-. destruct (Hinf _ Hf).
Qed.

Lemma same_endpoints_fail_witness :
  runs 2 Examples.small_l Examples.small_u 1 1 (Raised AssertionError).
Proof.
  exact (proj1 (proj2 (same_endpoints_fail 2 Examples.small_l
                         Examples.small_u 1 _ eq_refl))).
Defined.

Module FlowFacts.

Lemma sumZ_swap (A B : Type) (F : A -> B -> Z) (xs : list A) (ys : list B) :
  sumZ (fun a => sumZ (fun b => F a b) ys) xs
  = sumZ (fun b => sumZ (fun a => F a b) xs) ys.
Proof.
  induction xs as [|x xs IH]; simpl.
  - now rewrite sumZ_zero.
  - rewrite IH, sumZ_plus. reflexivity.
Qed.

Lemma sumZ_scale (A : Type) (c : Z) (f : A -> Z) (xs : list A) :
  (c * sumZ f xs)%Z = sumZ (fun a => (c * f a)%Z) xs.
Proof.
  induction xs as [|x xs IH]; simpl; [lia|]. rewrite <- IH. lia.
Qed.

(** A sum over the nodes whose terms vanish away from [a] and [b]. *)
Lemma sumZ_two_points (f : nat -> Z) (n a b : nat) :
  a < n -> b < n -> a <> b ->
  (forall k, k < n -> k <> a -> k <> b -> f k = 0%Z) ->
  sumZ f (range n) = (f a + f b)%Z.
Proof.
  intros Ha Hb Hab Hz.
  rewrite (sumZ_point f (fun k => if (k =? a)%nat then 0%Z else f k) n a Ha).
  - rewrite (sumZ_point (fun k => if (k =? a)%nat then 0%Z else f k)
                        (fun _ => 0%Z) n b Hb).
    + rewrite sumZ_zero, Nat.eqb_refl.
      destruct (Nat.eqb_spec b a); [congruence|]. lia.
    + intros k Hk Hkb. destruct (Nat.eqb_spec k a); [reflexivity|].
      now apply Hz.
  - intros k _ Hka. destruct (Nat.eqb_spec k a); [contradiction|reflexivity].
Qed.

(** Every selected pair leaves one node and enters one: over all nodes
    the net outflows cancel. *)
Lemma total_outflow (N : nat) (yv : scenario) :
  sumZ (net_outflow N yv) (range N) = 0%Z.
Proof.
  unfold net_outflow. rewrite sumZ_minus.
  rewrite (sumZ_swap nat nat (fun v i => b2z (yv i v))). lia.
Qed.

End FlowFacts.

Import FlowFacts.

(** X5. The flux constraint of the destination is implied by the others:
    when the flux constraint of the source and those of the intermediate
    nodes hold, the one of the destination holds too. *)
Theorem destination_flux_redundant (N s t : nat) (sol : solution) :
  s < N -> t < N -> s <> t ->
  holds sol (Eq (flux N s) (Const 1)) ->
  Forall (holds sol)
         (map (fun j => Eq (flux N j) (Const 0)) (intermediate N s t)) ->
  holds sol (Eq (flux N t) (Const (-1))).
Proof.
  intros Hs Ht Hst Hsrc Hmid.
  apply holds_flux_eq in Hsrc. apply holds_flux_eq.
  rewrite Forall_map, Forall_forall in Hmid.
  pose proof (total_outflow N (Yval sol)) as Htot.
  rewrite (sumZ_two_points (net_outflow N (Yval sol)) N s t Hs Ht Hst)
    in Htot; [lia|].
  intros k Hk Hks Hkt. apply holds_flux_eq, Hmid, in_intermediate. tauto.
Qed.

Lemma destination_flux_redundant_witness :
  holds Examples.small_sol (Eq (flux 2 1) (Const (-1))).
Proof.
  apply (destination_flux_redundant 2 0 1 Examples.small_sol); try lia.
  - apply holds_flux_eq. reflexivity.
  - simpl. constructor.
Defined.

(** ** Selections and paths *)

Module PathFacts.

Lemma of_arcs_on (arcs : list (nat * nat)) (i j : nat) :
  of_arcs arcs i j = existsb (pair_eqb (i, j)) arcs.
Proof.
  unfold of_arcs, pair_eqb. simpl.
  induction arcs as [|a arcs IH]; simpl; [reflexivity|].
  now rewrite IH, (Nat.eqb_sym (fst a) i), (Nat.eqb_sym (snd a) j).
Qed.

Lemma arcs_of_tails (a : nat) (w : list nat) (x y : nat) :
  In (x, y) (arcs_of a w) -> In x (a :: w) /\ In y w.
Proof.
  revert a; induction w as [|b w IH]; intros a H; simpl in H; [destruct H|].
  destruct H as [H|H].
  - inversion H; subst. split; simpl; auto.
  - destruct (IH b H) as [H1 H2]. split; simpl; auto.
Qed.

(** A walk that repeats no node repeats no arc. *)
Lemma simple_walk_arcs (a : nat) (w : list nat) :
  NoDup (a :: w) -> nodupb (arcs_of a w) = true.
Proof.
  revert a; induction w as [|b w IH]; intros a Hnd; [reflexivity|].
  inversion Hnd as [|? ? Ha Hnd']; subst. simpl.
  rewrite (IH b Hnd'), andb_true_r. apply negb_true_iff.
  destruct (existsb (pair_eqb (a, b)) (arcs_of b w)) eqn:E; [|reflexivity].
  apply existsb_exists in E as ([x y] & Hin & Heq).
  apply pair_eqb_eq in Heq. inversion Heq; subst.
  apply arcs_of_tails in Hin as [Hin _]. contradiction.
Qed.

(** Along a walk, what leaves a node and what enters it cancel except at
    the two ends. *)
Lemma walk_balance (v a : nat) (w : list nat) :
  sumZ (fun ij => ((if (fst ij =? v)%nat then 1 else 0)
                   - (if (snd ij =? v)%nat then 1 else 0))%Z) (arcs_of a w)
  = ((if (a =? v)%nat then 1 else 0)
     - (if (walk_end a w =? v)%nat then 1 else 0))%Z.
Proof.
  revert a; induction w as [|b w IH]; intros a.
  - unfold walk_end. simpl. lia.
  - cbn [arcs_of sumZ fold_right fst snd]. fold (sumZ (fun ij =>
      ((if (fst ij =? v)%nat then 1 else 0)
       - (if (snd ij =? v)%nat then 1 else 0))%Z) (arcs_of b w)).
    rewrite IH, walk_end_cons. lia.
Qed.

Section Paths.

Variables (N : nat) (l u : matrix) (s t : nat).

Hypothesis s_node : s < N.
Hypothesis t_node : t < N.

Lemma net_outflow_of_arcs (arcs : list (nat * nat)) (v : nat) :
  nodupb arcs = true ->
  Forall (fun ij => fst ij < N /\ snd ij < N) arcs -> v < N ->
  net_outflow N (of_arcs arcs) v
  = sumZ (fun ij => ((if (fst ij =? v)%nat then 1 else 0)
                     - (if (snd ij =? v)%nat then 1 else 0))%Z) arcs.
Proof.
  intros Hnd Hr Hv. rewrite <- (flow_pairs N (of_arcs arcs) v Hv).
  rewrite <- (sumZ_pairs_on N arcs _ Hnd Hr). unfold flow.
  apply sumZ_ext. intros [i j] _. cbn [fst snd].
  rewrite of_arcs_on.
  destruct (existsb (pair_eqb (i, j)) arcs); unfold b2z;
    destruct (i =? v)%nat, (j =? v)%nat; lia.
Qed.

Lemma upper_cost_of_arcs (arcs : list (nat * nat)) :
  nodupb arcs = true ->
  Forall (fun ij => fst ij < N /\ snd ij < N) arcs ->
  upper_cost N u (of_arcs arcs)
  = sumZ (fun ij => mget u (fst ij) (snd ij)) arcs.
Proof.
  intros Hnd Hr. rewrite upper_cost_pairs.
  rewrite <- (sumZ_pairs_on N arcs _ Hnd Hr).
  apply sumZ_ext. intros [i j] _. cbn [fst snd].
  rewrite of_arcs_on.
  destruct (existsb (pair_eqb (i, j)) arcs); unfold b2z; lia.
Qed.

(** Selecting the arcs of a path conserves flow. *)
Lemma path_conserves (w : list nat) :
  s <> t -> simple_path N s t w -> conserves N s t (path_scenario s w).
Proof.
  intros Hst (Hr & Hend & Hnd). unfold conserves, path_scenario.
  pose proof (simple_walk_arcs s w Hnd) as Harcs.
  pose proof (arcs_in_range N s w s_node Hr) as Hin.
  split; [|split].
  - rewrite net_outflow_of_arcs, walk_balance, Hend, Nat.eqb_refl
      by assumption.
    destruct (Nat.eqb_spec t s); [congruence|]. lia.
  - rewrite net_outflow_of_arcs, walk_balance, Hend, Nat.eqb_refl
      by assumption.
    destruct (Nat.eqb_spec s t); [congruence|]. lia.
  - intros j Hj Hjs Hjt.
    rewrite net_outflow_of_arcs, walk_balance, Hend by assumption.
    destruct (Nat.eqb_spec s j); [congruence|].
    destruct (Nat.eqb_spec t j); [congruence|]. lia.
Qed.

Lemma path_upper_cost (w : list nat) :
  simple_path N s t w ->
  upper_cost N u (path_scenario s w) = path_upper u s w.
Proof.
  intros (Hr & _ & Hnd). unfold path_scenario, path_upper.
  rewrite upper_cost_of_arcs, walk_cost_arcs.
  - reflexivity.
  - now apply simple_walk_arcs.
  - now apply arcs_in_range.
Qed.

Lemma path_regret_eq (w : list nat) :
  simple_path N s t w ->
  regret N l u s t (path_scenario s w) = path_regret N l u s t w.
Proof.
  intros Hw. unfold regret, path_regret. now rewrite path_upper_cost.
Qed.

(** *** A selection that conserves flow contains a path *)

Lemma selection_cost_nonneg (yv : scenario) (i j : nat) :
  i < N -> j < N -> (0 <= selection_cost yv i j)%Z.
Proof. intros _ _. unfold selection_cost. destruct (yv i j); lia. Qed.

(** Nodes that selected arcs reach from the source. *)
Lemma reached_closed (yv : scenario) (v k : nat) :
  v < N -> k < N -> yv v k = true ->
  distance N (selection_cost yv) s v = Some 0%Z ->
  distance N (selection_cost yv) s k = Some 0%Z.
Proof.
  intros Hv Hk Hy Hd.
  destruct (distance_triangle N _ s (selection_cost_nonneg yv) s_node
              v k 0 Hv Hk Hd) as (vk & Hvk & Hle).
  destruct (distance_defined N _ s (selection_cost_nonneg yv) s_node k Hk)
    as (vk' & Hvk' & Hpos).
  rewrite Hvk in Hvk'. injection Hvk' as <-.
  unfold selection_cost in Hle. rewrite Hy in Hle.
  rewrite Hvk. f_equal. lia.
Qed.

Lemma free_walk_selected (yv : scenario) (a : nat) (w : list nat) :
  a < N -> in_range N w ->
  walk_cost (selection_cost yv) a w = 0%Z ->
  Forall (fun ij => yv (fst ij) (snd ij) = true) (arcs_of a w).
Proof.
  revert a; induction w as [|b w IH]; intros a Ha Hr Hc; [constructor|].
  apply Forall_cons_iff in Hr as [Hb Hr]. cbn [walk_cost] in Hc.
  pose proof (selection_cost_nonneg yv a b Ha Hb) as H1.
  pose proof (walk_cost_nonneg N _ s (selection_cost_nonneg yv) s_node
                b w Hb Hr) as H2.
  simpl. constructor.
  - cbn [fst snd]. unfold selection_cost in *.
    destruct (yv a b); [reflexivity|lia].
  - apply IH; [exact Hb|exact Hr|lia].
Qed.

Lemma selected_path (yv : scenario) :
  conserves N s t yv ->
  exists w, simple_path N s t w /\
            Forall (fun ij => yv (fst ij) (snd ij) = true) (arcs_of s w).
Proof.
  intros (Hfs & Hft & Hmid).
  assert (Hst : s <> t) by (intros ->; lia).
  set (c := selection_cost yv).
  set (chi := fun v => match distance N c s v with
                       | Some 0%Z => 1%Z
                       | _ => 0%Z
                       end).
  assert (Hchi : forall v, chi v = 0%Z \/
                           (chi v = 1%Z /\ distance N c s v = Some 0%Z)).
  { intros v. unfold chi. destruct (distance N c s v) as [[| |]|]; auto. }
  assert (Hchi_s : chi s = 1%Z).
  { unfold chi, c.
    now rewrite (distance_source N _ s (selection_cost_nonneg yv) s_node). }
  (* no selected arc leaves the reached nodes *)
  assert (Hterm : forall v k, v < N -> k < N ->
            ((chi v - chi k) * b2z (yv v k) <= 0)%Z).
  { intros v k Hv Hk.
    destruct (yv v k) eqn:Hy; simpl; [|lia].
    destruct (Hchi v) as [Hv0|[Hv1 Hdv]].
    - destruct (Hchi k) as [Hk0|[Hk1 _]]; lia.
    - pose proof (reached_closed yv v k Hv Hk Hy Hdv) as Hdk.
      unfold chi at 2. fold c in Hdk. rewrite Hdk. lia. }
  assert (Hsum : sumZ (fun v => (chi v * net_outflow N yv v)%Z) (range N)
                 = sumZ (fun v => sumZ (fun k =>
                           ((chi v - chi k) * b2z (yv v k))%Z) (range N))
                        (range N)).
  { unfold net_outflow.
    transitivity
      (sumZ (fun v => sumZ (fun k => (chi v * b2z (yv v k))%Z) (range N))
            (range N)
       - sumZ (fun v => sumZ (fun i => (chi v * b2z (yv i v))%Z) (range N))
              (range N))%Z.
    - rewrite <- sumZ_minus. apply sumZ_ext. intros v _.
      rewrite <- !sumZ_scale. lia.
    - rewrite (sumZ_swap nat nat (fun v i => (chi v * b2z (yv i v))%Z)).
      rewrite <- sumZ_minus. apply sumZ_ext. intros v _.
      rewrite <- sumZ_minus. apply sumZ_ext. intros k _. lia. }
  assert (Hneg : (sumZ (fun v => (chi v * net_outflow N yv v)%Z) (range N)
                  <= 0)%Z).
  { rewrite Hsum.
    rewrite <- (sumZ_zero nat (range N)). apply sumZ_le. intros v Hv.
    rewrite <- (sumZ_zero nat (range N)). apply sumZ_le. intros k Hk.
    apply in_range_lt in Hv, Hk. now apply Hterm. }
  rewrite (sumZ_two_points (fun v => (chi v * net_outflow N yv v)%Z)
             N s t s_node t_node Hst) in Hneg.
  2:{ intros k Hk Hks Hkt. rewrite (Hmid k Hk Hks Hkt). lia. }
  rewrite Hfs, Hft, Hchi_s in Hneg.
  destruct (Hchi t) as [Ht0|[_ Hdt]]; [lia|].
  destruct (distance_attained N c s s_node t 0 t_node Hdt)
    as (w & Hw & Hend & Hcost).
  destruct (walk_shorten N c s (selection_cost_nonneg yv) s_node s w
              s_node Hw) as (w' & Hw' & Hend' & Hcost' & Hnd).
  pose proof (walk_cost_nonneg N c s (selection_cost_nonneg yv) s_node
                s w' s_node Hw') as Hpos.
  exists w'. split.
  - split; [exact Hw'|]. split; [congruence|exact Hnd].
  - apply free_walk_selected; [exact s_node|exact Hw'|].
    unfold c in *. lia.
Qed.

(** Along a walk whose arcs are all selected, every arc costs its upper
    bound. *)
Lemma selected_walk_cost (yv : scenario) (a : nat) (w : list nat) :
  Forall (fun ij => yv (fst ij) (snd ij) = true) (arcs_of a w) ->
  walk_cost (effective_cost l u yv) a w = walk_cost (mget u) a w.
Proof.
  revert a; induction w as [|b w IH]; intros a H; [reflexivity|].
  simpl in H. apply Forall_cons_iff in H as [Hab H].
  cbn [walk_cost]. rewrite (IH b H). unfold effective_cost.
  cbn [fst snd] in Hab. now rewrite Hab.
Qed.

Hypothesis u_nonneg : forall i j, i < N -> j < N -> (0 <= mget u i j)%Z.

(** The arcs of a path inside a selection cost no more than the whole
    selection. *)
Lemma path_within_selection (yv : scenario) (w : list nat) :
  simple_path N s t w ->
  Forall (fun ij => yv (fst ij) (snd ij) = true) (arcs_of s w) ->
  (path_upper u s w <= upper_cost N u yv)%Z.
Proof.
  intros (Hr & _ & Hnd) Hsel. unfold path_upper.
  rewrite walk_cost_arcs, upper_cost_pairs.
  rewrite <- (sumZ_pairs_on N (arcs_of s w) _ (simple_walk_arcs s w Hnd)
                (arcs_in_range N s w s_node Hr)).
  apply sumZ_le. intros [i j] Hij. apply in_pairs in Hij as [Hi Hj].
  cbn [fst snd]. pose proof (u_nonneg i j Hi Hj).
  destruct (existsb (pair_eqb (i, j)) (arcs_of s w)) eqn:E.
  - apply existsb_exists in E as (x & Hx & Heq).
    apply pair_eqb_eq in Heq. subst x.
    rewrite Forall_forall in Hsel. specialize (Hsel (i, j) Hx).
    cbn [fst snd] in Hsel. rewrite Hsel. simpl. lia.
  - pose proof (b2z_range (yv i j)). nia.
Qed.

End Paths.

End PathFacts.

Import PathFacts.

(** ** The regret of a path and the optimum of the model *)

Module RegretFacts.

Lemma ordered_costs_sound (N : nat) (l u : matrix) :
  ordered_costs N l u = true ->
  forall i j, i < N -> j < N -> (0 <= mget l i j <= mget u i j)%Z.
Proof.
  unfold ordered_costs. rewrite forallb_forall. intros H i j Hi Hj.
  specialize (H (i, j) (proj2 (in_pairs N i j) (conj Hi Hj))).
  cbn [fst snd] in H. apply andb_prop in H as [H1 H2].
  apply Z.leb_le in H1, H2. lia.
Qed.

Lemma walk_cost_le (N : nat) (c c' : nat -> nat -> Z) (a : nat)
      (w : list nat) :
  (forall i j, i < N -> j < N -> (c i j <= c' i j)%Z) ->
  a < N -> in_range N w -> (walk_cost c a w <= walk_cost c' a w)%Z.
Proof.
  intros Hc. revert a; induction w as [|b w IH]; intros a Ha Hw; simpl;
    [lia|].
  apply Forall_cons_iff in Hw as [Hb Hw].
  pose proof (Hc a b Ha Hb). pose proof (IH b Hb Hw). lia.
Qed.

Lemma forallb_false (A : Type) (f : A -> bool) (xs : list A) :
  forallb f xs = false -> exists x, In x xs /\ f x = false.
Proof.
  induction xs as [|x xs IH]; simpl; [discriminate|].
  destruct (f x) eqn:E; simpl.
  - intros H. destruct (IH H) as (y & Hy & Hf). exists y. auto.
  - intros _. exists x. auto.
Qed.

Lemma lower_nonneg (N : nat) (l u : matrix) :
  (forall i j, i < N -> j < N -> (0 <= mget l i j <= mget u i j)%Z) ->
  forall i j, i < N -> j < N -> (0 <= mget l i j)%Z.
Proof. intros H i j Hi Hj. pose proof (H i j Hi Hj). lia. Qed.

Lemma upper_nonneg (N : nat) (l u : matrix) :
  (forall i j, i < N -> j < N -> (0 <= mget l i j <= mget u i j)%Z) ->
  forall i j, i < N -> j < N -> (0 <= mget u i j)%Z.
Proof. intros H i j Hi Hj. pose proof (H i j Hi Hj). lia. Qed.

Section Regret.

Variables (N : nat) (l u : matrix) (s t : nat).

Hypothesis ordered :
  forall i j, i < N -> j < N -> (0 <= mget l i j <= mget u i j)%Z.
Hypothesis s_node : s < N.
Hypothesis t_node : t < N.


(** Selecting more arcs raises the cost of a set of distinct arcs by at
    most what the extra arcs add to the upper cost. *)
Lemma cost_gap (yv pv : scenario) (arcs : list (nat * nat)) :
  (forall i j, i < N -> j < N -> pv i j = true -> yv i j = true) ->
  nodupb arcs = true ->
  Forall (fun ij => fst ij < N /\ snd ij < N) arcs ->
  (sumZ (fun ij => effective_cost l u yv (fst ij) (snd ij)) arcs
   - sumZ (fun ij => effective_cost l u pv (fst ij) (snd ij)) arcs
   <= upper_cost N u yv - upper_cost N u pv)%Z.
Proof.
  intros Hsub Hnd Hr.
  rewrite <- sumZ_minus, !upper_cost_pairs, <- sumZ_minus.
  rewrite <- (sumZ_pairs_on N arcs _ Hnd Hr).
  apply sumZ_le. intros [i j] Hij. apply in_pairs in Hij as [Hi Hj].
  cbn [fst snd]. pose proof (ordered i j Hi Hj) as Hb.
  pose proof (Hsub i j Hi Hj) as Hs. unfold effective_cost, b2z.
  destruct (existsb (pair_eqb (i, j)) arcs), (pv i j), (yv i j);
    try lia; specialize (Hs eq_refl); discriminate.
Qed.

(** Dropping everything but a path that the selection contains does not
    raise the regret. *)
Lemma path_improves (yv : scenario) :
  conserves N s t yv ->
  exists w, simple_path N s t w /\
            Forall (fun ij => yv (fst ij) (snd ij) = true) (arcs_of s w) /\
            (path_regret N l u s t w <= regret N l u s t yv)%Z.
Proof.
  intros Hflow.
  pose proof (lower_nonneg N l u ordered) as Hl.
  pose proof (upper_nonneg N l u ordered) as Hu.
  destruct (selected_path N s t s_node t_node yv Hflow) as (w & Hw & Hsel).
  exists w. split; [exact Hw|]. split; [exact Hsel|].
  unfold path_regret, regret.
  rewrite <- (path_upper_cost N u s t s_node t_node w Hw).
  set (pv := path_scenario s w).
  pose proof (scenario_distance_spec N l u s t Hl Hu s_node
                t_node pv) as Hd.
  destruct (distance_attained N _ s s_node t _ t_node Hd)
    as (q & Hq & Hqend & Hqcost).
  destruct (walk_shorten N _ s
              (effective_cost_nonneg N l u Hl Hu pv) s_node
              s q s_node Hq) as (q' & Hq' & Hend' & Hcost' & Hnd').
  pose proof (scenario_distance_below N l u s t Hl Hu s_node
                t_node yv q' Hq' (eq_trans Hend' Hqend)) as Hy.
  assert (Hsub : forall i j, i < N -> j < N ->
                   pv i j = true -> yv i j = true).
  { intros i j _ _ Hp. unfold pv, path_scenario in Hp.
    rewrite of_arcs_on in Hp. apply existsb_exists in Hp as (x & Hx & Heq).
    apply pair_eqb_eq in Heq. subst x.
    rewrite Forall_forall in Hsel. exact (Hsel (i, j) Hx). }
  pose proof (cost_gap yv pv (arcs_of s q') Hsub
                (simple_walk_arcs s q' Hnd')
                (arcs_in_range N s q' s_node Hq')) as Hgap.
  rewrite <- !walk_cost_arcs in Hgap. lia.
Qed.

(** The regret of the scenario of a path never exceeds the length of the
    path at its upper bounds. *)
Lemma path_regret_below_upper (w : list nat) :
  (path_regret N l u s t w <= path_upper u s w)%Z.
Proof.
  unfold path_regret.
  pose proof (lower_nonneg N l u ordered) as Hl.
  pose proof (upper_nonneg N l u ordered) as Hu.
  pose proof (scenario_distance_nonneg N l u s t Hl Hu s_node
                t_node (path_scenario s w)). lia.
Qed.

Section Built.

Variable m : Model.
Hypothesis built : build_model N l u s t = Some m.

Lemma optimal_below_paths (sol : solution) (w : list nat) :
  optimal m sol -> simple_path N s t w ->
  (regret N l u s t (Yval sol) <= path_regret N l u s t w)%Z.
Proof.
  intros Hopt Hw.
  pose proof (lower_nonneg N l u ordered) as Hl.
  pose proof (upper_nonneg N l u ordered) as Hu.
  destruct (optimal_is_best_scenario N l u s t Hl Hu s_node
              t_node m built sol Hopt) as ((Hfs & Hft & _) & _ & Hbest).
  assert (Hst : s <> t) by (intros ->; lia).
  rewrite <- (path_regret_eq N l u s t s_node t_node w Hw).
  apply Hbest. now apply (path_conserves N s t s_node t_node).
Qed.

End Built.

End Regret.

End RegretFacts.

Import RegretFacts.

(** X6. Every feasible assignment selects all the arcs of some path from
    the source to the destination that visits no node twice: the flux
    constraints alone force it, whatever the bounds are. *)
Theorem selection_contains_path (N : nat) (l u : matrix) (s t : nat)
        (m : Model) (sol : solution) :
  build_model N l u s t = Some m -> feasible m sol ->
  exists w, simple_path N s t w /\
            Forall (fun ij => Yval sol (fst ij) (snd ij) = true)
                   (arcs_of s w).
Proof.
  intros Hb Hf.
  destruct (build_model_some N l u s t m Hb) as (Hs & Ht & _).
  apply (feasible_iff N l u s t m sol Hb) in Hf.
  destruct Hf as (_ & _ & _ & Hflow).
  exact (selected_path N s t Hs Ht (Yval sol) Hflow).
Qed.

Lemma selection_contains_path_witness :
  exists m, build_model 4 Examples.toy_l Examples.toy_u 0 3 = Some m /\
    exists w, simple_path 4 0 3 w /\
              Forall (fun ij => Yval Examples.toy_sol (fst ij) (snd ij) = true)
                     (arcs_of 0 w).
Proof.
  destruct toy_optimum as (m & Hb & Hopt & _).
  exists m. split; [exact Hb|].
  exact (selection_contains_path 4 Examples.toy_l Examples.toy_u 0 3 m
           Examples.toy_sol Hb (proj1 Hopt)).
Defined.

(** X7. When no upper bound is negative the objective of a feasible
    assignment is never negative: the label of the destination is at
    most the length, at the upper bounds, of a path among the selected
    arcs, and the selected arcs cost at least that much. *)
Theorem objective_nonneg (N : nat) (l u : matrix) (s t : nat)
        (m : Model) (sol : solution) :
  (forall i j, i < N -> j < N -> (0 <= mget u i j)%Z) ->
  build_model N l u s t = Some m -> feasible m sol ->
  (0 <= objective_value m sol)%R.
Proof.
  intros Hu Hb Hf.
  destruct (build_model_some N l u s t m Hb) as (Hs & Ht & _).
  rewrite (objective_value_eq N l u s t m sol Hb).
  apply (feasible_iff N l u s t m sol Hb) in Hf.
  pose proof Hf as (_ & _ & _ & Hflow).
  destruct (selected_path N s t Hs Ht (Yval sol) Hflow)
    as (w & Hw & Hsel).
  pose proof (path_within_selection N u s t Hs Ht Hu (Yval sol) w Hw Hsel)
    as Hle.
  destruct Hw as (Hr & Hend & _).
  pose proof (label_below_walk N l u s t Hs sol w Hf Hr) as Hx.
  rewrite Hend, (selected_walk_cost l u (Yval sol) s w Hsel) in Hx.
  apply IZR_le in Hle. unfold path_upper in Hle. lra.
Qed.

Lemma objective_nonneg_witness :
  exists m, build_model 4 Examples.toy_l Examples.toy_u 0 3 = Some m /\
            (0 <= objective_value m Examples.toy_sol)%R.
Proof.
  destruct toy_optimum as (m & Hb & Hopt & _).
  exists m. split; [exact Hb|].
  apply (objective_nonneg 4 Examples.toy_l Examples.toy_u 0 3 m
           Examples.toy_sol); [|exact Hb|exact (proj1 Hopt)].
  intros i j Hi Hj.
  pose proof (ordered_costs_sound 4 Examples.toy_l Examples.toy_u eq_refl
                i j Hi Hj). lia.
Defined.

(** X8. With ordered, non-negative bounds the model computes the least
    regret of a path: an optimal assignment selects the arcs of a path
    from [s] to [t] whose regret is the optimal objective, and no path
    from [s] to [t] has a smaller regret. *)
Theorem optimum_is_least_path_regret (N : nat) (l u : matrix) (s t : nat)
        (m : Model) (sol : solution) :
  (forall i j, i < N -> j < N -> (0 <= mget l i j <= mget u i j)%Z) ->
  build_model N l u s t = Some m -> optimal m sol ->
  exists w, simple_path N s t w /\
            Forall (fun ij => Yval sol (fst ij) (snd ij) = true)
                   (arcs_of s w) /\
            objective_value m sol = IZR (path_regret N l u s t w) /\
            forall w', simple_path N s t w' ->
              (path_regret N l u s t w <= path_regret N l u s t w')%Z.
Proof.
  intros Hord Hb Hopt.
  destruct (build_model_some N l u s t m Hb) as (Hs & Ht & _).
  destruct (optimal_is_best_scenario N l u s t (lower_nonneg N l u Hord)
              (upper_nonneg N l u Hord) Hs Ht m Hb sol Hopt)
    as (Hflow & Hval & _).
  destruct (path_improves N l u s t Hord Hs Ht (Yval sol) Hflow)
    as (w & Hw & Hsel & Hle).
  pose proof (optimal_below_paths N l u s t Hord Hs Ht m Hb sol)
    as Hbelow.
  exists w. split; [exact Hw|]. split; [exact Hsel|]. split.
  - rewrite Hval. f_equal. pose proof (Hbelow w Hopt Hw). lia.
  - intros w' Hw'. pose proof (Hbelow w' Hopt Hw'). lia.
Qed.

Lemma optimum_is_least_path_regret_witness :
  exists m, build_model 4 Examples.toy_l Examples.toy_u 0 3 = Some m /\
    exists w, simple_path 4 0 3 w /\
      objective_value m Examples.toy_sol
      = IZR (path_regret 4 Examples.toy_l Examples.toy_u 0 3 w).
Proof.
  destruct toy_optimum as (m & Hb & Hopt & _).
  exists m. split; [exact Hb|].
  destruct (optimum_is_least_path_regret 4 Examples.toy_l Examples.toy_u
              0 3 m Examples.toy_sol
              (ordered_costs_sound 4 Examples.toy_l Examples.toy_u eq_refl)
              Hb Hopt) as (w & Hw & _ & Hval & _).
  exists w. split; [exact Hw|exact Hval].
Defined.

(** X9. Conversely, selecting the arcs of a path of least regret and
    labelling every node with its distance is an optimal assignment, and
    its objective is the regret of that path. *)
Theorem least_regret_path_is_optimal (N : nat) (l u : matrix) (s t : nat)
        (m : Model) (w : list nat) :
  (forall i j, i < N -> j < N -> (0 <= mget l i j <= mget u i j)%Z) ->
  build_model N l u s t = Some m -> s <> t ->
  simple_path N s t w ->
  (forall w', simple_path N s t w' ->
     (path_regret N l u s t w <= path_regret N l u s t w')%Z) ->
  optimal m (mkSolution (path_scenario s w)
               (potentials N (effective_cost l u (path_scenario s w)) s)) /\
  objective_value m
    (mkSolution (path_scenario s w)
       (potentials N (effective_cost l u (path_scenario s w)) s))
  = IZR (path_regret N l u s t w).
Proof.
  intros Hord Hb Hst Hw Hleast.
  destruct (build_model_some N l u s t m Hb) as (Hs & Ht & _).
  pose proof (lower_nonneg N l u Hord) as Hl.
  pose proof (upper_nonneg N l u Hord) as Hu.
  split.
  - apply (best_scenario_optimal N l u s t Hl Hu Hs Ht m Hb).
    + now apply (path_conserves N s t Hs Ht).
    + intros yv Hflow.
      destruct (path_improves N l u s t Hord Hs Ht yv Hflow)
        as (w' & Hw' & _ & Hle).
      rewrite (path_regret_eq N l u s t Hs Ht w Hw).
      pose proof (Hleast w' Hw'). lia.
  - rewrite (objective_potentials N l u s t Hl Hu Hs Ht m Hb).
    now rewrite (path_regret_eq N l u s t Hs Ht w Hw).
Qed.

Lemma toy_ordered :
  forall i j, i < 4 -> j < 4 ->
    (0 <= mget Examples.toy_l i j <= mget Examples.toy_u i j)%Z.
Proof. apply ordered_costs_sound. reflexivity. Qed.

Lemma toy_path : simple_path 4 0 3 [1; 3].
Proof.
  split; [repeat constructor|]. split; [reflexivity|].
  repeat constructor; simpl; intuition discriminate.
Qed.

Lemma least_regret_path_is_optimal_witness :
  exists m, build_model 4 Examples.toy_l Examples.toy_u 0 3 = Some m /\
    optimal m
      (mkSolution (path_scenario 0 [1; 3])
         (potentials 4 (effective_cost Examples.toy_l Examples.toy_u
                          (path_scenario 0 [1; 3])) 0)).
Proof.
  destruct toy_optimum as (m & Hb & Hopt & _).
  exists m. split; [exact Hb|].
  apply (least_regret_path_is_optimal 4 Examples.toy_l Examples.toy_u 0 3
           m [1; 3] toy_ordered Hb ltac:(lia) toy_path).
  intros w' Hw'.
  pose proof (optimal_below_paths 4 Examples.toy_l Examples.toy_u 0 3
                toy_ordered ltac:(lia) ltac:(lia) m Hb Examples.toy_sol w'
                Hopt Hw') as H.
  assert (E : regret 4 Examples.toy_l Examples.toy_u 0 3
                     (Yval Examples.toy_sol)
              = path_regret 4 Examples.toy_l Examples.toy_u 0 3 [1; 3])
    by (vm_compute; reflexivity).
  rewrite <- E. exact H.
Defined.

(** X10. The variables [X] are declared continuous, yet at an optimal
    assignment the label of the destination and the objective are
    integers: the label is the length of a shortest walk over integer
    costs, and the objective is the upper cost of the selection minus
    that length. *)
Theorem optimum_integral (N : nat) (l u : matrix) (s t : nat)
        (m : Model) (sol : solution) :
  (forall i j, i < N -> j < N ->
     (0 <= mget l i j)%Z /\ (0 <= mget u i j)%Z) ->
  build_model N l u s t = Some m -> optimal m sol ->
  exists x : Z,
    (0 <= x)%Z /\ Xval sol t = IZR x /\
    objective_value m sol = IZR (upper_cost N u (Yval sol) - x).
Proof.
  intros Hnn Hb Hopt.
  destruct (build_model_some N l u s t m Hb) as (Hs & Ht & _).
  assert (Hl : forall i j, i < N -> j < N -> (0 <= mget l i j)%Z)
    by (intros i j Hi Hj; now destruct (Hnn i j Hi Hj)).
  assert (Hu : forall i j, i < N -> j < N -> (0 <= mget u i j)%Z)
    by (intros i j Hi Hj; now destruct (Hnn i j Hi Hj)).
  destruct (optimal_label_at_destination N l u s t Hl Hu Hs Ht m Hb sol
              Hopt) as (x & Hx & Hval).
  exists x. split; [|split].
  - rewrite (scenario_distance_spec N l u s t Hl Hu Hs Ht) in Hx.
    injection Hx as <-.
    exact (scenario_distance_nonneg N l u s t Hl Hu Hs Ht (Yval sol)).
  - exact Hval.
  - rewrite (objective_value_eq N l u s t m sol Hb), Hval, minus_IZR.
    reflexivity.
Qed.

Lemma optimum_integral_witness :
  exists m, build_model 4 Examples.toy_l Examples.toy_u 0 3 = Some m /\
    exists x : Z, Xval Examples.toy_sol 3 = IZR x.
Proof.
  destruct toy_optimum as (m & Hb & Hopt & _).
  exists m. split; [exact Hb|].
  destruct (optimum_integral 4 Examples.toy_l Examples.toy_u 0 3 m
              Examples.toy_sol) as (x & _ & Hx & _);
    [|exact Hb|exact Hopt|exists x; exact Hx].
  intros i j Hi Hj. pose proof (toy_ordered i j Hi Hj). lia.
Defined.

(** X11. An optimal assignment selects no pair whose upper bound is more
    than twice the length, at the upper bounds, of some path from [s] to
    [t].  A deleted arc, which carries the sentinel, is therefore left
    alone as soon as some path costs less than half the sentinel. *)
Theorem sentinel_avoided (N : nat) (l u : matrix) (s t : nat)
        (m : Model) (sol : solution) (w : list nat) (a b : nat) :
  (forall i j, i < N -> j < N -> (0 <= mget l i j <= mget u i j)%Z) ->
  build_model N l u s t = Some m -> optimal m sol ->
  simple_path N s t w -> a < N -> b < N ->
  (2 * path_upper u s w < mget u a b)%Z ->
  Yval sol a b = false.
Proof.
  intros Hord Hb Hopt Hw Ha Hb' Hbig.
  destruct (build_model_some N l u s t m Hb) as (Hs & Ht & _).
  pose proof (lower_nonneg N l u Hord) as Hl.
  pose proof (upper_nonneg N l u Hord) as Hu.
  destruct (Yval sol a b) eqn:E; [exfalso|reflexivity].
  pose proof (optimal_below_paths N l u s t Hord Hs Ht m Hb sol w Hopt Hw)
    as H1.
  pose proof (path_regret_below_upper N l u s t Hord Hs Ht w) as H2.
  pose proof (upper_cost_selected N u (Yval sol) a b Hu Ha Hb' E) as H3.
  destruct Hw as (Hr & Hend & _).
  pose proof (scenario_distance_below N l u s t Hl Hu Hs Ht (Yval sol) w
                Hr Hend) as H4.
  assert (H5 : (walk_cost (effective_cost l u (Yval sol)) s w
                <= walk_cost (mget u) s w)%Z).
  { apply (walk_cost_le N); [|exact Hs|exact Hr].
    intros i j Hi Hj. unfold effective_cost.
    pose proof (Hord i j Hi Hj). destruct (Yval sol i j); lia. }
  unfold regret in H1. unfold path_upper in *. lia.
Qed.

Lemma sentinel_avoided_witness :
  exists m, build_model 4 Examples.toy_l Examples.toy_u 0 3 = Some m /\
            Yval Examples.toy_sol 0 3 = false.
Proof.
  destruct toy_optimum as (m & Hb & Hopt & _).
  exists m. split; [exact Hb|].
  apply (sentinel_avoided 4 Examples.toy_l Examples.toy_u 0 3 m
           Examples.toy_sol [1; 3] 0 3 toy_ordered Hb Hopt toy_path);
    [lia|lia|vm_compute; reflexivity].
Defined.

(** X12. When no sequence of arcs leads from [s] to [t], every feasible
    assignment, and so whatever the solver returns, selects a pair that
    carries the sentinel: the answer then runs over a deleted arc. *)
Theorem disconnected_selects_sentinel (N : nat) (l u : matrix) (s t : nat)
        (M : Z) (m : Model) (sol : solution) :
  build_model N l u s t = Some m -> feasible m sol ->
  ~ path_exists N l s t M ->
  exists a b, a < N /\ b < N /\ Yval sol a b = true /\ mget l a b = M.
Proof.
  intros Hb Hf Hno.
  destruct (build_model_some N l u s t m Hb) as (Hs & Ht & _).
  apply (feasible_iff N l u s t m sol Hb) in Hf.
  destruct Hf as (_ & _ & _ & Hflow).
  destruct (selected_path N s t Hs Ht (Yval sol) Hflow)
    as (w & (Hr & Hend & _) & Hsel).
  destruct (forallb (fun ij => is_arc l M (fst ij) (snd ij)) (arcs_of s w))
    eqn:E.
  - exfalso. apply Hno. exists w. split; [exact Hr|]. split; [exact Hend|].
    apply Forall_forall. rewrite forallb_forall in E. exact E.
  - apply forallb_false in E as ([a b] & Hin & Hab). cbn [fst snd] in Hab.
    exists a, b.
    pose proof (arcs_in_range N s w Hs Hr) as Hin'.
    rewrite Forall_forall in Hin', Hsel.
    destruct (Hin' (a, b) Hin) as [Ha Hb'].
    split; [exact Ha|]. split; [exact Hb'|]. split.
    + exact (Hsel (a, b) Hin).
    + unfold is_arc in Hab. apply negb_false_iff in Hab.
      now apply Z.eqb_eq.
Qed.

Lemma disconnected_selects_sentinel_witness :
  exists a b, a < 2 /\ b < 2 /\ Yval Examples.cut_sol a b = true /\
              mget Examples.cut_l a b = Examples.M.
Proof.
  destruct cut_optimal as (m & Hb & Hopt & _).
  exact (disconnected_selects_sentinel 2 Examples.cut_l Examples.cut_u 0 1
           Examples.M m Examples.cut_sol Hb (proj1 Hopt) cut_disconnected).
Defined.

(** X13. The optimal objective is at most the length, at the upper
    bounds, of any path from [s] to [t]; in particular it is at most
    [u[s][t]], the value of selecting the pair [(s, t)] alone. *)
Theorem objective_below_path_upper (N : nat) (l u : matrix) (s t : nat)
        (m : Model) (sol : solution) :
  (forall i j, i < N -> j < N -> (0 <= mget l i j <= mget u i j)%Z) ->
  build_model N l u s t = Some m -> optimal m sol ->
  (forall w, simple_path N s t w ->
     (objective_value m sol <= IZR (path_upper u s w))%R) /\
  (objective_value m sol <= IZR (mget u s t))%R.
Proof.
  intros Hord Hb Hopt.
  destruct (build_model_some N l u s t m Hb) as (Hs & Ht & _).
  pose proof (lower_nonneg N l u Hord) as Hl.
  pose proof (upper_nonneg N l u Hord) as Hu.
  destruct (optimal_is_best_scenario N l u s t Hl Hu Hs Ht m Hb sol Hopt)
    as ((Hfs & Hft & _) & Hval & _).
  assert (Hst : s <> t) by (intros ->; lia).
  assert (Hall : forall w, simple_path N s t w ->
            (objective_value m sol <= IZR (path_upper u s w))%R).
  { intros w Hw. rewrite Hval. apply IZR_le.
    pose proof (optimal_below_paths N l u s t Hord Hs Ht m Hb sol w Hopt
                  Hw).
    pose proof (path_regret_below_upper N l u s t Hord Hs Ht w). lia. }
  split; [exact Hall|].
  assert (Hw : simple_path N s t [t]).
  { split; [repeat constructor; exact Ht|]. split; [reflexivity|].
    constructor; [simpl; intuition|]. constructor; [intros []|constructor]. }
  specialize (Hall [t] Hw). unfold path_upper in Hall. simpl in Hall.
  rewrite Z.add_0_r in Hall. exact Hall.
Qed.

Lemma objective_below_path_upper_witness :
  exists m, build_model 4 Examples.toy_l Examples.toy_u 0 3 = Some m /\
    (objective_value m Examples.toy_sol
     <= IZR (mget Examples.toy_u 0 3))%R.
Proof.
  destruct toy_optimum as (m & Hb & Hopt & _).
  exists m. split; [exact Hb|].
  exact (proj2 (objective_below_path_upper 4 Examples.toy_l Examples.toy_u
                  0 3 m Examples.toy_sol toy_ordered Hb Hopt)).
Defined.

(** ** Running the notebook on a graph without a path *)

(** Where no sequence of arcs leads from [s] to [t], every walk from [s]
    to [t] runs over a pair that carries the sentinel. *)
Lemma walk_crosses_sentinel (N : nat) (l : matrix) (s t : nat) (M : Z)
      (w : list nat) :
  s < N -> in_range N w -> walk_end s w = t ->
  ~ path_exists N l s t M ->
  exists a b, In (a, b) (arcs_of s w) /\ a < N /\ b < N /\ mget l a b = M.
Proof.
  intros Hs Hr Hend Hno.
  destruct (forallb (fun ij => is_arc l M (fst ij) (snd ij)) (arcs_of s w))
    eqn:E.
  - exfalso. apply Hno. exists w. split; [exact Hr|]. split; [exact Hend|].
    apply Forall_forall. rewrite forallb_forall in E. exact E.
  - apply forallb_false in E as ([a b] & Hin & Hab). cbn [fst snd] in Hab.
    exists a, b. split; [exact Hin|].
    pose proof (arcs_in_range N s w Hs Hr) as Hin'.
    rewrite Forall_forall in Hin'.
    destruct (Hin' (a, b) Hin) as [Ha Hb].
    split; [exact Ha|]. split; [exact Hb|].
    unfold is_arc in Hab. apply negb_false_iff in Hab.
    now apply Z.eqb_eq.
Qed.

(** C8, as stated, fails: on the two-node instance in which no arc leaves
    the source no sequence of arcs connects [s] to [t], yet the model is
    built and has an optimal assignment, both solves can return it and
    the run can complete, and the only exception a run can end in is the
    assertion that follows a solve. *)
Lemma C8_counterexample :
  ~ path_exists 2 Examples.cut_l 0 1 Examples.M /\
  (exists m, build_model 2 Examples.cut_l Examples.cut_u 0 1 = Some m /\
             optimal m Examples.cut_sol) /\
  (exists v1 a1 v2 a2,
     runs 2 Examples.cut_l Examples.cut_u 0 1 (Completed v1 a1 v2 a2)) /\
  forall e, runs 2 Examples.cut_l Examples.cut_u 0 1 (Raised e) ->
            e = AssertionError.
Proof.
  split; [exact cut_disconnected|].
  destruct cut_optimal as (m & Hb & Hopt & _).
  split; [exists m; split; assumption|]. split.
  - do 4 eexists. exact (runs_with_optimum 2 _ _ 0 1 m _ Hb Hopt).
  - intros e. exact (raised_after_solve 2 _ _ 0 1 m e Hb).
Qed.

(** C8, amended.  When no sequence of arcs connects [s] to [t] the
    program checks nothing and raises no exception of its own: the model
    is built as for any other graph, with the deleted pairs in it as arcs
    of cost [M]; it has an optimal assignment, so the solver answers
    neither [INFEASIBLE] nor [UNBOUNDED]; every assignment a solve
    returns selects a pair that carries the sentinel; a run can complete,
    and the only exception a run can end in is the assertion after a
    solve that failed. *)
Theorem C8_no_reachability_check (N : nat) (l u : matrix) (s t : nat)
        (M : Z) :
  (forall a b, a < N -> b < N ->
     (0 <= mget l a b)%Z /\ (0 <= mget u a b)%Z) ->
  s < N -> t < N -> s <> t ->
  ~ path_exists N l s t M ->
  exists m,
    build_model N l u s t = Some m /\
    (exists sol, optimal m sol) /\
    (forall p r, solve m p r ->
       (exists v sol a b,
          r = OPTIMAL v sol /\ optimal m sol /\
          a < N /\ b < N /\ Yval sol a b = true /\ mget l a b = M)
       \/ exists reason, r = ERROR reason) /\
    (exists v1 a1 v2 a2, runs N l u s t (Completed v1 a1 v2 a2)) /\
    (forall e, runs N l u s t (Raised e) -> e = AssertionError).
Proof.
  intros Hnn Hs Ht Hst Hno.
  assert (Hl : forall a b, a < N -> b < N -> (0 <= mget l a b)%Z)
    by (intros a b Ha Hb'; now destruct (Hnn a b Ha Hb')).
  assert (Hu : forall a b, a < N -> b < N -> (0 <= mget u a b)%Z)
    by (intros a b Ha Hb'; now destruct (Hnn a b Ha Hb')).
  pose proof (build_model_in_range N l u s t Hs Ht) as Hb.
  destruct (optimum_exists N l u s t Hl Hu Hs Ht _ Hb Hst) as (sol & Hopt).
  eexists. split; [exact Hb|].
  split; [now exists sol|]. split; [|split].
  - intros p r Hsolve.
    destruct (solve_answers _ sol p r Hopt Hsolve)
      as [(v & a & -> & Ha & _)|Herr]; [left|right; exact Herr].
    pose proof (proj1 (feasible_iff N l u s t _ a Hb) (proj1 Ha))
      as (_ & _ & _ & Hflow).
    destruct (selected_path N s t Hs Ht (Yval a) Hflow)
      as (w & (Hr & Hend & _) & Hsel).
    destruct (walk_crosses_sentinel N l s t M w Hs Hr Hend Hno)
      as (i & j & Hin & Hi & Hj & HM).
    rewrite Forall_forall in Hsel.
    exists v, a, i, j. split; [reflexivity|]. split; [exact Ha|].
    split; [exact Hi|]. split; [exact Hj|].
    split; [exact (Hsel (i, j) Hin)|exact HM].
  - do 4 eexists. exact (runs_with_optimum N l u s t _ sol Hb Hopt).
  - intros e. exact (raised_after_solve N l u s t _ e Hb).
Qed.

Lemma C8_no_reachability_check_witness :
  exists m,
    build_model 2 Examples.cut_l Examples.cut_u 0 1 = Some m /\
    (exists v1 a1 v2 a2,
       runs 2 Examples.cut_l Examples.cut_u 0 1 (Completed v1 a1 v2 a2)) /\
    (forall e, runs 2 Examples.cut_l Examples.cut_u 0 1 (Raised e) ->
               e = AssertionError).
Proof.
  destruct (C8_no_reachability_check 2 Examples.cut_l Examples.cut_u 0 1
              Examples.M cut_nonneg ltac:(lia) ltac:(lia) ltac:(lia)
              cut_disconnected) as (m & Hb & _ & _ & Hrun & Hexn).
  exists m. split; [exact Hb|]. split; [exact Hrun|exact Hexn].
Defined.

(** ** The notebook as a whole *)



(** ** Bounds of the iteration loop *)

Module BendersFacts.

Lemma bound_le_refl (a : bound) : bound_le a a.
Proof. destruct a; simpl; auto. lra. Qed.

Lemma raise_lb_le (lb z : bound) : bound_le lb (raise_lb lb z).
Proof. destruct lb, z; simpl; auto; try lra. apply Rmax_l. Qed.

Lemma lower_ub_le (ub : bound) (z : R) : bound_le (lower_ub ub z) ub.
Proof. destruct ub; simpl; auto. apply Rmin_l. Qed.

(** The master program over cuts that come from walks to the
    destination is a relaxation of the model: its optimal value is below
    the objective of every feasible assignment. *)
Lemma master_relaxes (N : nat) (l u : matrix) (s t : nat) (m : Model)
      (cuts : list (list nat)) (yv : scenario) (eta : R) (sol : solution) :
  build_model N l u s t = Some m ->
  Forall (fun w => in_range N w /\ walk_end s w = t) cuts ->
  master_optimal N l u s t cuts yv eta ->
  feasible m sol ->
  (master_objective N u yv eta <= objective_value m sol)%R.
Proof.
  intros Hb Hcuts [_ Hopt] Hf.
  destruct (build_model_some N l u s t m Hb) as (Hs & _ & _).
  pose proof (proj1 (feasible_iff N l u s t m sol Hb) Hf) as Hadm.
  rewrite (objective_value_eq N l u s t m sol Hb).
  apply (Hopt (Yval sol) (Xval sol t)). split.
  - apply Hadm.
  - rewrite Forall_forall in *. intros w Hw.
    destruct (Hcuts w Hw) as [Hr Hend]. rewrite <- Hend.
    now apply (label_below_walk N l u s t Hs).
Qed.

(** Without a cut nothing holds [eta] back: the master program over an
    empty cut store has no optimum. *)
Lemma empty_master_no_optimum (N : nat) (l u : matrix) (s t : nat)
      (yv : scenario) (eta : R) :
  ~ master_optimal N l u s t [] yv eta.
Proof.
  intros [[Hflow _] Hbest].
  assert (Hf : master_feasible N l u s t [] yv (eta + 1))
    by (split; [exact Hflow|constructor]).
  specialize (Hbest yv (eta + 1)%R Hf).
  unfold master_objective in Hbest. lra.
Qed.

(** The first master program is unbounded as soon as some scenario
    conserves flow. *)
Lemma empty_master_unbounded (N : nat) (l u : matrix) (s t : nat)
      (yv : scenario) :
  conserves N s t yv -> master_resolve N l u s t [] UNBOUNDED.
Proof.
  intros Hflow. split.
  - exists yv, 0%R. split; [exact Hflow|constructor].
  - intros yv' eta. apply empty_master_no_optimum.
Qed.

(** The search that certifies a lower bound of the model certifies the
    same bound for the master program over the walks it was given. *)
Lemma lower_bound_scenarios (N : nat) (l u : matrix) (s t : nat) (th : Z)
      (ws : list (list nat)) (yv : scenario) :
  lower_bound N l u s t th ws = true ->
  conserves N s t yv ->
  exists w, In w ws /\
    (th <= upper_cost N u yv - walk_cost (effective_cost l u yv) s w)%Z.
Proof.
  unfold lower_bound. rewrite !andb_true_iff, !Nat.ltb_lt.
  intros (((((Hs & Ht) & _) & Hcosts) & Hwalks) & Hsearch)
         (Hfs & Hft & Hmid).
  pose proof (nonneg_costs_sound N l u Hcosts) as Hnn.
  rewrite forallb_forall in Hwalks.
  assert (Hex : Exists (fun wa =>
              (th <= snd wa + gain l u s yv (fst wa) (pairs N))%Z)
              (map (fun w => (w, (- lower_cost l s w)%Z)) ws)).
  { apply (search_sound N l u s th (pairs N) _ _ Hsearch).
    - unfold initial_balance, range. now rewrite length_map, length_seq.
    - apply Forall_forall. intros [i j] Hij. now apply in_pairs in Hij.
    - intros wa [i j] _ Hij. apply in_pairs in Hij as [Hi Hj].
      destruct (Hnn i j Hi Hj). unfold weight. simpl.
      destruct (on_walk s (fst wa) (i, j)); assumption.
    - intros v Hv. rewrite flow_pairs, nth_initial_balance by assumption.
      destruct (Nat.eqb_spec v s) as [->|Hvs]; [lia|].
      destruct (Nat.eqb_spec v t) as [->|Hvt]; [lia|].
      specialize (Hmid v Hv Hvs Hvt). lia. }
  apply Exists_exists in Hex as (wa & Hin & Hle).
  apply in_map_iff in Hin as (w & <- & Hw). simpl in Hle.
  destruct (good_walk_sound N s t w (Hwalks w Hw)) as (Hr & _ & Hnd).
  pose proof (gain_pairs N l u s yv w Hs Hr Hnd) as Hg.
  exists w. split; [exact Hw|lia].
Qed.

(** A point of the master program whose value the search certifies as a
    lower bound is an optimum of the master program. *)
Lemma certified_master (N : nat) (l u : matrix) (s t : nat) (th : Z)
      (cuts : list (list nat)) (yv : scenario) (eta : R) :
  lower_bound N l u s t th cuts = true ->
  master_feasible N l u s t cuts yv eta ->
  master_objective N u yv eta = IZR th ->
  master_optimal N l u s t cuts yv eta.
Proof.
  intros Hlow Hf Hval. split; [exact Hf|].
  intros yv' eta' [Hflow' Hcuts']. rewrite Hval.
  destruct (lower_bound_scenarios N l u s t th cuts yv' Hlow Hflow')
    as (w & Hw & Hle).
  rewrite Forall_forall in Hcuts'. specialize (Hcuts' w Hw).
  apply IZR_le in Hle. rewrite minus_IZR in Hle.
  unfold master_objective. lra.
Qed.

Section Orchestrator.

Variables (N : nat) (M : Z) (l u : matrix) (s t : nat).
Variables (tolerance : R) (max_iterations : nat).

Lemma well_formed_spec :
  well_formed N l u s t = true ->
  s < N /\ t < N /\ s <> t /\
  forall i j, i < N -> j < N -> (0 <= mget l i j <= mget u i j)%Z.
Proof.
  unfold well_formed.
  rewrite !andb_true_iff, !Nat.ltb_lt, negb_true_iff, Nat.eqb_neq.
  intros (((Hs & Ht) & Hst) & Hord).
  split; [exact Hs|]. split; [exact Ht|]. split; [exact Hst|].
  now apply ordered_costs_sound.
Qed.

(** *** The reachability check *)

Lemma arcs_walk_free (a : nat) (w : list nat) :
  Forall (fun ij => is_arc l M (fst ij) (snd ij) = true) (arcs_of a w) ->
  walk_cost (hop_cost M l) a w = 0%Z.
Proof.
  revert a; induction w as [|b w IH]; intros a H; [reflexivity|].
  simpl in H. apply Forall_cons_iff in H as [Hab H].
  cbn [walk_cost fst snd] in *. rewrite (IH b H).
  unfold hop_cost. now rewrite Hab.
Qed.

Lemma hop_cost_nonneg (i j : nat) :
  i < N -> j < N -> (0 <= hop_cost M l i j)%Z.
Proof. intros _ _. unfold hop_cost. destruct (is_arc l M i j); lia. Qed.

(** The check of [INIT] finds a path exactly when there is one. *)
Lemma reachable_iff :
  s < N -> t < N ->
  (reachable N M l s t = true <-> path_exists N l s t M).
Proof.
  intros Hs Ht. unfold reachable. split.
  - intros H.
    destruct (distance N (hop_cost M l) s t) as [[| |]|] eqn:Hd;
      try discriminate.
    destruct (distance_attained N _ s Hs t 0 Ht Hd)
      as (w & Hw & Hend & Hcost).
    exists w. split; [exact Hw|]. split; [exact Hend|].
    exact (free_walk_selected N s t Hs Ht (is_arc l M) s w Hs Hw Hcost).
  - intros (w & Hw & Hend & Harcs).
    destruct (distance_below_walks N _ s hop_cost_nonneg Hs w Hw)
      as (v & Hv & Hle).
    destruct (distance_defined N _ s hop_cost_nonneg Hs t Ht)
      as (v' & Hv' & Hpos).
    rewrite Hend, Hv' in Hv. injection Hv as ->.
    rewrite (arcs_walk_free s w Harcs) in Hle.
    rewrite Hv'. replace v with 0%Z by lia. reflexivity.
Qed.

(** [INIT] lets a run start only on a well-formed instance with a path
    from [s] to [t]; otherwise the run has failed before its first
    pass. *)
Lemma init_iterating :
  current (init N M l u s t) = ITERATING ->
  well_formed N l u s t = true /\ path_exists N l s t M.
Proof.
  unfold init. destruct (well_formed N l u s t) eqn:Hwf; simpl;
    [|discriminate].
  destruct (has_outgoing N M l s && has_incoming N M l t
            && reachable N M l s t) eqn:Hp; simpl; [|discriminate].
  intros _. split; [reflexivity|].
  apply andb_prop in Hp as [_ Hreach].
  destruct (well_formed_spec Hwf) as (Hs & Ht & _).
  now apply reachable_iff.
Qed.

Lemma init_no_path :
  well_formed N l u s t = true -> ~ path_exists N l s t M ->
  init N M l u s t = stop seeded NoPathExists.
Proof.
  intros Hwf Hno. unfold init. rewrite Hwf. simpl.
  destruct (well_formed_spec Hwf) as (Hs & Ht & _).
  destruct (reachable N M l s t) eqn:Hr.
  - destruct Hno. now apply reachable_iff.
  - now rewrite andb_false_r.
Qed.

(** *** What a pass does to the bounds *)

Lemma pass_LB (st : state) (yv : scenario) (z : bound) (w : list nat) :
  LB (pass N l u s t tolerance max_iterations st yv z w)
  = raise_lb (LB st) z.
Proof.
  unfold pass. cbv zeta.
  destruct (gap_closed tolerance _ _); [reflexivity|].
  destruct (max_iterations <=? _); reflexivity.
Qed.

Lemma pass_UB (st : state) (yv : scenario) (z : bound) (w : list nat) :
  UB (pass N l u s t tolerance max_iterations st yv z w)
  = match nth t (subproblem N l u s yv) None with
    | Some xt => lower_ub (UB st) (IZR (upper_cost N u yv - xt))
    | None => UB st
    end.
Proof.
  unfold pass. cbv zeta.
  destruct (gap_closed tolerance _ _);
    [|destruct (max_iterations <=? _)];
    cbn [UB]; destruct (nth t (subproblem N l u s yv) None); reflexivity.
Qed.

Lemma pass_cuts (st : state) (yv : scenario) (z : bound) (w : list nat) :
  cuts_valid N s t st -> in_range N w /\ walk_end s w = t ->
  cuts_valid N s t (pass N l u s t tolerance max_iterations st yv z w).
Proof.
  intros Hcuts Hw. unfold pass, cuts_valid in *. cbv zeta.
  destruct (gap_closed tolerance _ _); [exact Hcuts|].
  destruct (max_iterations <=? _); [exact Hcuts|].
  cbn [cut_store]. apply Forall_app. split; [exact Hcuts|].
  constructor; [exact Hw|constructor].
Qed.

Lemma step_LB (st st' : state) :
  step N l u s t tolerance max_iterations st st' ->
  bound_le (LB st) (LB st').
Proof.
  intros Hstep. destruct Hstep; try apply bound_le_refl;
    rewrite pass_LB; apply raise_lb_le.
Qed.

Lemma step_UB (st st' : state) :
  step N l u s t tolerance max_iterations st st' ->
  bound_le (UB st') (UB st).
Proof.
  intros Hstep. destruct Hstep; try apply bound_le_refl;
    rewrite pass_UB;
    (destruct (nth t (subproblem N l u s _) None);
     [apply lower_ub_le|apply bound_le_refl]).
Qed.

(** *** What the bounds mean *)

Section Built.

Hypothesis valid : well_formed N l u s t = true.

Variable m : Model.
Hypothesis built : build_model N l u s t = Some m.

Lemma sound_le (st : state) :
  sound m st -> bound_le (LB st) (UB st).
Proof.
  unfold sound. destruct (LB st), (UB st); simpl; try tauto.
  intros [Hl [sol [Hf <-]]]. now apply Hl.
Qed.

(** The value of the subproblem is the objective of a feasible
    assignment of the model: the scenario with its distances. *)
Lemma subproblem_value (yv : scenario) :
  conserves N s t yv ->
  exists xt, nth t (subproblem N l u s yv) None = Some xt /\
    exists sol, feasible m sol /\
                objective_value m sol = IZR (upper_cost N u yv - xt).
Proof.
  intros Hflow.
  destruct (well_formed_spec valid) as (Hs & Ht & _ & Hord).
  pose proof (lower_nonneg N l u Hord) as Hl.
  pose proof (upper_nonneg N l u Hord) as Hu.
  exists (scenario_distance N l u s t yv). split.
  - exact (scenario_distance_spec N l u s t Hl Hu Hs Ht yv).
  - exists (mkSolution yv (potentials N (effective_cost l u yv) s)). split.
    + now apply (potentials_feasible N l u s t Hl Hu Hs m built).
    + exact (objective_potentials N l u s t Hl Hu Hs Ht m built yv).
Qed.

Lemma pass_sound (st : state) (yv : scenario) (z : bound) (w : list nat) :
  sound m st -> conserves N s t yv ->
  match z with
  | NegInf => True
  | Finite x => forall sol, feasible m sol -> (x <= objective_value m sol)%R
  | PosInf => False
  end ->
  sound m (pass N l u s t tolerance max_iterations st yv z w).
Proof.
  intros [Hl Hu] Hflow Hz. unfold sound. rewrite pass_LB, pass_UB. split.
  - destruct (LB st), z; simpl; auto; try contradiction.
    intros sol Hf. apply Rmax_lub; auto.
  - destruct (subproblem_value yv Hflow) as (xt & -> & Hsub).
    destruct (UB st); simpl; auto.
    unfold Rmin. destruct (Rle_dec r _); assumption.
Qed.

Lemma step_sound (st st' : state) :
  cuts_valid N s t st -> sound m st ->
  step N l u s t tolerance max_iterations st st' ->
  cuts_valid N s t st' /\ sound m st'.
Proof.
  intros Hcuts Hsound Hstep.
  destruct Hstep as [st z sol w _ [Hopt Hz] (Hr & Hend & _)
                    |st yv eta w _ _ [Hflow _] (Hr & Hend & _)
                    |st _ _|st reason _ _].
  - split; [now apply pass_cuts|].
    apply pass_sound; [exact Hsound|apply Hopt|].
    intros sol' Hf. rewrite Hz.
    exact (master_relaxes N l u s t m _ _ _ sol' built Hcuts Hopt Hf).
  - split; [now apply pass_cuts|].
    apply pass_sound; [exact Hsound|exact Hflow|exact I].
  - split; assumption.
  - split; assumption.
Qed.

Lemma reaches_sound (k : nat) (st : state) :
  reaches N M l u s t tolerance max_iterations k st ->
  cuts_valid N s t st /\ sound m st.
Proof.
  induction 1 as [|k st st' _ [Hcuts Hsound] Hstep].
  - unfold init. rewrite valid. simpl.
    destruct (negb _); (split; [constructor|split; exact I]).
  - now apply (step_sound st).
Qed.

End Built.

(** A run that makes a pass started on a well-formed instance. *)
Lemma reaches_iterating (k : nat) (st : state) :
  reaches N M l u s t tolerance max_iterations k st ->
  current st = ITERATING -> well_formed N l u s t = true.
Proof.
  induction 1 as [|k st st' _ IH Hstep]; intros Hcur.
  - now apply init_iterating.
  - destruct Hstep; now apply IH.
Qed.

End Orchestrator.

(** The first pass never closes the gap: the first master program has
    no cut and no optimum, so the lower bound is still [-oo] after it. *)
Lemma first_pass_open (N : nat) (M : Z) (l u : matrix) (s t : nat)
      (tolerance : R) (max_iterations : nat) (st : state) :
  reaches N M l u s t tolerance max_iterations 1 st ->
  LB st = NegInf /\ current st <> CONVERGED.
Proof.
  intros Hreach.
  inversion Hreach as [|k st0 st1 Hinit Hstep]; subst.
  inversion Hinit; subst. clear Hreach Hinit.
  assert (Hseed : LB (init N M l u s t) = NegInf /\
                  cut_store (init N M l u s t) = []).
  { unfold init. destruct (negb _); [split; reflexivity|].
    destruct (negb _); split; reflexivity. }
  destruct Hseed as [Hlb Hcuts].
  inversion Hstep as [st2 z sol w _ [Hopt _] _|st2 yv eta w _ _ _ _
                     |st2 _ _|st2 reason _ _].
  - rewrite Hcuts in Hopt.
    destruct (empty_master_no_optimum N l u s t _ _ Hopt).
  - rewrite pass_LB, Hlb. split; [reflexivity|].
    unfold pass. rewrite Hlb. cbn [raise_lb gap_closed].
    destruct (max_iterations <=? _); discriminate.
  - split; [exact Hlb|discriminate].
  - split; [exact Hlb|discriminate].
Qed.

End BendersFacts.

Import BendersFacts.

(** C6. Across the iterations of the loop the lower bound never
    decreases and the upper bound never increases, and after every
    iteration [LB_i <= LB_(i+1) <= UB_(i+1) <= UB_i], with [-oo] and
    [+oo] for a bound that is not finite yet: whatever the oracle
    answers to the master programs and whichever cuts are derived, a
    pass that follows [i] passes of a run leaves the bounds in that
    order. *)
Theorem C6_bounds_monotone (N : nat) (M : Z) (l u : matrix) (s t : nat)
        (tolerance : R) (max_iterations : nat) (i : nat)
        (st st' : state) :
  reaches N M l u s t tolerance max_iterations i st ->
  step N l u s t tolerance max_iterations st st' ->
  bound_le (LB st) (LB st') /\
  bound_le (LB st') (UB st') /\
  bound_le (UB st') (UB st).
Proof.
  intros Hreach Hstep.
  split; [exact (step_LB N l u s t tolerance max_iterations st st' Hstep)|].
  split; [|exact (step_UB N l u s t tolerance max_iterations st st' Hstep)].
  assert (Hcur : current st = ITERATING) by (destruct Hstep; assumption).
  pose proof (reaches_iterating N M l u s t tolerance max_iterations i st
                Hreach Hcur) as Hwf.
  destruct (well_formed_spec N l u s t Hwf) as (Hs & Ht & _).
  pose proof (build_model_in_range N l u s t Hs Ht) as Hb.
  destruct (reaches_sound N M l u s t tolerance max_iterations Hwf _ Hb
              (S i) st'
              (reaches_step N M l u s t tolerance max_iterations i st st'
                 Hreach Hstep)) as [_ Hsound].
  exact (sound_le _ st' Hsound).
Qed.

(** ** A run of the loop on the four-node graph *)

Lemma toy_init :
  init 4 Examples.M Examples.toy_l Examples.toy_u 0 3 = seeded.
Proof. vm_compute. reflexivity. Qed.

Lemma toy_lower_path : simple_path 4 0 3 [2; 3].
Proof.
  split; [repeat constructor|]. split; [reflexivity|].
  repeat constructor; simpl; intuition discriminate.
Qed.

Lemma toy_upper_conserves : conserves 4 0 3 ToyRun.upper_path.
Proof.
  exact (path_conserves 4 0 3 ltac:(lia) ltac:(lia) [1; 3] ltac:(lia)
           toy_path).
Qed.

Lemma toy_lower_conserves : conserves 4 0 3 ToyRun.lower_path.
Proof.
  exact (path_conserves 4 0 3 ltac:(lia) ltac:(lia) [2; 3] ltac:(lia)
           toy_lower_path).
Qed.

(** The state after the first pass: no lower bound yet, the regret 7 of
    the path [0 -> 1 -> 3] as upper bound, one cut. *)
Lemma toy_first_state :
  ToyRun.first = mkState ITERATING NegInf (Finite 7) [[2; 3]] 1 None None.
Proof.
  unfold ToyRun.first. rewrite toy_init. unfold pass, seeded.
  cbn [LB UB cut_store iteration_count reported].
  replace (nth 3 (subproblem 4 Examples.toy_l Examples.toy_u 0
                             ToyRun.upper_path) None)
    with (Some 3%Z) by (vm_compute; reflexivity).
  replace (upper_cost 4 Examples.toy_u ToyRun.upper_path - 3)%Z
    with 7%Z by (vm_compute; reflexivity).
  reflexivity.
Qed.

Lemma toy_first_reached :
  reaches 4 Examples.M Examples.toy_l Examples.toy_u 0 3 0%R 10 1
          ToyRun.first.
Proof.
  apply (reaches_step 4 Examples.M Examples.toy_l Examples.toy_u 0 3 0%R 10
           0 _ _ (reaches_init _ _ _ _ _ _ _ _)).
  apply (step_unbounded 4 Examples.toy_l Examples.toy_u 0 3 0%R 10 _
           ToyRun.upper_path 0%R [2; 3]).
  - now rewrite toy_init.
  - rewrite toy_init. exact (empty_master_unbounded 4 _ _ 0 3 _
                               toy_upper_conserves).
  - rewrite toy_init. split; [exact toy_upper_conserves|constructor].
  - split; [repeat constructor|]. split; [reflexivity|].
    intros xt H. vm_compute in H. injection H as <-.
    vm_compute. reflexivity.
Qed.

(** The second master program, over the cut of [0 -> 2 -> 3]: the path
    [0 -> 2 -> 3] with [eta = 12] is an optimum, of value 0. *)
Lemma toy_second_master :
  master_resolve 4 Examples.toy_l Examples.toy_u 0 3 [[2; 3]]
                 (OPTIMAL 0 ToyRun.second_master).
Proof.
  assert (Hval : master_objective 4 Examples.toy_u ToyRun.lower_path 12
                 = IZR 0).
  { unfold master_objective.
    replace (upper_cost 4 Examples.toy_u ToyRun.lower_path) with 12%Z
      by (vm_compute; reflexivity).
    lra. }
  unfold master_resolve. cbn [Yval Xval ToyRun.second_master].
  split; [|rewrite Hval; reflexivity].
  apply (certified_master 4 Examples.toy_l Examples.toy_u 0 3 0);
    [vm_compute; reflexivity| |exact Hval].
  split; [exact toy_lower_conserves|].
  constructor; [|constructor].
  replace (walk_cost (effective_cost Examples.toy_l Examples.toy_u
                                     ToyRun.lower_path) 0 [2; 3])
    with 12%Z by (vm_compute; reflexivity).
  lra.
Qed.

Lemma toy_second_step :
  step 4 Examples.toy_l Examples.toy_u 0 3 0%R 10 ToyRun.first
       ToyRun.second.
Proof.
  apply (step_optimal 4 Examples.toy_l Examples.toy_u 0 3 0%R 10
           ToyRun.first 0%R ToyRun.second_master [1; 3]).
  - now rewrite toy_first_state.
  - rewrite toy_first_state. exact toy_second_master.
  - split; [repeat constructor|]. split; [reflexivity|].
    intros xt H. vm_compute in H. injection H as <-.
    vm_compute. reflexivity.
Qed.

Lemma C6_bounds_monotone_witness :
  bound_le (LB ToyRun.first) (LB ToyRun.second) /\
  bound_le (LB ToyRun.second) (UB ToyRun.second) /\
  bound_le (UB ToyRun.second) (UB ToyRun.first).
Proof.
  exact (C6_bounds_monotone 4 Examples.M Examples.toy_l Examples.toy_u 0 3
           0%R 10 1 ToyRun.first ToyRun.second toy_first_reached
           toy_second_step).
Defined.

(** The state after the second pass: both bounds are finite, 0 below and
    7 above, and the store holds two cuts. *)
Lemma toy_second_state :
  ToyRun.second
  = mkState ITERATING (Finite 0) (Finite (Rmin 7 10)) [[2; 3]; [1; 3]] 2
            None None.
Proof.
  unfold ToyRun.second. rewrite toy_first_state. unfold pass.
  cbn [LB UB cut_store iteration_count reported].
  replace (nth 3 (subproblem 4 Examples.toy_l Examples.toy_u 0
                             ToyRun.lower_path) None)
    with (Some 2%Z) by (vm_compute; reflexivity).
  replace (upper_cost 4 Examples.toy_u ToyRun.lower_path - 2)%Z
    with 10%Z by (vm_compute; reflexivity).
  cbn [raise_lb lower_ub gap_closed].
  destruct (Rle_dec (Rmin 7 10 - 0) 0) as [H|_].
  - exfalso. unfold Rmin in H. destruct (Rle_dec 7 10); lra.
  - reflexivity.
Qed.

(** The third master program, over both cuts: the path [0 -> 1 -> 3]
    with [eta = 3] is an optimum, of value 7. *)
Lemma toy_third_master :
  master_resolve 4 Examples.toy_l Examples.toy_u 0 3 [[2; 3]; [1; 3]]
                 (OPTIMAL 7 ToyRun.third_master).
Proof.
  assert (Hval : master_objective 4 Examples.toy_u ToyRun.upper_path 3
                 = IZR 7).
  { unfold master_objective.
    replace (upper_cost 4 Examples.toy_u ToyRun.upper_path) with 10%Z
      by (vm_compute; reflexivity).
    lra. }
  unfold master_resolve. cbn [Yval Xval ToyRun.third_master].
  split; [|rewrite Hval; reflexivity].
  apply (certified_master 4 Examples.toy_l Examples.toy_u 0 3 7);
    [vm_compute; reflexivity| |exact Hval].
  split; [exact toy_upper_conserves|].
  constructor; [|constructor; [|constructor]].
  - replace (walk_cost (effective_cost Examples.toy_l Examples.toy_u
                                       ToyRun.upper_path) 0 [2; 3])
      with 3%Z by (vm_compute; reflexivity).
    lra.
  - replace (walk_cost (effective_cost Examples.toy_l Examples.toy_u
                                       ToyRun.upper_path) 0 [1; 3])
      with 10%Z by (vm_compute; reflexivity).
    lra.
Qed.

(** The third pass closes the gap: the run converges after three passes
    with both bounds at 7, the least regret of a path of the graph, and
    reports the path [0 -> 1 -> 3]. *)
Lemma toy_run_converges :
  reaches 4 Examples.M Examples.toy_l Examples.toy_u 0 3 0%R 10 3
          ToyRun.third /\
  current ToyRun.third = CONVERGED /\
  LB ToyRun.third = Finite 7 /\ UB ToyRun.third = Finite 7 /\
  reported ToyRun.third = Some (ToyRun.upper_path, 7%R).
Proof.
  split.
  - apply (reaches_step 4 Examples.M Examples.toy_l Examples.toy_u 0 3 0%R
             10 2 ToyRun.second).
    + exact (reaches_step 4 Examples.M Examples.toy_l Examples.toy_u 0 3
               0%R 10 1 _ _ toy_first_reached toy_second_step).
    + apply (step_optimal 4 Examples.toy_l Examples.toy_u 0 3 0%R 10
               ToyRun.second 7%R ToyRun.third_master [2; 3]).
      * now rewrite toy_second_state.
      * rewrite toy_second_state. exact toy_third_master.
      * split; [repeat constructor|]. split; [reflexivity|].
        intros xt H. vm_compute in H. injection H as <-.
        vm_compute. reflexivity.
  - unfold ToyRun.third. rewrite toy_second_state. unfold pass.
    cbn [LB UB cut_store iteration_count reported].
    replace (nth 3 (subproblem 4 Examples.toy_l Examples.toy_u 0
                               ToyRun.upper_path) None)
      with (Some 3%Z) by (vm_compute; reflexivity).
    replace (upper_cost 4 Examples.toy_u ToyRun.upper_path - 3)%Z
      with 7%Z by (vm_compute; reflexivity).
    cbn [raise_lb lower_ub gap_closed].
    assert (Hlb : Rmax 0 7 = 7%R)
      by (unfold Rmax; destruct (Rle_dec 0 7); lra).
    assert (Hub : Rmin (Rmin 7 10) 7 = 7%R)
      by (unfold Rmin; destruct (Rle_dec 7 10);
          [destruct (Rle_dec 7 7)|destruct (Rle_dec 10 7)]; lra).
    rewrite Hlb, Hub.
    destruct (Rle_dec (7 - 7) 0) as [_|H]; [|exfalso; apply H; lra].
    cbn [current LB UB reported]. auto.
Qed.
